(** * hd-wallet: the chain discovery engine of [lib/index.js]

    A shallow embedding of the classes of [lib/index.js]:
    [WorkerChannel], [PrefatchingSource], [CachingSource], [Chain],
    [TxDatabase], [ChainHistory] and [ChainDiscovery].

    JavaScript objects created with [Object.create(null)] and used as
    dictionaries are finite maps ([gmap]); counters that start at 0 and are
    only incremented are [nat]; other numbers are [Z].  A promise is split
    into the part of a method that runs at the call and the callback that
    runs when the promise settles. *)

From Stdlib Require Import Ascii.
From stdpp Require Import gmap strings list fin_maps pretty sorting.

(** ** Values shared by the classes *)

(** An address is an opaque string. *)
Definition Address : Type := string.

(** [TxInfo] of [./bitcore]: only [id] is read by this file, the block
    context and the raw payload are carried along. *)
Record TxInfo : Type := mkTxInfo {
  tx_id : string;
  tx_height : Z;
  tx_hash : string;
  tx_raw : string
}.

Global Instance TxInfo_eq_dec : EqDecision TxInfo.
Proof. solve_decision. Defined.

(** What a promise is rejected with, or what a call throws. *)
Inductive JsError : Type :=
  | TypeError (message : string)
  | BackendError (message : string).

(** The outcome of a promise that has settled. *)
Inductive outcome (E A : Type) : Type :=
  | Fulfilled (a : A)
  | Rejected (e : E).
Arguments Fulfilled {E A} a.
Arguments Rejected {E A} e.

(** The keys of an object whose keys are array indices, in the order in
    which [for (... in ...)] visits them: ascending. *)
Definition keys_ascending {A : Type} (m : gmap nat A) : list nat :=
  merge_sort (≤) (elements (dom m)).

(** [array[index] = value] on an array that may have holes: an index past
    the end makes the array longer, with holes in between. *)
Definition array_set {A : Type} (array : list (option A)) (index : nat)
    (value : A) : list (option A) :=
  if decide (index < length array) then <[index := Some value]> array
  else array ++ replicate (index - length array) None ++ [Some value].

(** ** TxDatabase *)

Module TxDatabase.

Record t : Type := mk {
  indexes : gmap string nat;   (* tx id -> index *)
  infos : gmap nat TxInfo;     (* index -> tx info *)
  nextIndex : nat
}.

(** [constructor()] *)
Definition new : t := mk ∅ ∅ 0.

Definition indexOf (db : t) (info : TxInfo) : option nat :=
  indexes db !! tx_id info.

Definition infoOf (db : t) (index : nat) : option TxInfo :=
  infos db !! index.

(** [this.infos[this.indexes[id]]]: an unknown id reads the key
    ["undefined"], which is never written. *)
Definition infoOfId (db : t) (id : string) : option TxInfo :=
  indexes db !! id ≫= infoOf db.

Definition update (db : t) (info : TxInfo) : t :=
  match indexes db !! tx_id info with
  | None =>
      let index := nextIndex db in
      mk (<[tx_id info := index]> (indexes db))
         (<[index := info]> (infos db))
         (S (nextIndex db))
  | Some index =>
      mk (indexes db) (<[index := info]> (infos db)) (nextIndex db)
  end.

(** [restore(data)]: [data.forEach] of [update] after [TxInfo.fromJSON],
    which lives in [./bitcore] and is a parameter here. *)
Definition restore {Json : Type} (fromJSON : Json → TxInfo)
    (db : t) (data : list Json) : t :=
  foldl (λ acc item, update acc (fromJSON item)) db data.

(** The states a database goes through: built by the constructor and
    changed by [update] only ([restore] is a sequence of updates). *)
Inductive reachable : t → Prop :=
  | reachable_new : reachable new
  | reachable_update db info : reachable db → reachable (update db info).

(** What holds of every reachable database. *)
Record wf (db : t) : Prop := mk_wf {
  wf_lt : ∀ id i, indexes db !! id = Some i → i < nextIndex db;
  wf_inj : ∀ id1 id2 i,
    indexes db !! id1 = Some i → indexes db !! id2 = Some i → id1 = id2;
  wf_dense : ∀ i, i < nextIndex db → ∃ id, indexes db !! id = Some i;
  wf_infos : ∀ i, is_Some (infos db !! i) ↔ i < nextIndex db;
  wf_id : ∀ id i info,
    indexes db !! id = Some i → infos db !! i = Some info → tx_id info = id
}.

(** [store()]; [toJSON] is [info.toJSON()] of [./bitcore]. *)
Definition store {Json : Type} (toJSON : TxInfo → Json) (db : t)
    : list Json :=
  omap (λ index, toJSON <$> infos db !! index) (keys_ascending (infos db)).

(** A database that holds the records [l], the [i]-th under the index
    [i]. *)
Record mirrors (db : t) (l : list TxInfo) : Prop := mk_mirrors {
  mirrors_next : nextIndex db = length l;
  mirrors_infos : ∀ i, infos db !! i = l !! i;
  mirrors_indexes : ∀ id i,
    indexes db !! id = Some i ↔ ∃ x, l !! i = Some x ∧ tx_id x = id
}.

End TxDatabase.

(** ** WorkerChannel *)

Module WorkerChannel.
Section channel.
Context {Msg Data Err : Type}.

(** The promise a [postMessage] call returns. *)
Inductive promise_state : Type :=
  | Pending
  | Resolved (data : Data)
  | Failed (error : Err).

(** [pending] holds the [{resolve, reject}] pairs, each named by the
    promise it settles; [posted] is what [worker.postMessage] was given;
    [promises] are the promises created so far, a promise being named
    by its position; [listening] says whether [receiveMessage] and
    [receiveError] are registered on the worker. *)
Record t : Type := mk {
  pending : list nat;
  posted : list Msg;
  promises : list promise_state;
  listening : bool
}.

(** [open()] and [close()] *)
Definition open (ch : t) : t :=
  mk (pending ch) (posted ch) (promises ch) true.

Definition close (ch : t) : t :=
  mk (pending ch) (posted ch) (promises ch) false.

(** [constructor(worker)] *)
Definition new : t := open (mk [] [] [] false).

(** Calling [resolve] or [reject] of a promise that has settled does
    nothing. *)
Definition settle (p : nat) (s : promise_state)
    (ps : list promise_state) : list promise_state :=
  match ps !! p with
  | Some Pending => <[p := s]> ps
  | _ => ps
  end.

Definition postMessage (ch : t) (msg : Msg) : t * nat :=
  let p := length (promises ch) in
  (mk (pending ch ++ [p]) (posted ch ++ [msg])
      (promises ch ++ [Pending]) (listening ch), p).

(** [event] stands for [event.data]. *)
Definition receiveMessage (ch : t) (event : Data) : t :=
  match pending ch with
  | dfd :: rest =>
      mk rest (posted ch) (settle dfd (Resolved event) (promises ch))
         (listening ch)
  | [] => ch
  end.

Definition receiveError (ch : t) (error : Err) : t :=
  match pending ch with
  | dfd :: rest =>
      mk rest (posted ch) (settle dfd (Failed error) (promises ch))
         (listening ch)
  | [] => ch
  end.

(** [N] calls of [postMessage], with the promises they return. *)
Definition post_all (ch : t) (msgs : list Msg) : t * list nat :=
  foldl (λ acc msg,
           let '(ch', p) := postMessage acc.1 msg in (ch', acc.2 ++ [p]))
        (ch, []) msgs.

(** The worker's replies, delivered in order. *)
Definition receive_all (ch : t) (replies : list Data) : t :=
  foldl receiveMessage ch replies.

(** What happens to a channel over time. *)
Inductive event : Type :=
  | DoPost (msg : Msg)
  | OnMessage (data : Data)
  | OnError (error : Err)
  | DoOpen
  | DoClose.

Definition step (ch : t) (e : event) : t :=
  match e with
  | DoPost msg => (postMessage ch msg).1
  | OnMessage data => receiveMessage ch data
  | OnError error => receiveError ch error
  | DoOpen => open ch
  | DoClose => close ch
  end.

(** The worker's answer to a request: a message or an error. *)
Definition receive (ch : t) (answer : Data + Err) : t :=
  match answer with
  | inl data => receiveMessage ch data
  | inr error => receiveError ch error
  end.

Definition settled_as (answer : Data + Err) : promise_state :=
  match answer with
  | inl data => Resolved data
  | inr error => Failed error
  end.

(** The queue and the promises agree: the promises that have settled come
    first, and [pending] names the others in the order of their creation. *)
Definition queue_ok (ch : t) : Prop :=
  ∃ settled : list promise_state,
    promises ch = settled ++ replicate (length (pending ch)) Pending
    ∧ pending ch = seq (length settled) (length (pending ch))
    ∧ Forall (λ s, s ≠ Pending) settled.

End channel.
Arguments promise_state : clear implicits.
Arguments t : clear implicits.
End WorkerChannel.

(** ** Address sources

    An address source has one method, [derive(firstIndex, lastIndex)],
    which returns a promise of addresses.  A decorator records the calls it
    makes of the source it wraps in [source_calls]; the promise the [n]-th
    call returned is named [n]. *)

(** [promise.then(callback)] at the time [promise] settles: the callback
    runs on success only, a failure is passed on. *)
Definition promise_then {S E A B : Type} (callback : S → A → S * B)
    (s : S) (settled : outcome E A) : S * outcome E B :=
  match settled with
  | Fulfilled a => let '(s', b) := callback s a in (s', Fulfilled b)
  | Rejected e => (s, Rejected e)
  end.

Module WorkerAddressSource.

(** The fields of an [HDNode] the constructor reads; [publicKey] is
    [keyPair.getPublicKeyBuffer()]. *)
Record HDNode : Type := mkHDNode {
  hd_depth : Z;
  hd_index : Z;
  hd_parentFingerprint : Z;
  hd_chainCode : string;
  hd_publicKey : string
}.

Record node : Type := mk_node {
  depth : Z;
  child_num : Z;
  fingerprint : Z;
  chain_code : string;
  public_key : string
}.

Record request : Type := mk_request {
  type : string;
  request_node : node;
  request_version : Z;
  firstIndex : Z;
  lastIndex : Z
}.

(** The [data] of a reply. *)
Record reply : Type := mk_reply {
  addresses : list Address
}.

Record t : Type := mk {
  channel : WorkerChannel.t request reply JsError;
  this_node : node;
  version : Z
}.

(** [constructor(channel, node, version)] *)
Definition new (channel : WorkerChannel.t request reply JsError)
    (n : HDNode) (version : Z) : t :=
  mk channel
     (mk_node (hd_depth n) (hd_index n) (hd_parentFingerprint n)
        (hd_chainCode n) (hd_publicKey n))
     version.

(** The request [derive] builds for a range. *)
Definition request_for (s : t) (r : Z * Z) : request :=
  mk_request "deriveAddressRange" (this_node s) (version s) r.1 r.2.

(** [derive] up to [.then(...)]: the request posted, and the promise of
    the channel the callback waits on. *)
Definition derive (s : t) (first last : Z) : t * nat :=
  let request := request_for s (first, last) in
  let '(ch, p) := WorkerChannel.postMessage (channel s) request in
  (mk ch (this_node s) (version s), p).

(** What the promise returned by [derive] has settled to, if it has:
    [.then(({addresses}) => addresses)] on the promise of the channel. *)
Definition derived (s : t) (p : nat)
    : option (outcome JsError (list Address)) :=
  match WorkerChannel.promises (channel s) !! p with
  | Some (WorkerChannel.Resolved r) => Some (Fulfilled (addresses r))
  | Some (WorkerChannel.Failed e) => Some (Rejected e)
  | _ => None
  end.

(** The channel given a reply or an error by the worker. *)
Definition receive (s : t) (answer : reply + JsError) : t :=
  mk (WorkerChannel.receive (channel s) answer) (this_node s) (version s).

(** One [derive] per range, in order, with the promises returned. *)
Definition derive_all (s : t) (ranges : list (Z * Z)) : t * list nat :=
  foldl (λ acc r,
           let '(s', p) := derive acc.1 r.1 r.2 in (s', acc.2 ++ [p]))
        (s, []) ranges.

End WorkerAddressSource.

Module NativeAddressSource.
Section native.
(** [node.derive(i).getAddress()] of [bitcoinjs-lib]. *)
Context (node : Z → Address).

(** The [for] loop of [derive], [rounds] being the number of times
    [i <= lastIndex] holds; [as_] is the array [as]. *)
Fixpoint derive_loop (i : Z) (rounds : nat) (as_ : list Address)
    : list Address :=
  match rounds with
  | 0 => as_
  | S rounds => derive_loop (i + 1) rounds (as_ ++ [node i])
  end.

(** [derive(firstIndex, lastIndex)]; the promise it returns is resolved at
    once. *)
Definition derive (firstIndex lastIndex : Z) : list Address :=
  derive_loop firstIndex (Z.to_nat (lastIndex + 1 - firstIndex)) [].

End native.
End NativeAddressSource.

Module PrefatchingSource.

Record slot : Type := mk_slot {
  firstIndex : Z;
  lastIndex : Z;
  promise : nat
}.

Record t : Type := mk {
  source_calls : list (Z * Z);
  prefatched : option slot
}.

(** [constructor(source)] *)
Definition new : t := mk [] None.

(** [this.source.derive(firstIndex, lastIndex)] *)
Definition source_derive (s : t) (first last : Z) : t * nat :=
  (mk (source_calls s ++ [(first, last)]) (prefatched s),
   length (source_calls s)).

Definition matches (p : slot) (first last : Z) : bool :=
  bool_decide (firstIndex p = first) && bool_decide (lastIndex p = last).

(** [derive] up to [return promise.then(...)]: the promise chosen and the
    slot reset. *)
Definition derive (s : t) (first last : Z) : t * nat :=
  let '(s1, chosen) :=
    match prefatched s with
    | Some p => if matches p first last then (s, promise p)
                else source_derive s first last
    | None => source_derive s first last
    end in
  (mk (source_calls s1) None, chosen).

(** The callback given to [promise.then]. *)
Definition derive_callback (first last : Z) (s : t)
    (result : list Address) : t * list Address :=
  let nf := (last + 1)%Z in
  let nl := (last + 1 + (last - first))%Z in
  let '(s1, next) := source_derive s nf nl in
  (mk (source_calls s1) (Some (mk_slot nf nl next)), result).

(** What the promise returned by [derive] settles to once the chosen
    promise has settled. *)
Definition derive_settled {E : Type} (first last : Z) (s : t)
    (settled : outcome E (list Address)) : t * outcome E (list Address) :=
  promise_then (derive_callback first last) s settled.

(** A slot names a call of the wrapped source for the slot's range. *)
Definition slot_ok (s : t) : Prop :=
  ∀ p, prefatched s = Some p →
       source_calls s !! promise p = Some (firstIndex p, lastIndex p).

(** [derive] awaited: the call, then the promise taken fulfilled with
    [result] and the callback run, with nothing else in between. *)
Definition derive_awaited (s : t) (first last : Z)
    (result : list Address) : t :=
  (derive_callback first last (derive s first last).1 result).1.

(** The [j]-th of the ranges of one size that start with [(first, last)]
    and follow one another. *)
Definition following (first last : Z) (j : nat) : Z * Z :=
  ((first + Z.of_nat j * (last - first + 1))%Z,
   (last + Z.of_nat j * (last - first + 1))%Z).

(** The first [k] of these ranges asked for one after the other, each
    awaited; [results j] is what the [j]-th promise is fulfilled with. *)
Definition derive_stream (first last : Z)
    (results : nat → list Address) (k : nat) : t :=
  foldl (λ s j,
           derive_awaited s (following first last j).1
             (following first last j).2 (results j))
        new (seq 0 k).

(** What happens to a prefetching source over time: [derive] is called,
    or the callback of an earlier [derive(first, last)] runs. *)
Inductive action : Type :=
  | Call (first last : Z)
  | Callback (first last : Z) (result : list Address).

Definition act (s : t) (a : action) : t :=
  match a with
  | Call first last => (derive s first last).1
  | Callback first last result => (derive_callback first last s result).1
  end.

End PrefatchingSource.

Module CachingSource.

Record t : Type := mk {
  source_calls : list (Z * Z);
  cache : gmap string (list Address)
}.

(** [constructor(source)] *)
Definition new : t := mk [] ∅.

Definition store (s : t) : gmap string (list Address) := cache s.

Definition restore (s : t) (data : gmap string (list Address)) : t :=
  mk (source_calls s) data.

(** The template string with the two indices. *)
Definition key (first last : Z) : string :=
  pretty first +:+ "-" +:+ pretty last.

(** What [derive] returns: a promise already resolved with the cached
    list, or the promise of the wrapped source followed by the callback. *)
Inductive answer : Type :=
  | Cached (addresses : list Address)
  | Awaiting (promise : nat).

Definition derive (s : t) (first last : Z) : t * answer :=
  match cache s !! key first last with
  | Some addresses => (s, Cached addresses)
  | None =>
      (mk (source_calls s ++ [(first, last)]) (cache s),
       Awaiting (length (source_calls s)))
  end.

(** The callback [(result) => this.cache[key] = result]. *)
Definition derive_callback (first last : Z) (s : t)
    (result : list Address) : t * list Address :=
  (mk (source_calls s) (<[key first last := result]> (cache s)), result).

Definition derive_settled {E : Type} (first last : Z) (s : t)
    (settled : outcome E (list Address)) : t * outcome E (list Address) :=
  promise_then (derive_callback first last) s settled.

(** What happens to a caching source over time: [derive] is called, or a
    promise of the wrapped source settles and the callback waiting on it
    runs.  The map next to the source gives, for such a promise, the
    arguments of the [derive] call that waits on it. *)
Inductive action : Type :=
  | Call (first last : Z)
  | Settle (promise : nat) (settled : outcome JsError (list Address)).

Definition act (st : t * gmap nat (Z * Z)) (a : action)
    : t * gmap nat (Z * Z) :=
  match a with
  | Call first last =>
      match derive st.1 first last with
      | (s', Cached _) => (s', st.2)
      | (s', Awaiting p) => (s', <[p := (first, last)]> st.2)
      end
  | Settle p settled =>
      match st.2 !! p with
      | Some (first, last) =>
          ((derive_settled first last st.1 settled).1, delete p st.2)
      | None => st
      end
  end.

(** Strings of decimal digits. *)
Definition is_digit (c : ascii) : bool :=
  bool_decide (c ∈ ["0"; "1"; "2"; "3"; "4"; "5"; "6"; "7"; "8"; "9"]%char).

Fixpoint digits (s : string) : bool :=
  match s with
  | EmptyString => true
  | String c s => is_digit c && digits s
  end.

End CachingSource.

(** ** Chain *)

Module Chain.

Record t : Type := mk {
  chunkSize : nat;
  addresses : gmap nat Address;   (* address index -> address *)
  indexes : gmap Address nat;     (* address -> address index *)
  nextIndex : nat
}.

(** [constructor(source, chunkSize)] *)
Definition new (chunkSize : nat) : t := mk chunkSize ∅ ∅ 0.

Definition indexOf (c : t) (address : Address) : option nat :=
  indexes c !! address.

Definition addressOf (c : t) (index : nat) : option Address :=
  addresses c !! index.

(** The range [nextChunk] asks its source for. *)
Definition nextChunk_range (c : t) : Z * Z :=
  (Z.of_nat (nextIndex c),
   (Z.of_nat (nextIndex c) + Z.of_nat (chunkSize c) - 1)%Z).

(** One round of [addresses.forEach((a, i) => ...)]. *)
Definition install (firstIndex : nat) (c : t) (i : nat) (a : Address) : t :=
  let i := i + firstIndex in
  mk (chunkSize c) (<[i := a]> (addresses c)) (<[a := i]> (indexes c))
     (S (nextIndex c)).

Fixpoint install_from (firstIndex : nat) (c : t) (i : nat)
    (l : list Address) : t :=
  match l with
  | [] => c
  | a :: rest => install_from firstIndex (install firstIndex c i a) (S i) rest
  end.

(** The callback of [nextChunk]; [firstIndex] was read at the call. *)
Definition nextChunk_callback (firstIndex : nat) (c : t)
    (derived : list Address) : t * list Address :=
  (install_from firstIndex c 0 derived, derived).

(** A call of [nextChunk] whose promise has been fulfilled with [derived]
    before anything else touched the chain. *)
Definition nextChunk (c : t) (derived : list Address) : t :=
  (nextChunk_callback (nextIndex c) c derived).1.


(** A chain that went through the addresses [all], in order, some of them
    maybe more than once. *)
Record tracks (c : t) (all : list Address) : Prop := mk_tracks {
  tracks_next : nextIndex c = length all;
  tracks_addresses : ∀ i, addresses c !! i = all !! i;
  tracks_indexes : ∀ a i,
    indexes c !! a = Some i
    ↔ all !! i = Some a ∧ ∀ j, i < j → all !! j ≠ Some a
}.

(** [k] calls of [nextChunk] on a source that answers at once, each made
    after the one before has settled. *)
Fixpoint chunks_from (source : Z → Z → list Address) (c : t) (k : nat) : t :=
  match k with
  | 0 => c
  | S k =>
      chunks_from source
        (nextChunk c (source (nextChunk_range c).1 (nextChunk_range c).2)) k
  end.

(** Two calls of [nextChunk] made before either promise settles: both read
    the same [firstIndex]; the callbacks then run one after the other. *)
Definition nextChunk_twice (c : t) (derived1 derived2 : list Address) : t :=
  (nextChunk_callback (nextIndex c)
     (nextChunk_callback (nextIndex c) c derived1).1 derived2).1.

End Chain.

(** ** ChainHistory *)

(** The values [untilBlock], [sinceHeight] and [untilHeight] take. *)
Inductive JsVal : Type :=
  | JsNull
  | JsNum (n : Z)
  | JsStr (s : string).

(** A serialised history: [{untilBlock, list}], a position of [list]
    holding the database indices of one address or nothing. *)
Record HistoryData : Type := mkHistoryData {
  data_untilBlock : JsVal;
  data_list : list (option (list nat))
}.

Module ChainHistory.

(** An element of a history is what [infoOf] gave or the info passed to
    [update]; [None] is [undefined]. *)
Record t : Type := mk {
  database : TxDatabase.t;
  histories : gmap nat (list (option TxInfo));   (* address index -> [tx info] *)
  nextIndex : nat;
  untilBlock : JsVal
}.

(** [constructor(database)] *)
Definition new (database : TxDatabase.t) : t := mk database ∅ 0 JsNull.

Definition bump (nextIndex index : nat) : nat :=
  if decide (nextIndex ≤ index) then index + 1 else nextIndex.

(** One round of the loop of [restore]. *)
Definition restore_at (h : t) (index : nat)
    (entry : option (list nat)) : t :=
  match entry with
  | None => h
  | Some indexes =>
      let history := TxDatabase.infoOf (database h) <$> indexes in
      mk (database h) (<[index := history]> (histories h))
         (bump (nextIndex h) index) (untilBlock h)
  end.

Fixpoint restore_from (h : t) (index : nat)
    (l : list (option (list nat))) : t :=
  match l with
  | [] => h
  | entry :: rest => restore_from (restore_at h index entry) (S index) rest
  end.

Definition restore (h : t) (data : HistoryData) : t :=
  let h' := restore_from h 0 (data_list data) in
  mk (database h') (histories h') (nextIndex h') (data_untilBlock data).

Definition update (h : t) (info : TxInfo) (index : nat) : t :=
  let histories' :=
    match histories h !! index with
    | Some history => <[index := history ++ [Some info]]> (histories h)
    | None => <[index := [Some info]]> (histories h)
    end in
  mk (database h) histories' (bump (nextIndex h) index) (untilBlock h).

(** The entry [restore] builds from a position of the serialised list. *)
Definition restored_entry (db : TxDatabase.t)
    (position : option (option (list nat))) : option (list (option TxInfo)) :=
  match position with
  | Some (Some indexes) => Some (TxDatabase.infoOf db <$> indexes)
  | _ => None
  end.

(** What [store()] returns: [{untilBlock, list}], [list] being an array
    with holes of arrays of what [indexOf] gave, which is [undefined]
    for a transaction the database does not know. *)
Record Stored : Type := mk_stored {
  stored_untilBlock : JsVal;
  stored_list : list (option (list (option nat)))
}.

(** [history.map((info) => this.database.indexOf(info))]; [indexOf] reads
    [info.id], which throws when [info] is [undefined].  A [Rejected]
    outcome stands for the exception. *)
Definition undefined_id : JsError :=
  TypeError "Cannot read property 'id' of undefined".

Fixpoint store_indexes (db : TxDatabase.t) (history : list (option TxInfo))
    : outcome JsError (list (option nat)) :=
  match history with
  | [] => Fulfilled []
  | None :: _ => Rejected undefined_id
  | Some info :: rest =>
      match store_indexes db rest with
      | Fulfilled indexes => Fulfilled (TxDatabase.indexOf db info :: indexes)
      | Rejected e => Rejected e
      end
  end.

(** One round of the loop of [store]. *)
Definition store_at (h : t) (data : outcome JsError Stored) (index : nat)
    : outcome JsError Stored :=
  match data with
  | Rejected e => Rejected e
  | Fulfilled data =>
      match histories h !! index with
      | None => Fulfilled data
      | Some history =>
          match store_indexes (database h) history with
          | Fulfilled indexes =>
              Fulfilled (mk_stored (stored_untilBlock data)
                           (array_set (stored_list data) index indexes))
          | Rejected e => Rejected e
          end
      end
  end.

Definition store (h : t) : outcome JsError Stored :=
  foldl (store_at h) (Fulfilled (mk_stored (untilBlock h) []))
        (keys_ascending (histories h)).

(** A serialised history all of whose indices are defined, as [store]
    would have returned it. *)
Definition as_stored (data : HistoryData) : Stored :=
  mk_stored (data_untilBlock data)
    ((λ entry : option (list nat),
        (λ indexes : list nat, Some <$> indexes) <$> entry)
       <$> data_list data).

(** A history with another database in the place of its own. *)
Definition with_database (db : TxDatabase.t) (h : t) : t :=
  mk db (histories h) (nextIndex h) (untilBlock h).

(** [update] called once per pair, in order. *)
Definition update_all (h : t) (updates : list (TxInfo * nat)) : t :=
  foldl (λ acc u, update acc u.1 u.2) h updates.

(** [nextIndex] is one more than the highest address index with a
    history, or 0 when there is none. *)
Definition used_prefix (h : t) : Prop :=
  (∀ i, is_Some (histories h !! i) → i < nextIndex h)
  ∧ (nextIndex h = 0 ∨ is_Some (histories h !! (nextIndex h - 1))).

(** The record the database holds for the transaction of a history
    element. *)
Definition current (db : TxDatabase.t) (element : option TxInfo)
    : option TxInfo :=
  element ≫= λ info, TxDatabase.infoOfId db (tx_id info).

End ChainHistory.

(** ** ChainDiscovery *)

(** An element of the list [lookupTxs] resolves to, and the argument of the
    blockchain's ['transaction'] event. *)
Record TxResult : Type := mkTxResult {
  info : TxInfo;
  addresses : list Address
}.

(** The [Blockchain] of [./bitcore], by what its calls settle to.
    [lookupBlockIndex] gives the [height] of the index it resolves to, the
    only field read. *)
Record Blockchain : Type := mkBlockchain {
  lookupBestBlockHash : outcome JsError string;
  lookupBlockIndex : JsVal → outcome JsError Z;
  lookupTxs : list Address → JsVal → JsVal → outcome JsError (list TxResult)
}.

(** [if (lastSeenBlock)] *)
Definition truthy (v : JsVal) : bool :=
  match v with
  | JsNull => false
  | JsNum n => negb (n =? 0)%Z
  | JsStr s => negb (bool_decide (s = ""))
  end.

Record BlockRange : Type := mkBlockRange {
  range_sinceHeight : JsVal;
  range_untilHeight : JsVal;
  range_untilBlock : JsVal
}.

(** [Promise.all] resolves to [[lastSeenHeight, currentBlock,
    currentHeight]], and the callback names the three positions
    [sinceHeight], [untilHeight] and [untilBlock] in that order.  When
    more than one of the three is rejected, the rejection passed on is the
    one that settles first; the first in the list is taken here. *)
Definition getBlockRange (blockchain : Blockchain) (lastSeenBlock : JsVal)
    : outcome JsError BlockRange :=
  let lastSeenHeight :=
    if truthy lastSeenBlock then lookupBlockIndex blockchain lastSeenBlock
    else Fulfilled 0%Z in
  let currentBlock := lookupBestBlockHash blockchain in
  let currentHeight :=
    match currentBlock with
    | Fulfilled hash => lookupBlockIndex blockchain (JsStr hash)
    | Rejected e => Rejected e
    end in
  match lastSeenHeight, currentBlock, currentHeight with
  | Fulfilled a, Fulfilled b, Fulfilled c =>
      Fulfilled (mkBlockRange (JsNum a) (JsStr b) (JsNum c))
  | Rejected e, _, _ => Rejected e
  | _, Rejected e, _ => Rejected e
  | _, _, Rejected e => Rejected e
  end.

Module ChainDiscovery.

Record t : Type := mk {
  chain : Chain.t;
  history : ChainHistory.t;
  gapLength : Z;
  sinceHeight : JsVal;
  untilHeight : JsVal
}.

(** What the discovery emits; ['history'] carries [this.history]. *)
Inductive event : Type :=
  | Transaction (info : TxInfo)
  | History (history : ChainHistory.t)
  | Error (error : JsError).

(** How [update] ends: by returning, or by the call [this.next()]. *)
Inductive control : Type :=
  | Return
  | CallNext.

(** [constructor(chain, history, blockchain, gapLength)] *)
Definition new (chain : Chain.t) (history : ChainHistory.t)
    (gapLength : Z) : t :=
  mk chain history gapLength JsNull JsNull.

Definition gap (d : t) : Z :=
  (Z.of_nat (Chain.nextIndex (chain d))
   - Z.of_nat (ChainHistory.nextIndex (history d)))%Z.

Definition with_history (d : t) (h : ChainHistory.t) : t :=
  mk (chain d) h (gapLength d) (sinceHeight d) (untilHeight d).

Definition with_chain (d : t) (c : Chain.t) : t :=
  mk c (history d) (gapLength d) (sinceHeight d) (untilHeight d).

(** One round of the inner [addresses.forEach], on the discovery and
    [anyAddress]. *)
Definition update_address (info : TxInfo) (acc : t * bool)
    (address : Address) : t * bool :=
  match Chain.indexOf (chain acc.1) address with
  | Some index =>
      (with_history acc.1 (ChainHistory.update (history acc.1) info index),
       true)
  | None => acc
  end.

(** [this.history.database.update(info)] *)
Definition update_database (d : t) (info : TxInfo) : t :=
  let h := history d in
  with_history d
    (ChainHistory.mk (TxDatabase.update (ChainHistory.database h) info)
       (ChainHistory.histories h) (ChainHistory.nextIndex h)
       (ChainHistory.untilBlock h)).

(** One round of the outer [results.forEach], on the discovery,
    [anyResult] and the events emitted so far. *)
Definition update_result (acc : t * bool * list event)
    (result : TxResult) : t * bool * list event :=
  let '(d, anyResult, emitted) := acc in
  let '(d1, anyAddress) :=
    foldl (update_address (info result)) (d, false) (addresses result) in
  if anyAddress
  then (update_database d1 (info result), true,
        emitted ++ [Transaction (info result)])
  else (d1, anyResult, emitted).

Definition update (d : t) (results : list TxResult)
    : t * list event * control :=
  let '(d1, anyResult, emitted) :=
    foldl update_result (d, false, []) results in
  if anyResult then
    if bool_decide (gap d1 < gapLength d1)%Z
    then (d1, emitted, CallNext)
    else (d1, emitted ++ [History (history d1)], Return)
  else (d1, emitted, Return).

(** The methods the class declares, and those it inherits from
    [EventEmitter]. *)
Definition methods : list string :=
  ["constructor"; "start"; "updateBlockInfo"; "nextChunk"; "update"; "gap"].

Definition EventEmitter_methods : list string :=
  ["setMaxListeners"; "getMaxListeners"; "emit"; "addListener"; "on";
   "prependListener"; "once"; "prependOnceListener"; "removeListener";
   "off"; "removeAllListeners"; "listeners"; "rawListeners";
   "listenerCount"; "eventNames"].

Definition declared (name : string) : bool :=
  bool_decide (name ∈ methods ++ EventEmitter_methods).

(** What [this.next] is bound to when [start] and [update] call
    [this.next()].  A name that is not declared is [undefined], and calling
    it throws a [TypeError]; [BoundToNextChunk] reads the call as
    [this.nextChunk()]. *)
Inductive binding : Type :=
  | Unbound
  | BoundToNextChunk.

(** [this.next], as the class stands: [next] is not declared. *)
Definition this_next : binding := Unbound.

(** What a run leaves behind outside the discovery: the ranges asked of
    the address source, the lists given to [blockchain.subscribe], and
    the events emitted. *)
Record world : Type := mk_world {
  derived : list (Z * Z);
  subscribed : list (list Address);
  emitted : list event
}.

Definition emit (w : world) (events : list event) : world :=
  mk_world (derived w) (subscribed w) (emitted w ++ events).

Definition updateBlockInfo (blockchain : Blockchain) (d : t)
    : outcome JsError t :=
  match getBlockRange blockchain (ChainHistory.untilBlock (history d)) with
  | Fulfilled r =>
      let h := history d in
      Fulfilled
        (mk (chain d)
            (ChainHistory.mk (ChainHistory.database h)
               (ChainHistory.histories h) (ChainHistory.nextIndex h)
               (range_untilBlock r))
            (gapLength d) (range_sinceHeight r) (range_untilHeight r))
  | Rejected e => Rejected e
  end.

(** The call [this.next()] and all that follows it when every promise
    settles as [source] and [blockchain] say, each before the next call
    is made.  [fuel] bounds the number of calls of [this.next()];
    [None] means it ran out. *)
Fixpoint next (fuel : nat) (bound : binding) (blockchain : Blockchain)
    (source : Z → Z → outcome JsError (list Address))
    (d : t) (w : world) : option (t * world) :=
  match fuel with
  | 0 => None
  | S fuel =>
      match bound with
      | Unbound =>
          Some (d, emit w [Error (TypeError "this.next is not a function")])
      | BoundToNextChunk =>
          let '(first, last) := Chain.nextChunk_range (chain d) in
          let w1 :=
            mk_world (derived w ++ [(first, last)]) (subscribed w)
                     (emitted w) in
          match source first last with
          | Rejected e => Some (d, emit w1 [Error e])
          | Fulfilled addresses =>
              let d1 := with_chain d (Chain.nextChunk (chain d) addresses) in
              let w2 :=
                mk_world (derived w1) (subscribed w1 ++ [addresses])
                         (emitted w1) in
              match lookupTxs blockchain addresses (untilHeight d1)
                      (sinceHeight d1) with
              | Rejected e => Some (d1, emit w2 [Error e])
              | Fulfilled results =>
                  let '(d2, events, ctl) := update d1 results in
                  match ctl with
                  | Return => Some (d2, emit w2 events)
                  | CallNext =>
                      next fuel bound blockchain source d2 (emit w2 events)
                  end
              end
          end
      end
  end.

(** [start()] and the scan it sets off, run to its end with nothing in
    between: the blockchain reports no transaction to the listener that
    [start()] registers before the scan stops.  The listener, and the
    callbacks in any order, are in [run] below. *)
Definition start (fuel : nat) (bound : binding) (blockchain : Blockchain)
    (source : Z → Z → outcome JsError (list Address))
    (d : t) : option (t * world) :=
  match updateBlockInfo blockchain d with
  | Rejected e => Some (d, mk_world [] [] [Error e])
  | Fulfilled d1 => next fuel bound blockchain source d1 (mk_world [] [] [])
  end.

Definition is_history (e : event) : bool :=
  match e with History _ => true | _ => false end.

(** How many times ['history'] fired. *)
Definition history_count (w : world) : nat :=
  length (filter (λ e, is_history e = true) (emitted w)).

(** A result that names at least one address the chain has derived. *)
Definition touches (c : Chain.t) (r : TxResult) : bool :=
  bool_decide (Exists (λ a, is_Some (Chain.indexOf c a)) (addresses r)).

(** The calls of [this.history.update(info, index)] that [update] makes
    for one result, and for a list of results, in order. *)
Definition history_updates_of (c : Chain.t) (r : TxResult)
    : list (TxInfo * nat) :=
  omap (λ a, pair (info r) <$> Chain.indexOf c a) (addresses r).

Definition history_updates (c : Chain.t) (results : list TxResult)
    : list (TxInfo * nat) :=
  results ≫= history_updates_of c.

(** The transactions [update] passes to [this.history.database.update],
    in order. *)
Definition database_updates (c : Chain.t) (results : list TxResult)
    : list TxInfo :=
  info <$> filter (λ r, touches c r = true) results.

(** The discovery [update] leaves: its history updated for every pair of
    a transaction and an address of it the chain knows, its database
    updated with every transaction that has such an address. *)
Definition updated (d : t) (results : list TxResult) : t :=
  with_history d
    (ChainHistory.with_database
       (foldl TxDatabase.update (ChainHistory.database (history d))
          (database_updates (chain d) results))
       (ChainHistory.update_all (history d)
          (history_updates (chain d) results))).

(** Every transaction listed in a history is known to its database. *)
Definition linked (h : ChainHistory.t) : Prop :=
  ∀ i history x,
    ChainHistory.histories h !! i = Some history → Some x ∈ history →
    is_Some (TxDatabase.indexOf (ChainHistory.database h) x).

(** The [j]-th range a scan asks of the address source when the chain
    starts at [n] with chunks of [c]. *)
Definition chunk_range (n c j : nat) : Z * Z :=
  ((Z.of_nat n + Z.of_nat j * Z.of_nat c)%Z,
   (Z.of_nat n + Z.of_nat j * Z.of_nat c + Z.of_nat c - 1)%Z).

(** *** The discovery among the callbacks

    [start()] registers a listener for the ['transaction'] event of the
    blockchain before it calls [this.next()].  From then on the discovery
    is changed by callbacks only, each run to its end before the next
    one starts: that listener, called whenever the blockchain reports a
    transaction, and the callbacks of the promises the discovery waits
    on, in whatever order these settle. *)

(** What a callback that has not run yet waits on:
    - the promise of [this.source.derive(first, last)], on which the
      callback of [Chain.nextChunk] waits, with the [firstIndex] it read;
    - the promise of [this.chain.nextChunk()], fulfilled with the
      addresses the chain has installed, on which the callback of
      [ChainDiscovery.nextChunk] waits;
    - the promise of [this.blockchain.lookupTxs(addresses, until, since)];
    - a rejected promise, on which a handler [(error) => {
      this.emit('error', error); }] waits. *)
Inductive waiting : Type :=
  | Derive (firstIndex : nat) (first last : Z)
  | Installed (addresses : list Address)
  | Lookup (addresses : list Address) (until since : JsVal)
  | Failed (error : JsError).

(** The discovery, whether its listener is registered, the callbacks
    that wait, by promise, the number of promises made so far, what the
    run has left behind outside the discovery, and what was thrown out of
    the listener into the blockchain's [emit]. *)
Record live : Type := mk_live {
  discovery : t;
  listening : bool;
  waits : gmap nat waiting;
  promises : nat;
  seen : world;
  uncaught : list JsError
}.

Definition set_discovery (s : live) (d : t) : live :=
  mk_live d (listening s) (waits s) (promises s) (seen s) (uncaught s).

Definition set_seen (s : live) (w : world) : live :=
  mk_live (discovery s) (listening s) (waits s) (promises s) w (uncaught s).

(** A new promise with a callback waiting on it. *)
Definition wait (s : live) (w : waiting) : live :=
  mk_live (discovery s) (listening s) (<[promises s := w]> (waits s))
    (S (promises s)) (seen s) (uncaught s).

(** The callback that waited on [p] runs. *)
Definition settle (s : live) (p : nat) : live :=
  mk_live (discovery s) (listening s) (delete p (waits s)) (promises s)
    (seen s) (uncaught s).

(** [nextChunk()], up to the point where it returns: [Chain.nextChunk]
    reads [firstIndex] and [lastIndex] and asks the source for them. *)
Definition nextChunk (s : live) : live :=
  let c := chain (discovery s) in
  let w := seen s in
  wait
    (set_seen s
       (mk_world (derived w ++ [Chain.nextChunk_range c]) (subscribed w)
          (emitted w)))
    (Derive (Chain.nextIndex c) (Chain.nextChunk_range c).1
       (Chain.nextChunk_range c).2).

(** The call [this.next()]: it returns, or throws. *)
Definition call_next (bound : binding) (s : live) : live * option JsError :=
  match bound with
  | Unbound => (s, Some (TypeError "this.next is not a function"))
  | BoundToNextChunk => (nextChunk s, None)
  end.

(** [this.update(results)] with the call [this.next()] it may end in. *)
Definition update_then_next (bound : binding) (s : live)
    (results : list TxResult) : live * option JsError :=
  let '(d, events, ctl) := update (discovery s) results in
  let s1 := set_seen (set_discovery s d) (emit (seen s) events) in
  match ctl with
  | Return => (s1, None)
  | CallNext => call_next bound s1
  end.

(** What happens, one callback at a time: the blockchain emits
    ['transaction'], the source or the blockchain settles a promise, or
    the callback waiting on a promise that has settled inside the
    discovery runs.  Nothing waits on a promise twice. *)
Inductive action : Type :=
  | Hear (result : TxResult)
  | SourceSettles (p : nat) (settled : outcome JsError (list Address))
  | LookupSettles (p : nat) (settled : outcome JsError (list TxResult))
  | Callback (p : nat).

Definition act (bound : binding) (s : live) (a : action) : live :=
  match a with
  | Hear result =>
      (* [(result) => { this.update([result]); }] *)
      if listening s then
        match update_then_next bound s [result] with
        | (s1, None) => s1
        | (s1, Some e) =>
            mk_live (discovery s1) (listening s1) (waits s1) (promises s1)
              (seen s1) (uncaught s1 ++ [e])
        end
      else s
  | SourceSettles p settled =>
      match waits s !! p with
      | Some (Derive firstIndex _ _) =>
          match settled with
          | Fulfilled addresses =>
              let c :=
                (Chain.nextChunk_callback firstIndex (chain (discovery s))
                   addresses).1 in
              wait (set_discovery (settle s p) (with_chain (discovery s) c))
                (Installed addresses)
          | Rejected e => wait (settle s p) (Failed e)
          end
      | _ => s
      end
  | LookupSettles p settled =>
      match waits s !! p with
      | Some (Lookup _ _ _) =>
          match settled with
          | Fulfilled results =>
              match update_then_next bound (settle s p) results with
              | (s1, None) => s1
              | (s1, Some e) => wait s1 (Failed e)
              end
          | Rejected e => wait (settle s p) (Failed e)
          end
      | _ => s
      end
  | Callback p =>
      match waits s !! p with
      | Some (Installed addresses) =>
          let w := seen s in
          wait
            (set_seen (settle s p)
               (mk_world (derived w) (subscribed w ++ [addresses])
                  (emitted w)))
            (Lookup addresses (untilHeight (discovery s))
               (sinceHeight (discovery s)))
      | Some (Failed e) => set_seen (settle s p) (emit (seen s) [Error e])
      | _ => s
      end
  end.

(** [start()], up to the call [this.next()]: the listener is registered
    once [updateBlockInfo()] has succeeded; what is thrown or rejected
    goes to the handler of [.catch]. *)
Definition start_live (bound : binding) (blockchain : Blockchain) (d : t)
    : live :=
  match updateBlockInfo blockchain d with
  | Rejected e =>
      wait (mk_live d false ∅ 0 (mk_world [] [] []) []) (Failed e)
  | Fulfilled d1 =>
      match call_next bound (mk_live d1 true ∅ 0 (mk_world [] [] []) []) with
      | (s, None) => s
      | (s, Some e) => wait s (Failed e)
      end
  end.

(** A run: [start()], then the callbacks in the order they run. *)
Definition run (bound : binding) (blockchain : Blockchain) (d : t)
    (actions : list action) : live :=
  foldl (act bound) (start_live bound blockchain d) actions.

(** A source that fulfils a promise gives [n] addresses. *)
Definition gives (n : nat) (a : action) : Prop :=
  match a with
  | SourceSettles _ (Fulfilled addresses) => length addresses = n
  | _ => True
  end.

(** A list of numbers that never goes down. *)
Definition ascending (l : list nat) : Prop :=
  ∀ i j a b, i ≤ j → l !! i = Some a → l !! j = Some b → a ≤ b.

(** The ranges asked of the source so far are the chunks numbered [ks],
    counted from the index [n] in chunks of [c] addresses, none of them
    past the chunk the chain would ask next, the chain being [m] chunks
    on. *)
Record chunked (n c : nat) (s : live) (ks : list nat) (m : nat)
    : Prop := mk_chunked {
  chunked_derived : derived (seen s) = chunk_range n c <$> ks;
  chunked_ascending : ascending ks;
  chunked_below : Forall (λ k, k ≤ m) ks;
  chunked_next : Chain.nextIndex (chain (discovery s)) = n + c * m;
  chunked_size : Chain.chunkSize (chain (discovery s)) = c
}.

End ChainDiscovery.

(** ** Sample inputs *)

Definition sample_tx : TxInfo := mkTxInfo "tx-a" 7 "block-7" "raw-a".

(** A database that knows two transactions, and what is restored into
    it: a later record of the second one and a transaction it does not
    know. *)
Definition other_tx : TxInfo := mkTxInfo "tx-b" 8 "block-8" "raw-b".

Definition other_tx_later : TxInfo := mkTxInfo "tx-b" 9 "block-9" "raw-b".

Definition third_tx : TxInfo := mkTxInfo "tx-c" 9 "block-9" "raw-c".

Definition stocked_database : TxDatabase.t :=
  TxDatabase.update (TxDatabase.update TxDatabase.new sample_tx) other_tx.

(** A blockchain on which nothing ever happened, and a source that derives
    ["addr-<i>"] for the index [i]. *)
Definition empty_blockchain : Blockchain :=
  mkBlockchain (Fulfilled "best-block") (λ _, Fulfilled 100%Z)
               (λ _ _ _, Fulfilled []).

Definition sample_source (first last : Z)
    : outcome JsError (list Address) :=
  Fulfilled ((λ i : nat, "addr-" +:+ pretty (first + Z.of_nat i)%Z)
               <$> seq 0 (Z.to_nat (last - first + 1))).

Definition cold_discovery : ChainDiscovery.t :=
  ChainDiscovery.new (Chain.new 20) (ChainHistory.new TxDatabase.new) 20.

(** A discovery that has derived one chunk of three addresses, with a gap
    length of 3. *)
Definition small_discovery : ChainDiscovery.t :=
  ChainDiscovery.new (Chain.nextChunk (Chain.new 3) ["addr-0"; "addr-1"; "addr-2"])
    (ChainHistory.new TxDatabase.new) 3.

(** A transaction that touches one address. *)
Definition tx_at (address : Address) : TxResult :=
  mkTxResult sample_tx [address].

(** A worker source on a fresh channel. *)
Definition sample_worker_source : WorkerAddressSource.t :=
  WorkerAddressSource.new WorkerChannel.new
    (WorkerAddressSource.mkHDNode 3 0 7 "chain-code" "public-key") 0.

(** A history with one transaction at the address index 2, over a
    database that knows it; and a history restored from an index its
    database does not have. *)
Definition sample_history : ChainHistory.t :=
  ChainHistory.update
    (ChainHistory.new (TxDatabase.update TxDatabase.new sample_tx))
    sample_tx 2.

Definition dangling_history : ChainHistory.t :=
  ChainHistory.restore (ChainHistory.new TxDatabase.new)
    (mkHistoryData JsNull [Some [5]]).

(** A blockchain with one transaction, on the address ["addr-0"]. *)
Definition one_tx_blockchain : Blockchain :=
  mkBlockchain (Fulfilled "best-block") (λ _, Fulfilled 100%Z)
    (λ addrs _ _,
       Fulfilled (if bool_decide ("addr-0" ∈ addrs)
                  then [tx_at "addr-0"] else [])).

(** A fresh discovery with chunks of three addresses and a gap length of
    two. *)
Definition fresh_discovery : ChainDiscovery.t :=
  ChainDiscovery.new (Chain.new 3) (ChainHistory.new TxDatabase.new) 2.

(** A run of [fresh_discovery]: the first chunk is derived and looked
    up, which finds a transaction on ["addr-0"]; the blockchain then
    reports that transaction again, a transaction on ["addr-2"] and,
    while the chunk this makes the discovery ask for is still being
    derived, one on ["addr-1"]. *)
Definition busy_run : list ChainDiscovery.action :=
  [ChainDiscovery.SourceSettles 0
     (Fulfilled ["addr-0"; "addr-1"; "addr-2"]);
   ChainDiscovery.Callback 1;
   ChainDiscovery.LookupSettles 2 (Fulfilled [tx_at "addr-0"]);
   ChainDiscovery.Hear (tx_at "addr-0");
   ChainDiscovery.Hear (tx_at "addr-2");
   ChainDiscovery.Hear (tx_at "addr-1")].

(** * Theorems *)

(** ** TxDatabase *)

Section TxDatabase_facts.
Import TxDatabase.

Lemma TxDatabase_wf_new : wf new.
Proof.
  split; cbn; intros *.
  - by rewrite lookup_empty.
  - by rewrite lookup_empty.
  - lia.
  - rewrite lookup_empty. split; [by intros [? ?] | lia].
  - by rewrite lookup_empty.
Qed.

Lemma TxDatabase_wf_update db info : wf db → wf (update db info).
Proof.
  intros [Hlt Hinj Hdense Hinfos Hid]. unfold update.
  destruct (indexes db !! tx_id info) as [ix|] eqn:Hix; split; cbn.
  - done.
  - done.
  - done.
  - intros i. destruct (decide (ix = i)) as [->|Hne].
    + rewrite lookup_insert_eq. split; [intros _; eauto | eauto].
    + by rewrite lookup_insert_ne.
  - intros id i info' Hi. destruct (decide (ix = i)) as [->|Hne].
    + rewrite lookup_insert_eq. intros [= <-].
      destruct (proj2 (Hinfos i)) as [old Hold]; [eauto|].
      rewrite (Hinj _ _ _ Hi Hix). done.
    + rewrite lookup_insert_ne by done. eauto.
  - intros id i. destruct (decide (tx_id info = id)) as [->|Hne].
    + rewrite lookup_insert_eq. intros [= <-]. lia.
    + rewrite lookup_insert_ne by done. intros ?%Hlt. lia.
  - intros id1 id2 i.
    destruct (decide (tx_id info = id1)) as [<-|Hne1];
      destruct (decide (tx_id info = id2)) as [<-|Hne2];
      rewrite ?lookup_insert_eq, ?lookup_insert_ne by done.
    + done.
    + intros [= <-] ?%Hlt. lia.
    + intros ?%Hlt [= <-]. lia.
    + eauto.
  - intros i Hi. destruct (decide (i = nextIndex db)) as [->|Hne].
    + exists (tx_id info). by rewrite lookup_insert_eq.
    + destruct (Hdense i) as [id Hid']; [lia|]. exists id.
      rewrite lookup_insert_ne; [done|congruence].
  - intros i. destruct (decide (nextIndex db = i)) as [<-|Hne].
    + rewrite lookup_insert_eq. split; [lia | eauto].
    + rewrite lookup_insert_ne by done. rewrite Hinfos. lia.
  - intros id i info'.
    destruct (decide (tx_id info = id)) as [<-|Hne].
    + rewrite lookup_insert_eq. intros [= <-].
      rewrite lookup_insert_eq. by intros [= <-].
    + rewrite lookup_insert_ne by done. intros Hi.
      rewrite lookup_insert_ne; [eauto|]. apply Hlt in Hi. lia.
Qed.

Lemma TxDatabase_reachable_wf db : reachable db → wf db.
Proof.
  induction 1; [apply TxDatabase_wf_new | by apply TxDatabase_wf_update].
Qed.

Lemma TxDatabase_reachable_size db :
  reachable db → size (indexes db) = nextIndex db.
Proof.
  induction 1 as [|db info Hr IH]; [done|].
  unfold update. destruct (indexes db !! tx_id info) eqn:Hix; cbn; [done|].
  rewrite map_size_insert_None by done. by rewrite IH.
Qed.

Lemma TxDatabase_update_roundtrip db info :
  indexOf (update db info) info ≫= infoOf (update db info) = Some info.
Proof.
  unfold indexOf, infoOf, update.
  destruct (indexes db !! tx_id info) as [ix|] eqn:Hix; cbn.
  - rewrite Hix. cbn. apply lookup_insert_eq.
  - rewrite lookup_insert_eq. cbn. apply lookup_insert_eq.
Qed.

Lemma TxDatabase_update_indexes_mono db info id i :
  indexes db !! id = Some i → indexes (update db info) !! id = Some i.
Proof.
  intros Hi. unfold update.
  destruct (indexes db !! tx_id info) as [ix|] eqn:Hix; cbn; [done|].
  rewrite lookup_insert_ne; [done|congruence].
Qed.

Lemma TxDatabase_update_nextIndex_mono db info :
  nextIndex db ≤ nextIndex (update db info).
Proof.
  unfold update. destruct (indexes db !! tx_id info); cbn; lia.
Qed.

Lemma TxDatabase_update_other db info id i :
  wf db → indexes db !! id = Some i → tx_id info ≠ id →
  infos (update db info) !! i = infos db !! i.
Proof.
  intros Hwf Hi Hne. unfold update.
  destruct (indexes db !! tx_id info) as [ix|] eqn:Hix; cbn.
  - apply lookup_insert_ne. intros ->.
    apply Hne. eapply wf_inj; eauto.
  - apply lookup_insert_ne. apply (wf_lt _ Hwf) in Hi. lia.
Qed.

Lemma TxDatabase_update_dom db info :
  dom (indexes (update db info)) = dom (indexes db) ∪ {[tx_id info]}.
Proof.
  unfold update. destruct (indexes db !! tx_id info) as [ix|] eqn:Hix; cbn.
  - apply elem_of_dom_2, singleton_subseteq_l in Hix.
    symmetry. rewrite (comm_L (∪)). by apply subseteq_union_1_L.
  - rewrite dom_insert_L. apply (comm_L (∪)).
Qed.

(** C7: [update(info)] gives an absent id the next index, which no entry
    uses and which equals the number of entries (indices are dense), and
    leaves every other entry alone; for a present id it keeps the index
    and replaces the record at it; either way
    [infoOf(indexOf(info))] is then [info]. *)
Theorem TxDatabase_update_insert_or_overwrite db info :
  reachable db →
  (indexOf db info = None →
     indexOf (update db info) info = Some (nextIndex db)
     ∧ nextIndex db = size (indexes db)
     ∧ (∀ id, indexes db !! id ≠ Some (nextIndex db))
     ∧ infoOf db (nextIndex db) = None
     ∧ nextIndex (update db info) = S (nextIndex db)
     ∧ (∀ id, id ≠ tx_id info →
          indexes (update db info) !! id = indexes db !! id)
     ∧ (∀ j, j ≠ nextIndex db → infoOf (update db info) j = infoOf db j))
  ∧ (∀ i, indexOf db info = Some i →
       indexOf (update db info) info = Some i
       ∧ indexes (update db info) = indexes db
       ∧ nextIndex (update db info) = nextIndex db
       ∧ infos (update db info) = <[i := info]> (infos db))
  ∧ indexOf (update db info) info ≫= infoOf (update db info) = Some info
  ∧ (∀ j, j < nextIndex (update db info)
          ↔ ∃ id, indexes (update db info) !! id = Some j).
Proof.
  intros Hr. pose proof (TxDatabase_reachable_wf _ Hr) as Hwf.
  split; [|split; [|split]].
  - unfold indexOf, infoOf, update. intros Hix. rewrite Hix. cbn.
    repeat split.
    + apply lookup_insert_eq.
    + symmetry. by apply TxDatabase_reachable_size.
    + intros id Hid. apply (wf_lt _ Hwf) in Hid. lia.
    + apply eq_None_not_Some. rewrite (wf_infos _ Hwf). lia.
    + intros id Hne. by apply lookup_insert_ne.
    + intros j Hne. by apply lookup_insert_ne.
  - unfold indexOf, update. intros i Hix. rewrite Hix. cbn. by rewrite Hix.
  - apply TxDatabase_update_roundtrip.
  - pose proof (TxDatabase_wf_update _ info Hwf) as Hwf'.
    intros j. split.
    + apply (wf_dense _ Hwf').
    + intros [id Hid]. by apply (wf_lt _ Hwf') in Hid.
Qed.

Lemma TxDatabase_update_insert_or_overwrite_witness :
  reachable new
  ∧ indexOf (update new sample_tx) sample_tx
      ≫= infoOf (update new sample_tx) = Some sample_tx.
Proof.
  split; [constructor|].
  apply (TxDatabase_update_insert_or_overwrite new sample_tx). constructor.
Defined.

Section restore.
Context {Json : Type} (fromJSON : Json → TxInfo).

Lemma TxDatabase_restore_snoc db data item :
  restore fromJSON db (data ++ [item])
  = update (restore fromJSON db data) (fromJSON item).
Proof. unfold restore. by rewrite foldl_app. Qed.

Lemma TxDatabase_restore_reachable db data :
  reachable db → reachable (restore fromJSON db data).
Proof.
  intros Hr. induction data as [|item data IH] using rev_ind; [done|].
  rewrite TxDatabase_restore_snoc. by constructor.
Qed.

Lemma TxDatabase_restore_nextIndex_mono db data :
  nextIndex db ≤ nextIndex (restore fromJSON db data).
Proof.
  induction data as [|item data IH] using rev_ind; [done|].
  rewrite TxDatabase_restore_snoc.
  pose proof (TxDatabase_update_nextIndex_mono
                (restore fromJSON db data) (fromJSON item)). lia.
Qed.

Lemma TxDatabase_restore_indexes_mono db data id i :
  indexes db !! id = Some i →
  indexes (restore fromJSON db data) !! id = Some i.
Proof.
  intros Hi. induction data as [|item data IH] using rev_ind; [done|].
  rewrite TxDatabase_restore_snoc.
  by apply TxDatabase_update_indexes_mono.
Qed.

Lemma TxDatabase_restore_app db data1 data2 :
  restore fromJSON db (data1 ++ data2)
  = restore fromJSON (restore fromJSON db data1) data2.
Proof. unfold restore. by rewrite foldl_app. Qed.

Lemma TxDatabase_restore_dom db data :
  dom (indexes (restore fromJSON db data))
  = dom (indexes db) ∪ list_to_set (tx_id <$> (fromJSON <$> data)).
Proof.
  induction data as [|item data IH] using rev_ind.
  - cbn. by rewrite (right_id_L ∅ (∪)).
  - rewrite TxDatabase_restore_snoc, TxDatabase_update_dom, IH.
    rewrite !fmap_app, list_to_set_app_L. cbn.
    by rewrite (right_id_L ∅ (∪)), (assoc_L (∪)).
Qed.

Lemma TxDatabase_restore_other db data id i :
  reachable db → indexes db !! id = Some i →
  id ∉ tx_id <$> (fromJSON <$> data) →
  infos (restore fromJSON db data) !! i = infos db !! i.
Proof.
  intros Hr Hi. induction data as [|item data IH] using rev_ind; [done|].
  rewrite !fmap_app. cbn. rewrite not_elem_of_app, not_elem_of_cons.
  intros [Hdata [Hitem _]].
  rewrite TxDatabase_restore_snoc, <- IH by done.
  apply TxDatabase_update_other with id.
  - by apply TxDatabase_reachable_wf, TxDatabase_restore_reachable.
  - by apply TxDatabase_restore_indexes_mono.
  - congruence.
Qed.

Lemma TxDatabase_restore_last db data id info :
  reachable db →
  last (filter (λ x, tx_id x = id) (fromJSON <$> data)) = Some info →
  infoOfId (restore fromJSON db data) id = Some info.
Proof.
  intros Hr. induction data as [|item data IH] using rev_ind; [done|].
  rewrite fmap_app, filter_app, TxDatabase_restore_snoc.
  change (fromJSON <$> [item]) with [fromJSON item].
  assert (Hwf : wf (restore fromJSON db data))
    by by apply TxDatabase_reachable_wf, TxDatabase_restore_reachable.
  rewrite filter_cons. destruct (decide (tx_id (fromJSON item) = id)) as [<-|Hne].
  - rewrite filter_nil, last_snoc. intros [= <-].
    apply TxDatabase_update_roundtrip.
  - rewrite filter_nil, app_nil_r. intros Hlast.
    specialize (IH Hlast). unfold infoOfId, infoOf in *.
    destruct (indexes (restore fromJSON db data) !! id) as [i|] eqn:Hi;
      [|done].
    rewrite (TxDatabase_update_indexes_mono _ _ _ _ Hi). cbn in *.
    rewrite <- IH. by apply TxDatabase_update_other with id.
Qed.

(** C10: [restore(data)] is [update] replayed over the items in list
    order on top of what the database holds: every id keeps its index,
    an entry none of whose items carries its id keeps its record, an
    item with an unknown id gets the next index at its turn (at or
    after every index in use before the call), and the record of an id
    that occurs in [data] is the last item carrying it. *)
Theorem TxDatabase_restore_keeps_contents db data :
  reachable db →
  restore fromJSON db data = foldl update db (fromJSON <$> data)
  ∧ (∀ id i, indexes db !! id = Some i →
       indexes (restore fromJSON db data) !! id = Some i)
  ∧ (∀ id i, indexes db !! id = Some i →
       id ∉ tx_id <$> (fromJSON <$> data) →
       infoOf (restore fromJSON db data) i = infoOf db i)
  ∧ (∀ data1 item data2, data = data1 ++ item :: data2 →
       indexOf (restore fromJSON db data1) (fromJSON item) = None →
       indexOf (restore fromJSON db data) (fromJSON item)
         = Some (nextIndex (restore fromJSON db data1))
       ∧ nextIndex db ≤ nextIndex (restore fromJSON db data1)
       ∧ ∀ id, indexes (restore fromJSON db data1) !! id
               ≠ Some (nextIndex (restore fromJSON db data1)))
  ∧ (∀ id info,
       last (filter (λ x, tx_id x = id) (fromJSON <$> data)) = Some info →
       infoOfId (restore fromJSON db data) id = Some info)
  ∧ dom (indexes (restore fromJSON db data))
      = dom (indexes db) ∪ list_to_set (tx_id <$> (fromJSON <$> data))
  ∧ nextIndex (restore fromJSON db data)
      = size (indexes (restore fromJSON db data)).
Proof.
  intros Hr. split; [|split; [|split; [|split; [|split; [|split]]]]].
  - unfold restore. generalize db. clear Hr.
    induction data as [|item data IH]; intros db0; cbn; [done|apply IH].
  - intros id i. apply TxDatabase_restore_indexes_mono.
  - intros id i. by apply TxDatabase_restore_other.
  - intros data1 item data2 -> Hnew.
    assert (Hwf : wf (restore fromJSON db data1))
      by by apply TxDatabase_reachable_wf, TxDatabase_restore_reachable.
    split; [|split].
    + rewrite (TxDatabase_restore_app db data1 (item :: data2)).
      change (item :: data2) with ([item] ++ data2).
      rewrite TxDatabase_restore_app.
      apply TxDatabase_restore_indexes_mono.
      unfold indexOf in Hnew. unfold restore at 1. cbn [foldl].
      unfold update. rewrite Hnew. cbn.
      apply lookup_insert_eq.
    + apply TxDatabase_restore_nextIndex_mono.
    + intros id Hid. apply (wf_lt _ Hwf) in Hid. lia.
  - intros id info. by apply TxDatabase_restore_last.
  - apply TxDatabase_restore_dom.
  - symmetry. by apply TxDatabase_reachable_size,
      TxDatabase_restore_reachable.
Qed.

End restore.

Lemma TxDatabase_restore_keeps_contents_witness :
  reachable stocked_database
  ∧ indexes stocked_database !! "tx-a" = Some 0
  ∧ infoOf stocked_database 0 = Some sample_tx
  ∧ indexes stocked_database !! "tx-b" = Some 1
  ∧ infoOf stocked_database 1 = Some other_tx
  ∧ nextIndex stocked_database = 2
  ∧ indexes (restore (λ x, x) stocked_database [other_tx_later; third_tx])
      !! "tx-a" = Some 0
  ∧ infoOf (restore (λ x, x) stocked_database [other_tx_later; third_tx]) 0
    = Some sample_tx
  ∧ indexes (restore (λ x, x) stocked_database [other_tx_later; third_tx])
      !! "tx-b" = Some 1
  ∧ infoOfId (restore (λ x, x) stocked_database [other_tx_later; third_tx])
      "tx-b" = Some other_tx_later
  ∧ indexOf (restore (λ x, x) stocked_database [other_tx_later; third_tx])
      third_tx = Some 2.
Proof.
  assert (Hr : reachable stocked_database) by (repeat constructor).
  destruct (TxDatabase_restore_keeps_contents (λ x, x) stocked_database
              [other_tx_later; third_tx] Hr)
    as (_ & Hindex & Hrecord & Hfresh & Hlast & _ & _).
  split; [exact Hr|]. do 5 (split; [reflexivity|]).
  split; [by apply Hindex|].
  split.
  { rewrite (Hrecord "tx-a" 0); [reflexivity | reflexivity |].
    intros Hin. repeat (apply elem_of_cons in Hin as [Hin|Hin]; [done|]).
    by apply elem_of_nil in Hin. }
  split; [by apply Hindex|].
  split; [by apply Hlast|].
  by destruct (Hfresh [other_tx_later] third_tx [] eq_refl eq_refl)
    as [-> _].
Defined.

End TxDatabase_facts.

(** ** ChainDiscovery *)

Section ChainDiscovery_facts.
Import ChainDiscovery.

Lemma ChainDiscovery_update_address_frame info0 acc l :
  chain (foldl (update_address info0) acc l).1 = chain acc.1
  ∧ gapLength (foldl (update_address info0) acc l).1 = gapLength acc.1.
Proof.
  revert acc. induction l as [|a l IH]; intros acc; cbn; [done|].
  destruct (IH (update_address info0 acc a)) as [-> ->].
  unfold update_address. by destruct (Chain.indexOf _ _).
Qed.

Lemma ChainDiscovery_update_result_no_history acc r :
  (∀ h, History h ∉ acc.2) → ∀ h, History h ∉ (update_result acc r).2.
Proof.
  destruct acc as [[d any] evs]. cbn. intros Hevs h.
  destruct (foldl _ _ _) as [d1 anyAddress]. destruct anyAddress; cbn.
  - rewrite not_elem_of_app, not_elem_of_cons. split; [apply Hevs|].
    split; [discriminate | apply not_elem_of_nil].
  - apply Hevs.
Qed.

Lemma ChainDiscovery_results_no_history acc results :
  (∀ h, History h ∉ acc.2) →
  ∀ h, History h ∉ (foldl update_result acc results).2.
Proof.
  revert acc. induction results as [|r results IH]; intros acc Hacc; cbn.
  - done.
  - by apply IH, ChainDiscovery_update_result_no_history.
Qed.

(** [update] reads the chain and the gap length and changes neither. *)
Lemma ChainDiscovery_update_frame d results :
  chain (update d results).1.1 = chain d
  ∧ gapLength (update d results).1.1 = gapLength d.
Proof.
  unfold update.
  assert (Hfold : ∀ acc,
            chain (foldl update_result acc results).1.1 = chain acc.1.1
            ∧ gapLength (foldl update_result acc results).1.1
              = gapLength acc.1.1).
  { induction results as [|r results IH]; intros acc; cbn [foldl]; [done|].
    destruct (IH (update_result acc r)) as [-> ->].
    destruct acc as [[d0 any] evs]. unfold update_result.
    pose proof (ChainDiscovery_update_address_frame
                  (info r) (d0, false) (addresses r)) as [Hc Hg].
    destruct (foldl (update_address (info r)) (d0, false) (addresses r))
      as [d1 anyAddress].
    by destruct anyAddress. }
  specialize (Hfold (d, false, [])).
  destruct (foldl update_result (d, false, []) results)
    as [[d1 anyResult] events].
  destruct anyResult; [case_bool_decide|]; apply Hfold.
Qed.

(** The three ways [update] ends. *)
Lemma ChainDiscovery_update_cases d results :
  ∃ d1 events,
    (∀ h, History h ∉ events)
    ∧ ((update d results = (d1, events, CallNext)
        ∧ (gap d1 < gapLength d1)%Z)
       ∨ (update d results = (d1, events ++ [History (history d1)], Return)
          ∧ (gapLength d1 ≤ gap d1)%Z)
       ∨ update d results = (d1, events, Return)).
Proof.
  unfold update.
  pose proof (ChainDiscovery_results_no_history (d, false, []) results)
    as Hno.
  destruct (foldl update_result (d, false, []) results)
    as [[d1 anyResult] events].
  cbn in Hno. specialize (Hno (λ h, not_elem_of_nil _)).
  exists d1, events. split; [done|].
  destruct anyResult; [case_bool_decide as Hgap|].
  - left. done.
  - right. left. split; [done|lia].
  - right. right. done.
Qed.

(** C1: when [update] emits ['history'], the event carries the history
    as it is then, [update] returns without calling [this.next()], and
    [Chain.nextIndex - ChainHistory.nextIndex >= gapLength] holds of the
    chain and that history; when [update] instead ends with the call
    [this.next()], the difference is strictly below [gapLength] and no
    ['history'] was emitted. *)
Theorem ChainDiscovery_update_gap d results :
  (∀ h, History h ∈ (update d results).1.2 →
     h = history (update d results).1.1
     ∧ (update d results).2 = Return
     ∧ (gapLength (update d results).1.1
        ≤ Z.of_nat (Chain.nextIndex (chain (update d results).1.1))
          - Z.of_nat (ChainHistory.nextIndex h))%Z)
  ∧ ((update d results).2 = CallNext →
     (Z.of_nat (Chain.nextIndex (chain (update d results).1.1))
      - Z.of_nat (ChainHistory.nextIndex (history (update d results).1.1))
      < gapLength (update d results).1.1)%Z
     ∧ ∀ h, History h ∉ (update d results).1.2).
Proof.
  destruct (ChainDiscovery_update_cases d results)
    as (d1 & events & Hno & [[-> Hgap]|[[-> Hgap]| ->]]); cbn; split.
  - intros h Hh. by apply Hno in Hh.
  - done.
  - intros h. rewrite elem_of_app, list_elem_of_singleton.
    intros [Hh|[= ->]]; [by apply Hno in Hh|]. done.
  - discriminate.
  - intros h Hh. by apply Hno in Hh.
  - discriminate.
Qed.

Lemma ChainDiscovery_update_gap_witness :
  (update small_discovery [tx_at "addr-0"]).2 = CallNext
  ∧ (Z.of_nat (Chain.nextIndex
       (chain (update small_discovery [tx_at "addr-0"]).1.1))
     - Z.of_nat (ChainHistory.nextIndex
         (history (update small_discovery [tx_at "addr-0"]).1.1))
     < gapLength (update small_discovery [tx_at "addr-0"]).1.1)%Z.
Proof.
  split; [vm_compute; reflexivity|].
  apply (ChainDiscovery_update_gap small_discovery [tx_at "addr-0"]).
  vm_compute; reflexivity.
Defined.

(** A run from [this.next()]: a ['history'] in what it emits is the last
    thing [update] did, so it carries the history the run ends with, and
    the gap the run ends with is at least [gapLength]. *)
Lemma ChainDiscovery_next_history fuel bound blockchain source :
  ∀ d w d' w',
    next fuel bound blockchain source d w = Some (d', w') →
    (∀ h, History h ∉ emitted w) →
    ∀ h, History h ∈ emitted w' →
         h = history d' ∧ (gapLength d' ≤ gap d')%Z.
Proof.
  induction fuel as [|fuel IH]; intros d w d' w' Hrun Hw h; [discriminate|].
  cbn [next] in Hrun.
  assert (Herr : ∀ w0 (e : JsError),
            (∀ h0, History h0 ∉ emitted w0) →
            History h ∉ emitted (emit w0 [Error e])).
  { intros w0 e Hw0. cbn. rewrite not_elem_of_app, list_elem_of_singleton.
    split; [apply Hw0 | discriminate]. }
  destruct bound.
  - injection Hrun as <- <-. intros Hh. by apply Herr in Hh.
  - destruct (Chain.nextChunk_range (chain d)) as [first last].
    destruct (source first last) as [addrs|e].
    2: { injection Hrun as <- <-. intros Hh. by apply Herr in Hh. }
    destruct (lookupTxs _ _ _ _) as [results|e].
    2: { injection Hrun as <- <-. intros Hh. by apply Herr in Hh. }
    destruct (ChainDiscovery_update_cases
                (with_chain d (Chain.nextChunk (chain d) addrs)) results)
      as (d1 & events & Hno & [[Hu Hgap]|[[Hu Hgap]|Hu]]);
      rewrite Hu in Hrun.
    + apply (IH _ _ _ _ Hrun). intros h0. cbn.
      rewrite not_elem_of_app. split; [apply Hw | apply Hno].
    + injection Hrun as <- <-. cbn.
      rewrite !elem_of_app, list_elem_of_singleton.
      intros [Hh|[Hh|[= ->]]]; [by apply Hw in Hh | by apply Hno in Hh | done].
    + injection Hrun as <- <-. cbn. rewrite elem_of_app.
      intros [Hh|Hh]; [by apply Hw in Hh | by apply Hno in Hh].
Qed.

Lemma ChainDiscovery_updateBlockInfo_frame blockchain d d1 :
  updateBlockInfo blockchain d = Fulfilled d1 →
  chain d1 = chain d
  ∧ gapLength d1 = gapLength d
  ∧ ChainHistory.nextIndex (history d1) = ChainHistory.nextIndex (history d).
Proof.
  unfold updateBlockInfo. destruct (getBlockRange _ _); [|discriminate].
  by intros [= <-].
Qed.

Lemma ChainDiscovery_update_nil d : update d [] = (d, [], Return).
Proof. reflexivity. Qed.

(** C2, as the code has it: on a fresh discovery whose every [lookupTxs]
    resolves to the empty list, whatever [this.next] is bound to, the run
    ends, ['history'] is not emitted, [ChainHistory.nextIndex] is still 0
    and the address source was asked for one chunk at most. *)
Theorem ChainDiscovery_cold_scan_no_history
    fuel bound blockchain source chunkSize gapLength0 :
  (∀ addrs until since, lookupTxs blockchain addrs until since = Fulfilled []) →
  0 < fuel →
  ∃ d w,
    start fuel bound blockchain source
      (new (Chain.new chunkSize) (ChainHistory.new TxDatabase.new) gapLength0)
    = Some (d, w)
    ∧ history_count w = 0
    ∧ ChainHistory.nextIndex (history d) = 0
    ∧ length (derived w) ≤ 1.
Proof.
  intros Hempty Hfuel. unfold start.
  destruct (updateBlockInfo _ _) as [d1|e] eqn:Hinfo.
  - apply ChainDiscovery_updateBlockInfo_frame in Hinfo as (Hc & Hg & Hn).
    cbn in Hn.
    destruct fuel as [|fuel]; [lia|]. cbn [next].
    destruct bound.
    + eexists _, _. split; [reflexivity|]. repeat split; [done | cbn; lia].
    + destruct (Chain.nextChunk_range (chain d1)) as [first last].
      destruct (source first last) as [addrs|e].
      * rewrite Hempty, ChainDiscovery_update_nil.
        eexists _, _. split; [reflexivity|]. repeat split; [done | cbn; lia].
      * eexists _, _. split; [reflexivity|]. repeat split; [done | cbn; lia].
  - eexists _, _. split; [reflexivity|]. repeat split. cbn; lia.
Qed.

Lemma ChainDiscovery_cold_scan_no_history_witness :
  (∀ addrs until since,
     lookupTxs empty_blockchain addrs until since = Fulfilled [])
  ∧ 0 < 5
  ∧ ∃ d w,
      start 5 this_next empty_blockchain sample_source
        (new (Chain.new 20) (ChainHistory.new TxDatabase.new) 20)
      = Some (d, w)
      ∧ history_count w = 0
      ∧ ChainHistory.nextIndex (history d) = 0
      ∧ length (derived w) ≤ 1.
Proof.
  split; [reflexivity|]. split; [lia|].
  apply (ChainDiscovery_cold_scan_no_history 5 this_next empty_blockchain
           sample_source 20 20); [reflexivity | lia].
Defined.

(** The cold scan of an empty chain, run.  As the class stands,
    [this.next] is not a function: no chunk is derived and the run emits
    one ['error'].  With [next] read as [nextChunk], one chunk is derived
    and nothing is emitted.  ['history'] fires in neither, so it does not
    fire exactly once. *)
Lemma ChainDiscovery_cold_scan_history_not_once :
  declared "next" = false
  ∧ (∃ d w,
       start 5 this_next empty_blockchain sample_source cold_discovery
       = Some (d, w)
       ∧ derived w = []
       ∧ emitted w = [Error (TypeError "this.next is not a function")]
       ∧ ¬ (length (derived w) = 1 ∧ history_count w = 1))
  ∧ (∃ d w,
       start 5 BoundToNextChunk empty_blockchain sample_source cold_discovery
       = Some (d, w)
       ∧ derived w = [(0, 19)%Z]
       ∧ emitted w = []
       ∧ ChainHistory.nextIndex (history d) = 0
       ∧ ¬ (length (derived w) = 1 ∧ history_count w = 1)).
Proof.
  split; [reflexivity|]. split.
  - eexists _, _. split; [vm_compute; reflexivity|].
    cbn. repeat split. intros [? ?]. discriminate.
  - eexists _, _. split; [vm_compute; reflexivity|].
    cbn. repeat split. intros [? ?]. discriminate.
Qed.

End ChainDiscovery_facts.

(** ** WorkerChannel *)

Section WorkerChannel_facts.
Import WorkerChannel.
Context {Msg Data Err : Type}.
Implicit Types (ch : WorkerChannel.t Msg Data Err).
Implicit Types (msgs : list Msg) (replies : list Data).

Lemma WorkerChannel_post_all_acc ch msgs (ps : list nat) :
  foldl (λ acc msg,
           let '(ch', p) := postMessage acc.1 msg in (ch', acc.2 ++ [p]))
        (ch, ps) msgs
  = (mk (pending ch ++ seq (length (promises ch)) (length msgs))
        (posted ch ++ msgs)
        (promises ch ++ replicate (length msgs) Pending)
        (listening ch),
     ps ++ seq (length (promises ch)) (length msgs)).
Proof.
  revert ch ps. induction msgs as [|msg msgs IH]; intros ch ps; cbn.
  - rewrite !app_nil_r. by destruct ch.
  - rewrite IH. cbn. rewrite length_app. cbn.
    rewrite Nat.add_1_r, <- !(assoc_L (++)). done.
Qed.

Lemma WorkerChannel_post_all_eq ch msgs :
  post_all ch msgs
  = (mk (pending ch ++ seq (length (promises ch)) (length msgs))
        (posted ch ++ msgs)
        (promises ch ++ replicate (length msgs) Pending)
        (listening ch),
     seq (length (promises ch)) (length msgs)).
Proof. unfold post_all. by rewrite WorkerChannel_post_all_acc. Qed.

Lemma WorkerChannel_receive_all_eq replies :
  ∀ (settled : list (promise_state Data Err)) (posted0 : list Msg) listening0,
    receive_all
      (mk (seq (length settled) (length replies)) posted0
          (settled ++ replicate (length replies) Pending) listening0)
      replies
    = mk [] posted0 (settled ++ (Resolved <$> replies)) listening0.
Proof.
  unfold receive_all.
  induction replies as [|r replies IH]; intros settled posted0 listening0.
  - done.
  - cbn [length seq foldl replicate]. unfold receiveMessage at 2.
    cbn [pending promises posted listening]. unfold settle.
    rewrite lookup_app_r by lia. rewrite Nat.sub_diag.
    cbn [lookup list_lookup].
    replace (<[length settled := Resolved r]>
               (settled ++ Pending :: replicate (length replies) Pending))
      with ((settled ++ [Resolved r])
              ++ replicate (length replies) Pending).
    + specialize (IH (settled ++ [Resolved r]) posted0 listening0).
      rewrite length_app, Nat.add_1_r in IH. cbn in IH. rewrite IH.
      by rewrite <- (assoc_L (++)).
    + rewrite <- (assoc_L (++)). cbn.
      rewrite insert_app_r_alt by lia. by rewrite Nat.sub_diag.
Qed.

(** C3: on a channel with nothing pending, after [N] calls of
    [postMessage] and then [N] replies delivered in order, the promise
    the [k]-th call returned is resolved with the data of the [k]-th
    reply; the [N] promises are distinct, and nothing is left pending. *)
Theorem WorkerChannel_fifo ch msgs replies :
  pending ch = [] →
  length replies = length msgs →
  NoDup (post_all ch msgs).2
  ∧ length (post_all ch msgs).2 = length msgs
  ∧ pending (receive_all (post_all ch msgs).1 replies) = []
  ∧ ∀ k p r,
      (post_all ch msgs).2 !! k = Some p →
      replies !! k = Some r →
      promises (receive_all (post_all ch msgs).1 replies) !! p
      = Some (Resolved r).
Proof.
  intros Hpending Hlen. rewrite WorkerChannel_post_all_eq. cbn.
  rewrite Hpending, <- Hlen. cbn.
  rewrite WorkerChannel_receive_all_eq. cbn.
  split; [apply NoDup_seq|]. split; [apply length_seq|]. split; [done|].
  intros k p r Hp Hr. apply lookup_seq in Hp as [-> Hk].
  rewrite lookup_app_r by lia.
  replace (length (promises ch) + k - length (promises ch)) with k by lia.
  by rewrite list_lookup_fmap, Hr.
Qed.

(** C8, as the code has it: a reply that arrives while nothing is
    pending is dropped; [receiveMessage] changes nothing, so no promise
    is rejected and the listeners stay as they were. *)
Theorem WorkerChannel_reply_without_request_dropped ch (event : Data) :
  pending ch = [] →
  receiveMessage ch event = ch
  ∧ listening (receiveMessage ch event) = listening ch
  ∧ promises (receiveMessage ch event) = promises ch.
Proof. intros Hpending. unfold receiveMessage. by rewrite Hpending. Qed.

End WorkerChannel_facts.

Lemma WorkerChannel_fifo_witness :
  WorkerChannel.pending (WorkerChannel.new (Msg:=string) (Data:=nat) (Err:=string))
    = []
  ∧ length [10; 20; 30] = length ["a"; "b"; "c"]
  ∧ ∀ k p r,
      (WorkerChannel.post_all (Data:=nat) (Err:=string)
         WorkerChannel.new ["a"; "b"; "c"]).2 !! k = Some p →
      [10; 20; 30] !! k = Some r →
      WorkerChannel.promises
        (WorkerChannel.receive_all
           (WorkerChannel.post_all (Err:=string) WorkerChannel.new
              ["a"; "b"; "c"]).1 [10; 20; 30]) !! p
      = Some (WorkerChannel.Resolved r).
Proof.
  split; [reflexivity|]. split; [reflexivity|].
  apply (WorkerChannel_fifo (Err:=string) WorkerChannel.new
           ["a"; "b"; "c"] [10; 20; 30]); reflexivity.
Defined.

Lemma WorkerChannel_reply_without_request_dropped_witness :
  WorkerChannel.pending (WorkerChannel.new (Msg:=string) (Data:=nat) (Err:=string))
    = []
  ∧ WorkerChannel.receiveMessage
      (WorkerChannel.new (Msg:=string) (Data:=nat) (Err:=string)) 7
    = WorkerChannel.new.
Proof.
  split; [reflexivity|].
  apply (WorkerChannel_reply_without_request_dropped
           (WorkerChannel.new (Msg:=string) (Data:=nat) (Err:=string)) 7).
  reflexivity.
Defined.

(** A reply on a fresh channel, which has nothing pending and is open:
    the channel is not closed by it and no promise exists to be rejected. *)
Lemma WorkerChannel_reply_without_request_not_fatal :
  WorkerChannel.pending (WorkerChannel.new (Msg:=string) (Data:=nat) (Err:=string))
    = []
  ∧ ¬ (WorkerChannel.listening
         (WorkerChannel.receiveMessage
            (WorkerChannel.new (Msg:=string) (Data:=nat) (Err:=string)) 7)
       = false)
  ∧ WorkerChannel.promises
      (WorkerChannel.receiveMessage
         (WorkerChannel.new (Msg:=string) (Data:=nat) (Err:=string)) 7)
    = [].
Proof. split; [reflexivity|]. split; [discriminate | reflexivity]. Qed.

(** ** PrefatchingSource *)

Section PrefatchingSource_facts.
Import PrefatchingSource.

Lemma PrefatchingSource_matches_spec p first last :
  matches p first last = true ↔ firstIndex p = first ∧ lastIndex p = last.
Proof.
  unfold matches. rewrite andb_true_iff, !bool_decide_eq_true. done.
Qed.

(** The promise [derive] takes is one the wrapped source gave for exactly
    the range asked, whether adopted from the slot or fresh. *)
Lemma PrefatchingSource_slot_ok_new : slot_ok new.
Proof. intros p. discriminate. Qed.

Lemma PrefatchingSource_derive_slot_ok s first last :
  slot_ok s →
  slot_ok (derive s first last).1
  ∧ source_calls (derive s first last).1 !! (derive s first last).2
    = Some (first, last).
Proof.
  intros Hok. split; [intros p; unfold derive;
    destruct (prefatched s) as [q|]; [destruct (matches q first last)|];
    discriminate|].
  unfold derive. destruct (prefatched s) as [q|] eqn:Hq.
  - destruct (matches q first last) eqn:Hm; cbn.
    + apply PrefatchingSource_matches_spec in Hm as [<- <-]. by apply Hok.
    + by apply list_lookup_middle.
  - cbn. by apply list_lookup_middle.
Qed.

Lemma PrefatchingSource_callback_slot_ok s first last result :
  slot_ok (derive_callback first last s result).1.
Proof.
  intros p. cbn. intros [= <-]. cbn. by apply list_lookup_middle.
Qed.

(** C4: [derive(f, l)] takes the promise of the slot when the slot is
    for [(f, l)], and then calls the wrapped source for nothing;
    otherwise it calls the wrapped source for [(f, l)] and takes that
    promise; either way the slot is empty afterwards.  When the promise
    taken is fulfilled, the callback calls the wrapped source once, for
    [(l + 1, l + 1 + (l - f))], and the state in which it returns the
    result has that call's promise as the slot, whatever the slot held:
    the source keeps one prefetch at most.  When the promise is rejected
    the callback does not run. *)
Theorem PrefatchingSource_derive_spec (s : t) (first last : Z) :
  (∀ p, prefatched s = Some p → firstIndex p = first → lastIndex p = last →
     derive s first last = (mk (source_calls s) None, promise p))
  ∧ ((∀ p, prefatched s = Some p →
           ¬ (firstIndex p = first ∧ lastIndex p = last)) →
     derive s first last
     = (mk (source_calls s ++ [(first, last)]) None,
        length (source_calls s)))
  ∧ prefatched (derive s first last).1 = None
  ∧ (∀ (s' : t) (result : list Address),
       derive_settled (E:=JsError) first last s' (Fulfilled result)
       = (mk (source_calls s'
                ++ [((last + 1)%Z, (last + 1 + (last - first))%Z)])
             (Some (mk_slot (last + 1) (last + 1 + (last - first))
                      (length (source_calls s')))),
          Fulfilled result))
  ∧ (∀ (s' : t) (e : JsError),
       derive_settled first last s' (Rejected e) = (s', Rejected e)).
Proof.
  split; [|split; [|split; [|split]]].
  - intros p Hp Hf Hl. unfold derive. rewrite Hp.
    by rewrite (proj2 (PrefatchingSource_matches_spec p first last)).
  - intros Hmiss. unfold derive.
    destruct (prefatched s) as [p|] eqn:Hp; [|done].
    destruct (matches p first last) eqn:Hm; [|done].
    apply PrefatchingSource_matches_spec in Hm. by destruct (Hmiss p).
  - unfold derive. destruct (prefatched s) as [p|]; [|done].
    by destruct (matches p first last).
  - done.
  - done.
Qed.

(** Two chunks asked for one after the other: the second one is served
    by the prefetch of the first, and the wrapped source sees each range
    once. *)
Example PrefatchingSource_contiguous :
  let '(s1, p1) := derive new 0 19 in
  let '(s2, _) := derive_settled (E:=JsError) 0 19 s1 (Fulfilled []) in
  let '(s3, p2) := derive s2 20 39 in
  p1 = 0 ∧ p2 = 1
  ∧ source_calls s3 = [(0, 19)%Z; (20, 39)%Z]
  ∧ prefatched s3 = None.
Proof. done. Qed.

End PrefatchingSource_facts.

(** ** CachingSource *)

Section CachingSource_facts.
Import CachingSource.

Example CachingSource_key_0_19 : key 0 19 = "0-19".
Proof. reflexivity. Qed.

Lemma CachingSource_digit_char x : is_digit (pretty_N_char x) = true.
Proof. unfold pretty_N_char. by repeat case_match. Qed.

Lemma CachingSource_digits_go x s :
  digits s = true → digits (pretty_N_go x s) = true.
Proof.
  revert s. induction (N.lt_wf_0 x) as [x _ IH]; intros s Hs.
  assert (x = 0 ∨ 0 < x)%N as [->|Hx] by lia.
  - by rewrite pretty_N_go_0.
  - rewrite pretty_N_go_step by done. apply IH; [by apply N.div_lt|].
    cbn. by rewrite CachingSource_digit_char.
Qed.

Lemma CachingSource_go_nonempty x s : s ≠ "" → pretty_N_go x s ≠ "".
Proof.
  revert s. induction (N.lt_wf_0 x) as [x _ IH]; intros s Hs.
  assert (x = 0 ∨ 0 < x)%N as [->|Hx] by lia.
  - by rewrite pretty_N_go_0.
  - rewrite pretty_N_go_step by done. by apply IH; [apply N.div_lt|].
Qed.

(** The decimal form of an integer: an optional minus sign, then at least
    one digit. *)
Lemma CachingSource_pretty_Z_shape (z : Z) :
  ∃ d, d ≠ "" ∧ digits d = true
       ∧ (pretty z = d ∨ pretty z = String "-" d).
Proof.
  destruct z as [|p|p].
  - exists "0". by repeat split; [|left].
  - exists (pretty (N.pos p)). split; [|split; [|by left]].
    + unfold pretty, pretty_N. rewrite decide_False by done.
      rewrite pretty_N_go_step by lia. by apply CachingSource_go_nonempty.
    + unfold pretty, pretty_N. rewrite decide_False by done.
      by apply CachingSource_digits_go.
  - exists (pretty (N.pos p)). split; [|split; [|by right]].
    + unfold pretty, pretty_N. rewrite decide_False by done.
      rewrite pretty_N_go_step by lia. by apply CachingSource_go_nonempty.
    + unfold pretty, pretty_N. rewrite decide_False by done.
      by apply CachingSource_digits_go.
Qed.

Lemma CachingSource_split_at_dash (d d' r r' : string) :
  digits d = true → digits d' = true →
  d +:+ String "-" r = d' +:+ String "-" r' → d = d' ∧ r = r'.
Proof.
  revert d'. induction d as [|c d IH]; intros [|c' d'] Hd Hd'; cbn.
  - by intros [= ->].
  - intros [= <- _]. cbn in Hd'. done.
  - intros [= -> _]. cbn in Hd. done.
  - intros [= -> Hrest]. cbn in Hd, Hd'.
    apply andb_true_iff in Hd as [_ Hd]. apply andb_true_iff in Hd' as [_ Hd'].
    destruct (IH d' Hd Hd' Hrest) as [-> ->]. done.
Qed.

(** The key of a range is the key of no other range. *)
Lemma CachingSource_key_eq (first last first' last' : Z) :
  key first last = key first' last' ↔ (first, last) = (first', last').
Proof.
  split; [|by intros [= -> ->]].
  unfold key.
  destruct (CachingSource_pretty_Z_shape first) as (d & Hne & Hd & Hshape).
  destruct (CachingSource_pretty_Z_shape first') as (d' & Hne' & Hd' & Hshape').
  intros Hkey.
  assert (Hparts : pretty first = pretty first' ∧ pretty last = pretty last').
  { destruct Hshape as [Hs|Hs], Hshape' as [Hs'|Hs'];
      rewrite Hs, Hs' in Hkey |- *; cbn in Hkey.
    - by destruct (CachingSource_split_at_dash _ _ _ _ Hd Hd' Hkey) as [-> ->].
    - destruct d as [|c d]; [done|]. cbn in Hkey, Hd.
      injection Hkey as -> _. done.
    - destruct d' as [|c d']; [done|]. cbn in Hkey, Hd'.
      injection Hkey as <- _. done.
    - injection Hkey as Hkey.
      by destruct (CachingSource_split_at_dash _ _ _ _ Hd Hd' Hkey) as [-> ->]. }
  destruct Hparts as [Hf Hl]. f_equal; by apply (inj pretty).
Qed.

(** C6: [derive(f, l)] with the key ["f-l"] present returns the cached
    list, and neither calls the wrapped source nor changes the cache;
    with the key absent it calls the wrapped source for [(f, l)], and the
    cache is as it was until that promise settles: fulfilled, the
    callback stores the result under the key and passes it on; rejected,
    the callback does not run, the source is as it was and the failure
    is passed on.  The entry is that of the range asked and of no other:
    the key is the two indices in decimal around a dash, no other range
    has it, and once the result is stored [derive(f, l)] is answered
    with it from the cache while [derive] of any other range finds what
    it found before. *)
Theorem CachingSource_derive_spec (s : t) (first last : Z) :
  (∀ addresses, cache s !! key first last = Some addresses →
     derive s first last = (s, Cached addresses))
  ∧ (cache s !! key first last = None →
     derive s first last
     = (mk (source_calls s ++ [(first, last)]) (cache s),
        Awaiting (length (source_calls s))))
  ∧ (∀ (s' : t) (result : list Address),
       derive_settled (E:=JsError) first last s' (Fulfilled result)
       = (mk (source_calls s') (<[key first last := result]> (cache s')),
          Fulfilled result))
  ∧ (∀ (s' : t) (e : JsError),
       derive_settled first last s' (Rejected e) = (s', Rejected e))
  ∧ key first last = pretty first +:+ "-" +:+ pretty last
  ∧ (∀ first' last' : Z,
       key first' last' = key first last ↔ (first', last') = (first, last))
  ∧ (∀ (s' : t) (result : list Address),
       derive
         (derive_settled (E:=JsError) first last s' (Fulfilled result)).1
         first last
       = ((derive_settled (E:=JsError) first last s' (Fulfilled result)).1,
          Cached result))
  ∧ (∀ (s' : t) (result : list Address) (first' last' : Z),
       (first', last') ≠ (first, last) →
       cache (derive_settled (E:=JsError) first last s' (Fulfilled result)).1
         !! key first' last'
       = cache s' !! key first' last'
       ∧ (derive
            (derive_settled (E:=JsError) first last s' (Fulfilled result)).1
            first' last').2
         = (derive s' first' last').2).
Proof.
  split; [|split; [|split; [|split; [|split; [|split; [|split]]]]]].
  - unfold derive. by intros addresses ->.
  - unfold derive. by intros ->.
  - done.
  - done.
  - done.
  - intros first' last'. apply CachingSource_key_eq.
  - intros s' result. unfold derive. cbn. by rewrite lookup_insert_eq.
  - intros s' result first' last' Hne.
    assert (Hkey : key first last ≠ key first' last').
    { intros Hkey. apply CachingSource_key_eq in Hkey. congruence. }
    unfold derive. cbn. rewrite lookup_insert_ne by done.
    split; [done|]. by destruct (cache s' !! key first' last').
Qed.

Lemma CachingSource_derive_spec_witness :
  derive (derive_settled (E:=JsError) 0 19 new (Fulfilled ["addr-0"])).1 0 19
  = ((derive_settled (E:=JsError) 0 19 new (Fulfilled ["addr-0"])).1,
     Cached ["addr-0"])
  ∧ (derive (derive_settled (E:=JsError) 0 19 new (Fulfilled ["addr-0"])).1
       20 39).2
    = Awaiting 0.
Proof.
  destruct (CachingSource_derive_spec new 0 19)
    as (_ & _ & _ & _ & _ & _ & Hhit & Hother).
  split; [apply Hhit|].
  destruct (Hother new ["addr-0"] 20%Z 39%Z) as [_ Hmiss]; [done|].
  exact Hmiss.
Defined.

(** A miss that succeeds is a hit for the next call. *)
Lemma CachingSource_hit_after_miss (s : t) first last result :
  derive (derive_callback first last s result).1 first last
  = ((derive_callback first last s result).1, Cached result).
Proof. unfold derive. cbn. by rewrite lookup_insert_eq. Qed.

(** Over any sequence of calls and settlements, an entry of the cache was
    there at the start or is the result some promise of the wrapped
    source was fulfilled with, under the key of the call that waited on
    it. *)
Lemma CachingSource_cache_from_success (actions : list action) st k v :
  cache (foldl act st actions).1 !! k = Some v →
  cache st.1 !! k = Some v
  ∨ ∃ p, Settle p (Fulfilled v) ∈ actions.
Proof.
  revert st. induction actions as [|a actions IH]; intros st; cbn [foldl].
  - by left.
  - intros Hk. destruct (IH _ Hk) as [Hhere|[p Hp]].
    + destruct a as [first last|p settled]; cbn in Hhere.
      * left. unfold derive in Hhere.
        by destruct (cache st.1 !! key first last).
      * destruct (st.2 !! p) as [[first last]|]; [|by left].
        destruct settled as [result|e]; cbn in Hhere; [|by left].
        destruct (decide (key first last = k)) as [<-|Hne].
        -- rewrite lookup_insert_eq in Hhere. injection Hhere as ->.
           right. exists p. apply list_elem_of_here.
        -- rewrite lookup_insert_ne in Hhere by done. by left.
    + right. exists p. by apply list_elem_of_further.
Qed.

End CachingSource_facts.

(** ** Chain *)

Section Chain_facts.
Import Chain.



Lemma Chain_install_chunkSize firstIndex c i l :
  chunkSize (install_from firstIndex c i l) = chunkSize c.
Proof.
  revert c i. induction l as [|a l IH]; intros c i; cbn; [done|].
  by rewrite IH.
Qed.




(** The range asked of the source is [chunkSize] long. *)
Lemma Chain_nextChunk_range_length c :
  ((nextChunk_range c).2 - (nextChunk_range c).1 + 1)%Z
  = Z.of_nat (chunkSize c).
Proof. unfold nextChunk_range. cbn. lia. Qed.




End Chain_facts.

(** ** ChainHistory *)

Section ChainHistory_facts.
Import ChainHistory.

Lemma ChainHistory_restore_from_frame h k l :
  database (restore_from h k l) = database h
  ∧ untilBlock (restore_from h k l) = untilBlock h.
Proof.
  revert h k. induction l as [|entry l IH]; intros h k; cbn; [done|].
  destruct (IH (restore_at h k entry) (S k)) as [-> ->].
  by destruct entry.
Qed.

Lemma ChainHistory_restore_from_histories h k l i :
  histories (restore_from h k l) !! i
  = if decide (k ≤ i < k + length l)
    then match l !! (i - k) with
         | Some (Some indexes) =>
             Some (TxDatabase.infoOf (database h) <$> indexes)
         | _ => histories h !! i
         end
    else histories h !! i.
Proof.
  revert h k. induction l as [|entry l IH]; intros h k; cbn [restore_from].
  - cbn. case_decide; [lia|done].
  - rewrite IH. cbn [length].
    assert (Hdb : database (restore_at h k entry) = database h)
      by by destruct entry.
    rewrite Hdb.
    destruct (decide (i = k)) as [->|Hne].
    + rewrite decide_False by lia. rewrite decide_True by lia.
      rewrite Nat.sub_diag. cbn.
      destruct entry as [indexes|]; cbn; [|done]. apply lookup_insert_eq.
    + assert (Hother : histories (restore_at h k entry) !! i
                       = histories h !! i).
      { destruct entry; cbn; [|done]. by rewrite lookup_insert_ne. }
      destruct (decide (k ≤ i < k + S (length l))) as [Hin|Hout].
      * rewrite decide_True by lia.
        replace (i - k) with (S (i - S k)) by lia. cbn.
        by rewrite Hother.
      * by rewrite decide_False by lia.
Qed.

Lemma ChainHistory_restore_from_nextIndex h k l :
  nextIndex h ≤ k →
  nextIndex h ≤ nextIndex (restore_from h k l) ≤ k + length l
  ∧ (∀ j indexes, l !! j = Some (Some indexes) →
       k + j < nextIndex (restore_from h k l))
  ∧ (nextIndex (restore_from h k l) = nextIndex h
     ∨ ∃ j indexes, l !! j = Some (Some indexes)
                    ∧ nextIndex (restore_from h k l) = k + j + 1).
Proof.
  revert h k. induction l as [|entry l IH]; intros h k Hk; cbn [restore_from].
  - cbn. split; [lia|]. split; [done|by left].
  - assert (Hstep : nextIndex (restore_at h k entry)
                    = match entry with Some _ => k + 1 | None => nextIndex h end).
    { destruct entry; cbn; [|done]. unfold bump. by rewrite decide_True. }
    destruct (IH (restore_at h k entry) (S k)) as ((Hlo & Hhi) & Hall & Hlast).
    { rewrite Hstep. destruct entry; lia. }
    cbn [length]. split; [|split].
    + rewrite Hstep in Hlo. destruct entry; lia.
    + intros [|j] indexes Hj; cbn in Hj.
      * injection Hj as ->. rewrite Hstep in Hlo. lia.
      * apply Hall in Hj. lia.
    + destruct Hlast as [Hsame|(j & indexes & Hj & Hn)].
      * rewrite Hsame, Hstep. destruct entry as [indexes|]; [|by left].
        right. exists 0, indexes. split; [done|lia].
      * right. exists (S j), indexes. split; [done|lia].
Qed.

(** C9: [restore(data)] on a history just built over [database] gives
    the address index [i] an entry exactly when position [i] of
    [data.list] holds a list, the entry being that list mapped through
    [database.infoOf]; [untilBlock] is [data.untilBlock]; [nextIndex] is
    above every position that holds a list, and is 0 or one more than a
    position that holds a list. *)
Theorem ChainHistory_restore_spec (db : TxDatabase.t) (data : HistoryData) :
  (∀ i, histories (restore (new db) data) !! i
        = restored_entry db (data_list data !! i))
  ∧ untilBlock (restore (new db) data) = data_untilBlock data
  ∧ database (restore (new db) data) = db
  ∧ (∀ i indexes, data_list data !! i = Some (Some indexes) →
       i < nextIndex (restore (new db) data))
  ∧ (nextIndex (restore (new db) data) = 0
     ∨ ∃ indexes,
         data_list data !! (nextIndex (restore (new db) data) - 1)
         = Some (Some indexes)).
Proof.
  unfold restore. cbn [histories untilBlock database nextIndex].
  destruct (ChainHistory_restore_from_frame (new db) 0 (data_list data))
    as [Hdb _].
  destruct (ChainHistory_restore_from_nextIndex (new db) 0 (data_list data))
    as (_ & Hall & Hlast); [cbn; lia|].
  split; [|split; [|split; [|split]]].
  - intros i. rewrite ChainHistory_restore_from_histories.
    rewrite Nat.sub_0_r. cbn [database new histories].
    rewrite lookup_empty. unfold restored_entry.
    case_decide as Hi.
    + by destruct (data_list data !! i) as [[?|]|].
    + rewrite lookup_ge_None_2 by lia. done.
  - done.
  - done.
  - intros i indexes Hi. apply Hall in Hi. lia.
  - destruct Hlast as [Hsame|(j & indexes & Hj & Hn)]; [by left|].
    right. exists indexes. rewrite Hn.
    by replace (0 + j + 1 - 1) with j by lia.
Qed.

End ChainHistory_facts.

(** ** NativeAddressSource *)

Section NativeAddressSource_facts.
Import NativeAddressSource.
Context (node : Z → Address).

Lemma NativeAddressSource_loop_eq i rounds (as_ : list Address) :
  derive_loop node i rounds as_
  = as_ ++ ((λ k : nat, node (i + Z.of_nat k)%Z) <$> seq 0 rounds).
Proof.
  revert i as_. induction rounds as [|rounds IH]; intros i as_.
  - cbn. by rewrite app_nil_r.
  - cbn [derive_loop]. rewrite IH. cbn [seq fmap list_fmap].
    rewrite <- (assoc_L (++)). cbn [app]. rewrite Z.add_0_r. do 2 f_equal.
    rewrite <- fmap_S_seq, <- list_fmap_compose.
    apply list_fmap_ext. intros _ k _. cbn. f_equal. lia.
Qed.

Lemma NativeAddressSource_derive_eq first last :
  derive node first last
  = (λ k : nat, node (first + Z.of_nat k)%Z)
      <$> seq 0 (Z.to_nat (last + 1 - first)).
Proof. unfold derive. by rewrite NativeAddressSource_loop_eq. Qed.

(** [derive(first, last)] gives [last - first + 1] addresses, the [k]-th
    one being the address of the index [first + k]; when [last < first] it
    gives none. *)
Theorem NativeAddressSource_derive_range first last :
  length (derive node first last) = Z.to_nat (last - first + 1)
  ∧ (∀ k : nat, (first + Z.of_nat k ≤ last)%Z →
       derive node first last !! k = Some (node (first + Z.of_nat k)%Z))
  ∧ ((last < first)%Z → derive node first last = []).
Proof.
  rewrite NativeAddressSource_derive_eq. split; [|split].
  - rewrite length_fmap, length_seq. f_equal. lia.
  - intros k Hk. rewrite list_lookup_fmap, lookup_seq_lt by lia. done.
  - intros Hlt. by replace (Z.to_nat (last + 1 - first)) with 0 by lia.
Qed.

(** Two ranges that follow one another derive what the range that spans
    both derives. *)
Theorem NativeAddressSource_derive_app first mid last :
  (first ≤ mid + 1)%Z → (mid ≤ last)%Z →
  derive node first mid ++ derive node (mid + 1) last
  = derive node first last.
Proof.
  intros Hlo Hhi. rewrite !NativeAddressSource_derive_eq.
  replace (Z.to_nat (last + 1 - first))
    with (Z.to_nat (mid + 1 - first) + Z.to_nat (last + 1 - (mid + 1)))
    by lia.
  rewrite seq_app, fmap_app. f_equal. cbn [Nat.add].
  replace (seq (Z.to_nat (mid + 1 - first)) (Z.to_nat (last + 1 - (mid + 1))))
    with (Nat.add (Z.to_nat (mid + 1 - first))
            <$> seq 0 (Z.to_nat (last + 1 - (mid + 1))))
    by (rewrite fmap_add_seq; f_equal; lia).
  rewrite <- list_fmap_compose. apply list_fmap_ext. intros _ k _. cbn.
  f_equal. lia.
Qed.

End NativeAddressSource_facts.

Lemma NativeAddressSource_derive_app_witness :
  (0 ≤ 1 + 1)%Z ∧ (1 ≤ 3)%Z
  ∧ NativeAddressSource.derive pretty 0 1
      ++ NativeAddressSource.derive pretty (1 + 1) 3
    = NativeAddressSource.derive pretty 0 3.
Proof.
  split; [lia|]. split; [lia|].
  apply (NativeAddressSource_derive_app pretty 0 1 3); lia.
Defined.

(** ** Chain, whatever the source derives *)

Section Chain_more_facts.
Import Chain.

Lemma Chain_tracks_new n : tracks (new n) [].
Proof.
  split; cbn; [done..|]. intros a i. rewrite lookup_empty.
  split; [done|]. by intros [? _].
Qed.

Lemma Chain_install_tracks c all firstIndex i a :
  tracks c all → firstIndex + i = nextIndex c →
  tracks (install firstIndex c i a) (all ++ [a]).
Proof.
  intros [Hn Ha Hi] Hpos. unfold install.
  replace (i + firstIndex) with (length all) by lia.
  split; cbn.
  - rewrite length_app. cbn. lia.
  - intros j. destruct (decide (length all = j)) as [<-|Hne].
    + rewrite lookup_insert_eq. symmetry. by apply list_lookup_middle.
    + rewrite lookup_insert_ne by done. rewrite Ha.
      destruct (decide (j < length all)).
      * by rewrite lookup_app_l.
      * rewrite !lookup_ge_None_2; [done| |lia].
        rewrite length_app. cbn. lia.
  - intros a' j. destruct (decide (a = a')) as [<-|Hne].
    + rewrite lookup_insert_eq. split.
      * intros [= <-]. split; [by apply list_lookup_middle|].
        intros k Hk Hlk. apply lookup_lt_Some in Hlk.
        rewrite length_app in Hlk. cbn in Hlk. lia.
      * intros [Hj Hlast]. f_equal.
        destruct (decide (j = length all)) as [->|Hjn]; [done|].
        assert (j < length all).
        { apply lookup_lt_Some in Hj. rewrite length_app in Hj. cbn in Hj.
          lia. }
        destruct (Hlast (length all)); [lia|]. by apply list_lookup_middle.
    + rewrite lookup_insert_ne by done. rewrite Hi. split.
      * intros [Hj Hlast].
        assert (j < length all) by by eapply lookup_lt_Some.
        split; [by rewrite lookup_app_l|].
        intros k Hk. destruct (decide (k < length all)).
        -- rewrite lookup_app_l by done. by apply Hlast.
        -- destruct (decide (k = length all)) as [->|].
           ++ rewrite list_lookup_middle by done. congruence.
           ++ rewrite lookup_ge_None_2; [done|].
              rewrite length_app. cbn. lia.
      * intros [Hj Hlast].
        assert (j < length all).
        { destruct (decide (j = length all)) as [->|].
          - rewrite list_lookup_middle in Hj by done. congruence.
          - apply lookup_lt_Some in Hj. rewrite length_app in Hj.
            cbn in Hj. lia. }
        rewrite lookup_app_l in Hj by done. split; [done|].
        intros k Hk Hlk. apply (Hlast k Hk).
        rewrite lookup_app_l; [done|]. by eapply lookup_lt_Some.
Qed.

Lemma Chain_install_from_tracks c all firstIndex i l :
  tracks c all → firstIndex + i = nextIndex c →
  tracks (install_from firstIndex c i l) (all ++ l).
Proof.
  revert c all i. induction l as [|a l IH]; intros c all i Hc Hpos; cbn.
  - by rewrite app_nil_r.
  - replace (all ++ a :: l) with ((all ++ [a]) ++ l)
      by by rewrite <- (assoc_L (++)).
    apply IH; [by apply Chain_install_tracks | cbn; lia].
Qed.

Lemma Chain_nextChunk_tracks c all derived :
  tracks c all → tracks (nextChunk c derived) (all ++ derived).
Proof.
  intros Hc. unfold nextChunk, nextChunk_callback. cbn.
  apply Chain_install_from_tracks; [done|lia].
Qed.

Lemma Chain_chunks_track c all (chunks : list (list Address)) :
  tracks c all → tracks (foldl nextChunk c chunks) (all ++ concat chunks).
Proof.
  revert c all. induction chunks as [|r chunks IH]; intros c all Hc; cbn.
  - by rewrite app_nil_r.
  - rewrite (assoc_L (++)). by apply IH, Chain_nextChunk_tracks.
Qed.

(** Whatever the source derives, also the same address twice: after any
    number of calls of [nextChunk], each settled before the next,
    [nextIndex] is the number of addresses derived, [addressOf(i)] is the
    [i]-th of them, [indexOf(a)] is the last index at which [a] was
    derived (nothing for an address never derived), and
    [addressOf(indexOf(a))] is [a] for every address derived. *)
Theorem Chain_after_any_chunks (n : nat) (chunks : list (list Address)) :
  nextIndex (foldl nextChunk (new n) chunks) = length (concat chunks)
  ∧ (∀ i, addressOf (foldl nextChunk (new n) chunks) i
          = concat chunks !! i)
  ∧ (∀ a i, indexOf (foldl nextChunk (new n) chunks) a = Some i
            ↔ concat chunks !! i = Some a
              ∧ ∀ j, i < j → concat chunks !! j ≠ Some a)
  ∧ (∀ a, a ∉ concat chunks →
          indexOf (foldl nextChunk (new n) chunks) a = None)
  ∧ (∀ a, a ∈ concat chunks →
          indexOf (foldl nextChunk (new n) chunks) a
            ≫= addressOf (foldl nextChunk (new n) chunks) = Some a).
Proof.
  destruct (Chain_chunks_track (new n) [] chunks (Chain_tracks_new n))
    as [Hn Ha Hi].
  cbn [app] in *. unfold indexOf, addressOf.
  split; [done|]. split; [done|]. split; [done|]. split.
  - intros a Hnot. apply eq_None_not_Some. intros [i Hai].
    apply Hi in Hai as [Hai _]. apply Hnot. by eapply list_elem_of_lookup_2.
  - intros a Hin.
    destruct (indexes (foldl nextChunk (new n) chunks) !! a) as [i|] eqn:Hai.
    + cbn. rewrite Ha. by apply Hi in Hai as [Hai _].
    + exfalso. apply list_elem_of_lookup_1 in Hin as [i Hi0].
      assert (Hex : ∃ m, concat chunks !! m = Some a
                         ∧ ∀ j, m < j → concat chunks !! j ≠ Some a).
      { clear Hn Ha Hi Hai. revert i Hi0.
        induction (concat chunks) as [|x l IH] using rev_ind; intros i Hi0.
        - done.
        - destruct (decide (x = a)) as [->|Hne].
          + exists (length l). split; [by apply list_lookup_middle|].
            intros j Hj Hlj. apply lookup_lt_Some in Hlj.
            rewrite length_app in Hlj. cbn in Hlj. lia.
          + assert (Hil : l !! i = Some a).
            { destruct (decide (i < length l)).
              - by rewrite lookup_app_l in Hi0.
              - apply lookup_lt_Some in Hi0 as Hlt.
                rewrite length_app in Hlt. cbn in Hlt.
                replace i with (length l) in Hi0 by lia.
                rewrite list_lookup_middle in Hi0 by done. congruence. }
            destruct (IH i Hil) as (m & Hm & Hlast).
            exists m. split.
            * rewrite lookup_app_l; [done|]. by eapply lookup_lt_Some.
            * intros j Hj. destruct (decide (j < length l)).
              -- rewrite lookup_app_l by done. by apply Hlast.
              -- destruct (decide (j = length l)) as [->|].
                 ++ rewrite list_lookup_middle by done. congruence.
                 ++ rewrite lookup_ge_None_2; [done|].
                    rewrite length_app. cbn. lia. }
      destruct Hex as (m & Hm). apply Hi in Hm. congruence.
Qed.

Lemma Chain_install_from_frame firstIndex c i l :
  nextIndex (install_from firstIndex c i l) = nextIndex c + length l
  ∧ ∀ j, addresses (install_from firstIndex c i l) !! j
         = if decide (firstIndex + i ≤ j < firstIndex + i + length l)
           then l !! (j - (firstIndex + i))
           else addresses c !! j.
Proof.
  revert c i. induction l as [|a l IH]; intros c i; cbn [install_from length].
  - split; [lia|]. intros j. case_decide; [lia|done].
  - destruct (IH (install firstIndex c i a) (S i)) as [Hn Ha].
    split; [rewrite Hn; cbn; lia|].
    intros j. rewrite Ha. cbn.
    destruct (decide (j = firstIndex + i)) as [->|Hne].
    + rewrite decide_False by lia. rewrite decide_True by lia.
      rewrite Nat.sub_diag. cbn.
      replace (i + firstIndex) with (firstIndex + i) by lia.
      apply lookup_insert_eq.
    + rewrite lookup_insert_ne by lia.
      destruct (decide (firstIndex + i ≤ j < firstIndex + i + S (length l))).
      * rewrite decide_True by lia.
        by replace (j - (firstIndex + i))
             with (S (j - (firstIndex + S i))) by lia.
      * by rewrite decide_False by lia.
Qed.

(** Two calls of [nextChunk] made before either settles write the same
    indices: [nextIndex] grows by both lengths, the indices from the old
    [nextIndex] on hold the second chunk, and the indices past the longer
    chunk hold what they held, so with two chunks of [n] addresses the [n]
    indices below the new [nextIndex] get no address. *)
Theorem Chain_nextChunk_overlap c (derived1 derived2 : list Address) :
  nextIndex (nextChunk_twice c derived1 derived2)
  = nextIndex c + length derived1 + length derived2
  ∧ (∀ i, i < length derived2 →
       addressOf (nextChunk_twice c derived1 derived2) (nextIndex c + i)
       = derived2 !! i)
  ∧ (∀ j, nextIndex c + (length derived1 `max` length derived2) ≤ j →
       addressOf (nextChunk_twice c derived1 derived2) j = addressOf c j).
Proof.
  unfold nextChunk_twice, nextChunk_callback, addressOf. cbn [fst].
  destruct (Chain_install_from_frame (nextIndex c) c 0 derived1) as [Hn1 Ha1].
  destruct (Chain_install_from_frame (nextIndex c)
              (install_from (nextIndex c) c 0 derived1) 0 derived2)
    as [Hn2 Ha2].
  split; [lia|]. split.
  - intros i Hi. rewrite Ha2, decide_True by lia. f_equal. lia.
  - intros j Hj. rewrite Ha2, decide_False by lia.
    rewrite Ha1, decide_False by lia. done.
Qed.

(** A chain fed by a native source whose node gives every index an
    address of its own: after [k] chunks of [n], [nextIndex] is [k * n],
    and the index [i] and the address of [i] name each other for every
    [i < k * n]. *)
Theorem Chain_over_native_source (node : Z → Address) (n k : nat) :
  Inj (=) (=) node →
  nextIndex (chunks_from (NativeAddressSource.derive node) (new n) k) = k * n
  ∧ ∀ i, i < k * n →
      addressOf (chunks_from (NativeAddressSource.derive node) (new n) k) i
      = Some (node (Z.of_nat i))
      ∧ indexOf (chunks_from (NativeAddressSource.derive node) (new n) k)
          (node (Z.of_nat i))
        = Some i.
Proof.
  intros Hinj.
  assert (Hgen : ∀ k c m,
            tracks c ((λ i : nat, node (Z.of_nat i)) <$> seq 0 m) →
            chunkSize c = n →
            tracks (chunks_from (NativeAddressSource.derive node) c k)
                   ((λ i : nat, node (Z.of_nat i)) <$> seq 0 (m + k * n))).
  { clear k. induction k as [|k IH]; intros c m Hc Hsize.
    - cbn. by rewrite Nat.add_0_r.
    - cbn [chunks_from].
      replace (m + S k * n) with ((m + n) + k * n) by lia.
      apply IH; [|unfold nextChunk; cbn; apply Chain_install_chunkSize
                   || (rewrite Chain_install_chunkSize; exact Hsize)].
      + rewrite seq_app, fmap_app.
        replace (NativeAddressSource.derive node (nextChunk_range c).1
                   (nextChunk_range c).2)
          with ((λ i : nat, node (Z.of_nat i)) <$> seq (0 + m) n).
        { by apply Chain_nextChunk_tracks. }
        rewrite NativeAddressSource_derive_eq. unfold nextChunk_range.
        cbn [fst snd]. rewrite (tracks_next _ _ Hc), length_fmap, length_seq.
        rewrite Hsize.
        replace (Z.to_nat (Z.of_nat m + Z.of_nat n - 1 + 1 - Z.of_nat m))
          with n by lia.
        cbn [Nat.add].
        replace (seq m n) with (Nat.add m <$> seq 0 n)
          by (rewrite fmap_add_seq; f_equal; lia).
        rewrite <- list_fmap_compose. apply list_fmap_ext. intros _ j _. cbn.
        f_equal. lia. }
  destruct (Hgen k (new n) 0 (Chain_tracks_new n) eq_refl) as [Hn Ha Hi].
  cbn [Nat.add] in *. rewrite length_fmap, length_seq in Hn.
  split; [done|]. intros i Hlt. unfold addressOf, indexOf.
  assert (Hat : ((λ i : nat, node (Z.of_nat i)) <$> seq 0 (k * n)) !! i
                = Some (node (Z.of_nat i))).
  { by rewrite list_lookup_fmap, lookup_seq_lt. }
  split; [by rewrite Ha|]. apply Hi. split; [done|].
  intros j Hj. rewrite list_lookup_fmap.
  destruct (seq 0 (k * n) !! j) as [j'|] eqn:Hsj; [|done].
  apply lookup_seq in Hsj as [-> _]. cbn. intros [= Heq].
  apply Hinj in Heq. lia.
Qed.

End Chain_more_facts.

Lemma Chain_over_native_source_witness :
  Inj (=) (=) (pretty : Z → Address)
  ∧ Chain.nextIndex
      (Chain.chunks_from (NativeAddressSource.derive pretty) (Chain.new 2) 3)
    = 3 * 2.
Proof.
  split; [apply _|].
  apply (Chain_over_native_source pretty 2 3). apply _.
Defined.

(** ** WorkerChannel, over any sequence of events *)

Section WorkerChannel_more_facts.
Import WorkerChannel.
Context {Msg Data Err : Type}.
Implicit Types (ch : WorkerChannel.t Msg Data Err).

Lemma WorkerChannel_queue_ok_new : queue_ok (new (Msg:=Msg) (Data:=Data) (Err:=Err)).
Proof. exists []. by repeat split. Qed.

Lemma WorkerChannel_queue_ok_settle ch (s : promise_state Data Err)
    (p : nat) (rest : list nat) :
  queue_ok ch → pending ch = p :: rest → s ≠ Pending →
  queue_ok (mk rest (posted ch) (settle p s (promises ch)) (listening ch))
  ∧ settle p s (promises ch) = <[p := s]> (promises ch)
  ∧ promises ch !! p = Some Pending.
Proof.
  intros (settled & Hps & Hq & Hall) Hpending Hs.
  rewrite Hpending in Hps, Hq. cbn in Hps, Hq. injection Hq as -> Hrest.
  assert (Hp : promises ch !! length settled = Some Pending).
  { rewrite Hps. by apply list_lookup_middle. }
  unfold settle. rewrite Hp. split; [|done].
  exists (settled ++ [s]). cbn. split; [|split].
  - rewrite Hps, <- (assoc_L (++)). cbn.
    rewrite insert_app_r_alt by lia. by rewrite Nat.sub_diag.
  - rewrite length_app. cbn. by rewrite Nat.add_1_r.
  - apply Forall_app. split; [done|]. by constructor.
Qed.

Lemma WorkerChannel_queue_ok_step ch (e : event (Msg:=Msg) (Data:=Data) (Err:=Err)) :
  queue_ok ch → queue_ok (step ch e).
Proof.
  intros Hok. destruct e as [msg|data|error| |]; cbn.
  - destruct Hok as (settled & Hps & Hq & Hall). exists settled. cbn.
    rewrite length_app. cbn. split; [|split; [|done]].
    + rewrite Hps, Nat.add_1_r, <- (assoc_L (++)). f_equal.
      change [Pending] with (replicate 1 (@Pending Data Err)).
      rewrite <- replicate_add. f_equal. lia.
    + rewrite Nat.add_1_r, seq_S, <- Hq. do 2 f_equal.
      rewrite Hps, length_app, length_replicate. done.
  - unfold receiveMessage. destruct (pending ch) as [|p rest] eqn:Hp; [done|].
    by apply (WorkerChannel_queue_ok_settle ch (Resolved data) p rest).
  - unfold receiveError. destruct (pending ch) as [|p rest] eqn:Hp; [done|].
    by apply (WorkerChannel_queue_ok_settle ch (Failed error) p rest).
  - done.
  - done.
Qed.

Lemma WorkerChannel_queue_ok_run (events : list event) :
  queue_ok (foldl step (new (Msg:=Msg) (Data:=Data) (Err:=Err)) events).
Proof.
  induction events as [|e events IH] using rev_ind.
  - apply WorkerChannel_queue_ok_new.
  - rewrite foldl_snoc. by apply WorkerChannel_queue_ok_step.
Qed.

(** Whatever is posted, received, opened and closed on a channel, in
    whatever order: the promises still pending are the last ones created,
    and [pending] lists exactly them, oldest first. *)
Theorem WorkerChannel_pending_in_order (events : list event) :
  ∃ first_pending,
    pending (foldl step (new (Msg:=Msg) (Data:=Data) (Err:=Err)) events)
    = seq first_pending
        (length (promises (foldl step new events)) - first_pending)
    ∧ first_pending ≤ length (promises (foldl step new events))
    ∧ ∀ p, promises (foldl step new events) !! p = Some Pending
           ↔ first_pending ≤ p < length (promises (foldl step new events)).
Proof.
  pose proof (WorkerChannel_queue_ok_run events) as Hok.
  remember (foldl step new events) as ch eqn:Hch. clear Hch.
  destruct Hok as (settled & Hps & Hq & Hall).
  exists (length settled).
  assert (Hlen : length (promises ch) = length settled + length (pending ch))
    by by rewrite Hps, length_app, length_replicate.
  rewrite Hlen. split; [|split; [lia|]].
  - rewrite Hq at 1. f_equal. lia.
  - intros p. rewrite Hps. split.
    + intros Hp. destruct (decide (p < length settled)) as [Hlt|Hge].
      * rewrite lookup_app_l in Hp by done.
        rewrite Forall_forall in Hall. destruct (Hall Pending); [|done].
        by eapply list_elem_of_lookup_2.
      * apply lookup_lt_Some in Hp.
        rewrite length_app, length_replicate in Hp. lia.
    + intros [Hlo Hhi]. rewrite lookup_app_r by done.
      apply lookup_replicate_2. lia.
Qed.

(** An error of the worker rejects the oldest pending promise and no
    other: the rest of the queue stays queued and pending. *)
Theorem WorkerChannel_error_rejects_oldest
    (events : list event) (error : Err) (p : nat) (rest : list nat) :
  pending (foldl step (new (Msg:=Msg) (Data:=Data) (Err:=Err)) events)
    = p :: rest →
  promises (receiveError (foldl step new events) error) !! p
    = Some (Failed error)
  ∧ pending (receiveError (foldl step new events) error) = rest
  ∧ (∀ q, q ≠ p →
       promises (receiveError (foldl step new events) error) !! q
       = promises (foldl step new events) !! q)
  ∧ (∀ q, q ∈ rest →
       promises (receiveError (foldl step new events) error) !! q
       = Some Pending).
Proof.
  intros Hpending.
  pose proof (WorkerChannel_queue_ok_run events) as Hok.
  destruct (WorkerChannel_queue_ok_settle _ (Failed error) p rest Hok
              Hpending) as (Hok' & Hset & Hp); [done|].
  unfold receiveError. rewrite Hpending. cbn. rewrite Hset.
  assert (Hlt : p < length (promises (foldl step new events)))
    by by eapply lookup_lt_Some.
  split; [by apply list_lookup_insert_eq|]. split; [done|]. split.
  - intros q Hq. by apply list_lookup_insert_ne.
  - intros q Hq. destruct Hok' as (settled & Hps & Hrest & _).
    cbn in Hps, Hrest. rewrite <- Hset, Hps.
    rewrite Hrest in Hq. apply elem_of_seq in Hq.
    rewrite lookup_app_r by lia. apply lookup_replicate_2. lia.
Qed.

Lemma WorkerChannel_receive_answers_eq (answers : list (Data + Err)) :
  ∀ (settled : list (promise_state Data Err)) (posted0 : list Msg) listening0,
    foldl receive
      (mk (seq (length settled) (length answers)) posted0
          (settled ++ replicate (length answers) Pending) listening0)
      answers
    = mk [] posted0 (settled ++ (settled_as <$> answers)) listening0.
Proof.
  induction answers as [|a answers IH]; intros settled posted0 listening0.
  - done.
  - cbn [length seq foldl replicate].
    assert (Hstep : receive
              (mk (length settled :: seq (S (length settled)) (length answers))
                  posted0
                  (settled ++ Pending :: replicate (length answers) Pending)
                  listening0) a
            = mk (seq (S (length settled)) (length answers)) posted0
                 ((settled ++ [settled_as a])
                    ++ replicate (length answers) Pending) listening0).
    { destruct a as [data|error]; cbn; unfold receiveMessage, receiveError;
        cbn [pending promises posted listening]; unfold settle;
        rewrite lookup_app_r by lia; rewrite Nat.sub_diag;
        cbn [lookup list_lookup]; rewrite <- (assoc_L (++)); cbn;
        rewrite insert_app_r_alt by lia; by rewrite Nat.sub_diag. }
    rewrite Hstep.
    specialize (IH (settled ++ [settled_as a]) posted0 listening0).
    rewrite length_app, Nat.add_1_r in IH. cbn in IH. rewrite IH.
    by rewrite <- (assoc_L (++)).
Qed.

(** On a channel with nothing pending, after [N] posts and then [N]
    answers of the worker, each a message or an error, the promise of the
    [k]-th post is resolved with the [k]-th message or rejected with the
    [k]-th error. *)
Theorem WorkerChannel_fifo_with_errors ch (msgs : list Msg)
    (answers : list (Data + Err)) :
  pending ch = [] →
  length answers = length msgs →
  ∀ k p a,
    (post_all ch msgs).2 !! k = Some p →
    answers !! k = Some a →
    promises (foldl receive (post_all ch msgs).1 answers) !! p
    = Some (settled_as a).
Proof.
  intros Hpending Hlen k p a. rewrite WorkerChannel_post_all_eq. cbn.
  rewrite Hpending, <- Hlen. cbn.
  rewrite WorkerChannel_receive_answers_eq. cbn.
  intros Hp Ha. apply lookup_seq in Hp as [-> Hk].
  rewrite lookup_app_r by lia.
  replace (length (promises ch) + k - length (promises ch)) with k by lia.
  by rewrite list_lookup_fmap, Ha.
Qed.

End WorkerChannel_more_facts.

Lemma WorkerChannel_error_rejects_oldest_witness :
  WorkerChannel.pending
    (foldl WorkerChannel.step (WorkerChannel.new (Msg:=string) (Data:=nat) (Err:=string))
       [WorkerChannel.DoPost "a"; WorkerChannel.DoPost "b"])
    = [0; 1]
  ∧ WorkerChannel.promises
      (WorkerChannel.receiveError
         (foldl WorkerChannel.step (WorkerChannel.new (Msg:=string) (Data:=nat) (Err:=string))
            [WorkerChannel.DoPost "a"; WorkerChannel.DoPost "b"])
         "down") !! 0
    = Some (WorkerChannel.Failed "down").
Proof.
  split; [reflexivity|].
  apply (WorkerChannel_error_rejects_oldest (Data:=nat)
           [WorkerChannel.DoPost "a"; WorkerChannel.DoPost "b"]
           "down" 0 [1]).
  reflexivity.
Defined.

Lemma WorkerChannel_fifo_with_errors_witness :
  WorkerChannel.pending (WorkerChannel.new (Msg:=string) (Data:=nat) (Err:=string))
    = []
  ∧ length [inl 10; inr "down"] = length ["a"; "b"]
  ∧ WorkerChannel.promises
      (foldl WorkerChannel.receive
         (WorkerChannel.post_all WorkerChannel.new ["a"; "b"]).1
         [inl 10; inr "down"]) !! 1
    = Some (WorkerChannel.settled_as (inr "down")).
Proof.
  split; [reflexivity|]. split; [reflexivity|].
  apply (WorkerChannel_fifo_with_errors WorkerChannel.new ["a"; "b"]
           [inl 10; inr "down"] eq_refl eq_refl 1 1 (inr "down"));
    reflexivity.
Defined.

(** ** WorkerAddressSource *)

Section WorkerAddressSource_facts.
Import WorkerAddressSource.

Lemma WorkerAddressSource_derive_all_acc (ranges : list (Z * Z)) :
  ∀ (s : t) (ps : list nat),
    foldl (λ acc r,
             let '(s', p) := derive acc.1 r.1 r.2 in (s', acc.2 ++ [p]))
          (s, ps) ranges
    = (mk (WorkerChannel.mk
             (WorkerChannel.pending (channel s)
                ++ seq (length (WorkerChannel.promises (channel s)))
                       (length ranges))
             (WorkerChannel.posted (channel s) ++ (request_for s <$> ranges))
             (WorkerChannel.promises (channel s)
                ++ replicate (length ranges) WorkerChannel.Pending)
             (WorkerChannel.listening (channel s)))
          (this_node s) (version s),
       ps ++ seq (length (WorkerChannel.promises (channel s)))
                 (length ranges)).
Proof.
  induction ranges as [|r ranges IH]; intros s ps; cbn.
  - rewrite !app_nil_r. by destruct s as [[] ? ?].
  - rewrite IH. cbn. rewrite length_app. cbn.
    rewrite Nat.add_1_r, <- !(assoc_L (++)). done.
Qed.

Lemma WorkerAddressSource_receive_all (answers : list (reply + JsError)) :
  ∀ s, foldl receive s answers
       = mk (foldl WorkerChannel.receive (channel s) answers)
            (this_node s) (version s).
Proof.
  induction answers as [|a answers IH]; intros s; cbn.
  - by destruct s.
  - by rewrite IH.
Qed.

(** On a source whose channel has nothing pending, after one [derive] per
    range and then as many answers of the worker: the channel was given
    one [deriveAddressRange] request per range, in order, with the node
    and the version of the source; and the promise of the [k]-th [derive]
    is fulfilled with the addresses of the [k]-th answer, or rejected with
    it when it is an error. *)
Theorem WorkerAddressSource_derive_in_order (s : t)
    (ranges : list (Z * Z)) (answers : list (reply + JsError)) :
  WorkerChannel.pending (channel s) = [] →
  length answers = length ranges →
  WorkerChannel.posted (channel (derive_all s ranges).1)
  = WorkerChannel.posted (channel s) ++ (request_for s <$> ranges)
  ∧ ∀ k p,
      (derive_all s ranges).2 !! k = Some p →
      (∀ r, answers !! k = Some (inl r) →
         derived (foldl receive (derive_all s ranges).1 answers) p
         = Some (Fulfilled (addresses r)))
      ∧ (∀ e, answers !! k = Some (inr e) →
         derived (foldl receive (derive_all s ranges).1 answers) p
         = Some (Rejected e)).
Proof.
  intros Hpending Hlen. unfold derive_all.
  rewrite WorkerAddressSource_derive_all_acc. cbn [fst snd channel].
  split; [done|]. intros k p Hp.
  rewrite WorkerAddressSource_receive_all. cbn [channel this_node version].
  rewrite Hpending, <- Hlen. cbn [app].
  rewrite WorkerChannel_receive_answers_eq. unfold derived. cbn.
  apply lookup_seq in Hp as [-> Hk].
  rewrite lookup_app_r by lia.
  replace (length (WorkerChannel.promises (channel s)) + k
           - length (WorkerChannel.promises (channel s))) with k by lia.
  rewrite list_lookup_fmap.
  split; [intros r Ha | intros e Ha]; by rewrite Ha.
Qed.

End WorkerAddressSource_facts.

Lemma WorkerAddressSource_derive_in_order_witness :
  WorkerChannel.pending (WorkerAddressSource.channel sample_worker_source) = []
  ∧ length [inl (WorkerAddressSource.mk_reply ["addr-0"; "addr-1"]);
            inr (BackendError "down")]
    = length [(0, 1)%Z; (2, 3)%Z]
  ∧ WorkerChannel.posted
      (WorkerAddressSource.channel
         (WorkerAddressSource.derive_all sample_worker_source
            [(0, 1)%Z; (2, 3)%Z]).1)
    = WorkerChannel.posted (WorkerAddressSource.channel sample_worker_source)
      ++ (WorkerAddressSource.request_for sample_worker_source
            <$> [(0, 1)%Z; (2, 3)%Z]).
Proof.
  split; [reflexivity|]. split; [reflexivity|].
  apply (WorkerAddressSource_derive_in_order sample_worker_source
           [(0, 1)%Z; (2, 3)%Z]
           [inl (WorkerAddressSource.mk_reply ["addr-0"; "addr-1"]);
            inr (BackendError "down")]); reflexivity.
Defined.

(** Equalities between lists, slots and pairs of indices, by arithmetic on
    the indices. *)
Ltac by_ranges :=
  repeat first [ match goal with |- @eq Z _ _ => lia end
               | match goal with |- @eq nat _ _ => lia end
               | reflexivity
               | f_equal ].

(** ** PrefatchingSource, over time *)

Section PrefatchingSource_more_facts.
Import PrefatchingSource.

Lemma PrefatchingSource_act_slot_ok s a : slot_ok s → slot_ok (act s a).
Proof.
  intros Hok. destruct a as [first last|first last result]; cbn [act].
  - by apply PrefatchingSource_derive_slot_ok.
  - apply PrefatchingSource_callback_slot_ok.
Qed.

(** Whatever calls and callbacks came before, the promise [derive(f, l)]
    waits on is one the wrapped source returned for [(f, l)] itself: a
    slot is never adopted for another range. *)
Theorem PrefatchingSource_promise_for_range (actions : list action)
    (first last : Z) :
  source_calls (derive (foldl act new actions) first last).1
    !! (derive (foldl act new actions) first last).2
  = Some (first, last).
Proof.
  apply PrefatchingSource_derive_slot_ok.
  induction actions as [|a actions IH] using rev_ind.
  - apply PrefatchingSource_slot_ok_new.
  - rewrite foldl_snoc. by apply PrefatchingSource_act_slot_ok.
Qed.

(** Chunks of one size asked for one after the other, each awaited:
    after [k + 1] of them the wrapped source has been asked for the first
    [k + 2] ranges, each once and in order, and the slot holds the promise
    of the last one. *)
Theorem PrefatchingSource_stream_calls (first last : Z)
    (results : nat → list Address) (k : nat) :
  source_calls (derive_stream first last results (S k))
  = following first last <$> seq 0 (S (S k))
  ∧ prefatched (derive_stream first last results (S k))
    = Some (mk_slot (following first last (S k)).1
              (following first last (S k)).2 (S k)).
Proof.
  unfold derive_stream. induction k as [|k [IHc IHp]].
  - cbn. unfold following. cbn. split; by_ranges.
  - rewrite seq_S, foldl_snoc. cbn [Nat.add].
    rewrite (seq_S (S (S k)) 0), fmap_app. cbn [Nat.add].
    set (s := foldl _ new (seq 0 (S k))) in *. clearbody s.
    unfold derive_awaited, derive. rewrite IHp.
    rewrite (proj2 (PrefatchingSource_matches_spec _ _ _)) by done.
    cbn. rewrite IHc, length_fmap, length_seq.
    split.
    + f_equal. cbn. unfold following. by_ranges.
    + unfold following. cbn [fst snd]. by_ranges.
Qed.

End PrefatchingSource_more_facts.

(** ** CachingSource, over time *)

Section CachingSource_more_facts.
Import CachingSource.

Lemma CachingSource_act_keeps_keys st a k :
  is_Some (cache st.1 !! k) → is_Some (cache (act st a).1 !! k).
Proof.
  intros Hk. destruct a as [first last|p settled]; cbn.
  - unfold derive. by destruct (cache st.1 !! key first last).
  - destruct (st.2 !! p) as [[first last]|]; [|done].
    destruct settled as [result|e]; cbn; [|done].
    destruct (decide (key first last = k)) as [<-|Hne].
    + rewrite lookup_insert_eq. eauto.
    + by rewrite lookup_insert_ne.
Qed.

(** A range that is in the cache stays there: whatever calls and
    settlements follow, [derive] of that range is answered from the cache
    and the wrapped source is not called for it. *)
Theorem CachingSource_cached_stays_cached
    (st : t * gmap nat (Z * Z)) (actions : list action) (first last : Z) :
  is_Some (cache st.1 !! key first last) →
  ∃ addresses,
    derive (foldl act st actions).1 first last
    = ((foldl act st actions).1, Cached addresses).
Proof.
  intros Hk.
  assert (Hlater : is_Some (cache (foldl act st actions).1 !! key first last)).
  { induction actions as [|a actions IH] using rev_ind; [done|].
    rewrite foldl_snoc. by apply CachingSource_act_keeps_keys. }
  destruct Hlater as [addresses Ha]. exists addresses.
  unfold derive. by rewrite Ha.
Qed.

(** As long as no promise of the wrapped source is fulfilled, the cache
    is what it was: neither a call nor a failure writes to it. *)
Theorem CachingSource_failures_not_cached
    (st : t * gmap nat (Z * Z)) (actions : list action) :
  (∀ p result, Settle p (Fulfilled result) ∉ actions) →
  cache (foldl act st actions).1 = cache st.1.
Proof.
  revert st. induction actions as [|a actions IH]; intros st Hno; [done|].
  cbn [foldl]. rewrite IH.
  - destruct a as [first last|p settled]; cbn.
    + unfold derive. by destruct (cache st.1 !! key first last).
    + destruct (st.2 !! p) as [[first last]|]; [|done].
      destruct settled as [result|e]; [|done].
      destruct (Hno p result). apply list_elem_of_here.
  - intros p result Hin. apply (Hno p result). by apply list_elem_of_further.
Qed.

(** Two ranges have the same cache key only when they are the same
    range. *)
Theorem CachingSource_key_inj (first last first' last' : Z) :
  key first last = key first' last' → first = first' ∧ last = last'.
Proof.
  unfold key.
  destruct (CachingSource_pretty_Z_shape first) as (d & Hne & Hd & Hshape).
  destruct (CachingSource_pretty_Z_shape first') as (d' & Hne' & Hd' & Hshape').
  intros Hkey.
  assert (Hparts : pretty first = pretty first' ∧ pretty last = pretty last').
  { destruct Hshape as [Hs|Hs], Hshape' as [Hs'|Hs'];
      rewrite Hs, Hs' in Hkey |- *; cbn in Hkey.
    - by destruct (CachingSource_split_at_dash _ _ _ _ Hd Hd' Hkey) as [-> ->].
    - destruct d as [|c d]; [done|]. cbn in Hkey, Hd.
      injection Hkey as -> _. done.
    - destruct d' as [|c d']; [done|]. cbn in Hkey, Hd'.
      injection Hkey as <- _. done.
    - injection Hkey as Hkey.
      by destruct (CachingSource_split_at_dash _ _ _ _ Hd Hd' Hkey) as [-> ->]. }
  destruct Hparts as [Hf Hl]. split; by apply (inj pretty).
Qed.

End CachingSource_more_facts.

Lemma CachingSource_key_inj_witness :
  CachingSource.key 0 19 = CachingSource.key 0 19 ∧ (0 = 0 ∧ 19 = 19)%Z.
Proof.
  split; [reflexivity|]. by apply (CachingSource_key_inj 0 19 0 19).
Defined.

Lemma CachingSource_cached_stays_cached_witness :
  is_Some (CachingSource.cache
             (CachingSource.mk [] {[CachingSource.key 0 1 := ["addr-0"; "addr-1"]]},
              (∅ : gmap nat (Z * Z))).1
           !! CachingSource.key 0 1)
  ∧ ∃ addresses,
      CachingSource.derive
        (foldl CachingSource.act
           (CachingSource.mk [] {[CachingSource.key 0 1 := ["addr-0"; "addr-1"]]},
            ∅)
           [CachingSource.Call 2 3;
            CachingSource.Settle 0 (Rejected (BackendError "down"))]).1 0 1
      = ((foldl CachingSource.act
            (CachingSource.mk [] {[CachingSource.key 0 1 := ["addr-0"; "addr-1"]]},
             ∅)
            [CachingSource.Call 2 3;
             CachingSource.Settle 0 (Rejected (BackendError "down"))]).1,
         CachingSource.Cached addresses).
Proof.
  assert (H : is_Some (CachingSource.cache
             (CachingSource.mk [] {[CachingSource.key 0 1 := ["addr-0"; "addr-1"]]},
              (∅ : gmap nat (Z * Z))).1
           !! CachingSource.key 0 1)).
  { cbn. rewrite lookup_singleton_eq. eauto. }
  split; [exact H|].
  exact (CachingSource_cached_stays_cached _
           [CachingSource.Call 2 3;
            CachingSource.Settle 0 (Rejected (BackendError "down"))] 0 1 H).
Defined.

Lemma CachingSource_failures_not_cached_witness :
  (∀ p result,
     CachingSource.Settle p (Fulfilled result)
     ∉ [CachingSource.Call 2 3;
        CachingSource.Settle 0 (Rejected (BackendError "down"))])
  ∧ CachingSource.cache
      (foldl CachingSource.act (CachingSource.new, ∅)
         [CachingSource.Call 2 3;
          CachingSource.Settle 0 (Rejected (BackendError "down"))]).1
    = CachingSource.cache (CachingSource.new, (∅ : gmap nat (Z * Z))).1.
Proof.
  assert (H : ∀ p result,
     CachingSource.Settle p (Fulfilled result)
     ∉ [CachingSource.Call 2 3;
        CachingSource.Settle 0 (Rejected (BackendError "down"))]).
  { intros p result Hin. apply elem_of_cons in Hin as [Hin|Hin]; [done|].
    apply list_elem_of_singleton in Hin. done. }
  split; [exact H|].
  exact (CachingSource_failures_not_cached (CachingSource.new, ∅) _ H).
Defined.

(** ** TxDatabase: store and restore *)

Section TxDatabase_store_facts.
Import TxDatabase.

Lemma Sorted_le_seq (start n : nat) : Sorted (≤) (seq start n).
Proof.
  revert start. induction n as [|n IH]; intros start; cbn; [constructor|].
  constructor; [apply IH|]. destruct n; cbn; constructor. lia.
Qed.

Lemma keys_ascending_seq {A : Type} (m : gmap nat A) (n : nat) :
  (∀ i, is_Some (m !! i) ↔ i < n) → keys_ascending m = seq 0 n.
Proof.
  intros Hdom. unfold keys_ascending.
  apply (Sorted_unique (≤)).
  - apply Sorted_merge_sort; apply _.
  - apply Sorted_le_seq.
  - rewrite merge_sort_Permutation. apply NoDup_Permutation.
    + apply NoDup_elements.
    + apply NoDup_seq.
    + intros i. rewrite elem_of_elements, elem_of_dom, Hdom, elem_of_seq. lia.
Qed.

Lemma omap_seq_total {A : Type} (f : nat → option A) (n : nat) :
  (∀ i, i < n → is_Some (f i)) →
  length (omap f (seq 0 n)) = n
  ∧ ∀ i, i < n → omap f (seq 0 n) !! i = f i.
Proof.
  induction n as [|n IH]; intros Hf; [split; [done|lia]|].
  destruct IH as [Hlen Hat]; [intros i Hi; apply Hf; lia|].
  rewrite seq_S, omap_app. cbn.
  destruct (Hf n) as [x Hx]; [lia|]. rewrite Hx. cbn.
  split; [rewrite length_app; cbn; lia|].
  intros i Hi. destruct (decide (i = n)) as [->|Hne].
  - rewrite Hx, <- Hlen at 1. by apply list_lookup_middle.
  - rewrite lookup_app_l by lia. apply Hat. lia.
Qed.

Lemma TxDatabase_records (db : t) :
  wf db →
  ∃ l, mirrors db l ∧ ∀ (Json : Type) (toJSON : TxInfo → Json),
         store toJSON db = toJSON <$> l.
Proof.
  intros Hwf.
  destruct (omap_seq_total (λ i, infos db !! i) (nextIndex db))
    as [Hlen Hat]; [by intros i Hi; apply (wf_infos _ Hwf)|].
  exists (omap (λ i, infos db !! i) (seq 0 (nextIndex db))). split.
  - split; [done| |].
    + intros i. destruct (decide (i < nextIndex db)) as [Hi|Hi].
      * by rewrite Hat.
      * rewrite lookup_ge_None_2 by lia. apply eq_None_not_Some.
        rewrite (wf_infos _ Hwf). lia.
    + intros id i. split.
      * intros Hid. pose proof (wf_lt _ Hwf _ _ Hid) as Hi.
        destruct (proj2 (wf_infos _ Hwf i) Hi) as [x Hx].
        exists x. rewrite Hat by done. split; [done|].
        by eapply wf_id.
      * intros (x & Hx & <-).
        assert (Hi : i < nextIndex db)
          by (rewrite <- Hlen; by eapply lookup_lt_Some).
        rewrite Hat in Hx by done.
        destruct (wf_dense _ Hwf i Hi) as [id Hid].
        by rewrite (wf_id _ Hwf _ _ _ Hid Hx).
  - intros Json toJSON. unfold store.
    rewrite (keys_ascending_seq (infos db) (nextIndex db))
      by apply (wf_infos _ Hwf).
    generalize (seq 0 (nextIndex db)). intros ks.
    induction ks as [|k ks IH]; cbn; [done|].
    destruct (infos db !! k); cbn; by rewrite IH.
Qed.

(** [store()] of a database lists its records in the order of their
    indices: the list is [nextIndex] long and its [i]-th item is the JSON
    of the record [infoOf(i)]. *)
Theorem TxDatabase_store_by_index {Json : Type} (toJSON : TxInfo → Json)
    (db : t) :
  reachable db →
  length (store toJSON db) = nextIndex db
  ∧ ∀ i, store toJSON db !! i = toJSON <$> infoOf db i.
Proof.
  intros Hr.
  destruct (TxDatabase_records db (TxDatabase_reachable_wf _ Hr))
    as (l & [Hn Hi _] & Hstore).
  rewrite Hstore, length_fmap. split; [done|].
  intros i. unfold infoOf. by rewrite list_lookup_fmap, Hi.
Qed.

Lemma TxDatabase_mirrors_new : mirrors new [].
Proof.
  split; cbn; [done..|]. intros id i. rewrite lookup_empty.
  split; [done|]. by intros (x & Hx & _).
Qed.

Lemma TxDatabase_update_mirrors db l x :
  mirrors db l → tx_id x ∉ tx_id <$> l → mirrors (update db x) (l ++ [x]).
Proof.
  intros [Hn Hi Hix] Hfresh. unfold update.
  assert (Hnone : indexes db !! tx_id x = None).
  { apply eq_None_not_Some. intros [i Hsome].
    apply Hix in Hsome as (y & Hy & Hid). apply Hfresh.
    rewrite <- Hid. apply list_elem_of_fmap. exists y. split; [done|].
    by eapply list_elem_of_lookup_2. }
  rewrite Hnone. rewrite Hn. split; cbn.
  - rewrite length_app. cbn. lia.
  - intros i. destruct (decide (length l = i)) as [<-|Hne].
    + rewrite lookup_insert_eq. symmetry. by apply list_lookup_middle.
    + rewrite lookup_insert_ne by done. rewrite Hi.
      destruct (decide (i < length l)).
      * by rewrite lookup_app_l.
      * rewrite !lookup_ge_None_2; [done| |lia].
        rewrite length_app. cbn. lia.
  - intros id i. destruct (decide (tx_id x = id)) as [<-|Hne].
    + rewrite lookup_insert_eq. split.
      * intros [= <-]. exists x. split; [by apply list_lookup_middle|done].
      * intros (y & Hy & Hid). f_equal.
        destruct (decide (i < length l)) as [Hlt|Hge].
        -- rewrite lookup_app_l in Hy by done. destruct Hfresh.
           rewrite <- Hid. apply list_elem_of_fmap. exists y.
           split; [done|]. by eapply list_elem_of_lookup_2.
        -- apply lookup_lt_Some in Hy. rewrite length_app in Hy. cbn in Hy.
           lia.
    + rewrite lookup_insert_ne by done. rewrite Hix. split.
      * intros (y & Hy & Hid). exists y. split; [|done].
        rewrite lookup_app_l; [done|]. by eapply lookup_lt_Some.
      * intros (y & Hy & Hid). exists y. split; [|done].
        destruct (decide (i < length l)) as [Hlt|Hge].
        -- by rewrite lookup_app_l in Hy.
        -- destruct (decide (i = length l)) as [->|].
           ++ rewrite list_lookup_middle in Hy by done. congruence.
           ++ apply lookup_lt_Some in Hy. rewrite length_app in Hy.
              cbn in Hy. lia.
Qed.

Lemma TxDatabase_mirrors_eq db1 db2 l :
  mirrors db1 l → mirrors db2 l → db1 = db2.
Proof.
  intros [Hn1 Hi1 Hx1] [Hn2 Hi2 Hx2].
  destruct db1 as [ix1 in1 n1], db2 as [ix2 in2 n2]. cbn in *.
  f_equal; [| |congruence].
  - apply map_eq. intros id.
    destruct (ix1 !! id) as [i|] eqn:H1.
    + symmetry. apply Hx2. by apply Hx1.
    + destruct (ix2 !! id) as [j|] eqn:H2; [|done].
      apply Hx2, Hx1 in H2. congruence.
  - apply map_eq. intros i. by rewrite Hi1, Hi2.
Qed.

(** What [store()] gives, restored into a new database, gives the
    database back: the same records under the same indices, provided
    [fromJSON] undoes [toJSON]. *)
Theorem TxDatabase_store_restore {Json : Type}
    (toJSON : TxInfo → Json) (fromJSON : Json → TxInfo) (db : t) :
  reachable db →
  (∀ x, fromJSON (toJSON x) = x) →
  restore fromJSON new (store toJSON db) = db.
Proof.
  intros Hr Hinv.
  pose proof (TxDatabase_reachable_wf _ Hr) as Hwf.
  destruct (TxDatabase_records db Hwf) as (l & Hm & Hstore).
  rewrite Hstore. apply (TxDatabase_mirrors_eq _ _ l); [|done].
  assert (Hids : NoDup (tx_id <$> l)).
  { apply NoDup_alt. intros i j id. rewrite !list_lookup_fmap.
    destruct (l !! i) as [x|] eqn:Hx; [|done].
    destruct (l !! j) as [y|] eqn:Hy; [|done]. cbn. intros [= Hxi] [= Hyj].
    assert (Hi : indexes db !! id = Some i)
      by (apply (mirrors_indexes _ _ Hm); eauto).
    assert (Hj : indexes db !! id = Some j)
      by (apply (mirrors_indexes _ _ Hm); eauto).
    congruence. }
  clear Hm Hstore. induction l as [|x l IH] using rev_ind.
  - apply TxDatabase_mirrors_new.
  - rewrite fmap_app. change (toJSON <$> [x]) with [toJSON x].
    rewrite TxDatabase_restore_snoc, Hinv.
    rewrite fmap_app in Hids. apply NoDup_app in Hids as (Hl & Hx & _).
    apply TxDatabase_update_mirrors; [by apply IH|].
    intros Hin. apply (Hx _ Hin). cbn. apply list_elem_of_here.
Qed.

(** In a database reached from a new one, an id names one index and an
    index one id: [infoOfId(id)] is a record carrying that very id, stored
    under the index [indexOf] gives it, and [infoOfId] of an id that was
    never passed to [update] is undefined. *)
Theorem TxDatabase_infoOfId_spec (db : t) :
  reachable db →
  (∀ id, indexes db !! id = None → infoOfId db id = None)
  ∧ (∀ id i, indexes db !! id = Some i →
       ∃ x, infoOfId db id = Some x ∧ tx_id x = id
            ∧ indexOf db x = Some i ∧ infoOf db i = Some x)
  ∧ (∀ id1 id2 i, indexes db !! id1 = Some i → indexes db !! id2 = Some i →
       id1 = id2).
Proof.
  intros Hr. pose proof (TxDatabase_reachable_wf _ Hr) as Hwf.
  split; [|split].
  - intros id Hid. unfold infoOfId. by rewrite Hid.
  - intros id i Hid. unfold infoOfId, indexOf, infoOf. rewrite Hid. cbn.
    destruct (proj2 (wf_infos _ Hwf i)) as [x Hx]; [by eapply wf_lt|].
    exists x. pose proof (wf_id _ Hwf _ _ _ Hid Hx) as Hxid.
    rewrite Hxid. done.
  - apply (wf_inj _ Hwf).
Qed.

End TxDatabase_store_facts.

Lemma TxDatabase_store_by_index_witness :
  TxDatabase.reachable (TxDatabase.update TxDatabase.new sample_tx)
  ∧ length (TxDatabase.store tx_id
              (TxDatabase.update TxDatabase.new sample_tx))
    = TxDatabase.nextIndex (TxDatabase.update TxDatabase.new sample_tx).
Proof.
  assert (H : TxDatabase.reachable (TxDatabase.update TxDatabase.new sample_tx))
    by (repeat constructor).
  split; [exact H|].
  apply (TxDatabase_store_by_index tx_id _ H).
Defined.

Lemma TxDatabase_store_restore_witness :
  TxDatabase.reachable (TxDatabase.update TxDatabase.new sample_tx)
  ∧ (∀ x : TxInfo, (λ y : TxInfo, y) ((λ y : TxInfo, y) x) = x)
  ∧ TxDatabase.restore (λ y, y) TxDatabase.new
      (TxDatabase.store (λ y, y) (TxDatabase.update TxDatabase.new sample_tx))
    = TxDatabase.update TxDatabase.new sample_tx.
Proof.
  assert (H : TxDatabase.reachable (TxDatabase.update TxDatabase.new sample_tx))
    by (repeat constructor).
  split; [exact H|]. split; [done|].
  apply (TxDatabase_store_restore (λ y, y) (λ y, y) _ H). done.
Defined.

Lemma TxDatabase_infoOfId_spec_witness :
  TxDatabase.reachable (TxDatabase.update TxDatabase.new sample_tx)
  ∧ ∀ id, TxDatabase.indexes (TxDatabase.update TxDatabase.new sample_tx) !! id
          = None →
          TxDatabase.infoOfId (TxDatabase.update TxDatabase.new sample_tx) id
          = None.
Proof.
  assert (H : TxDatabase.reachable (TxDatabase.update TxDatabase.new sample_tx))
    by (repeat constructor).
  split; [exact H|].
  apply (TxDatabase_infoOfId_spec _ H).
Defined.

(** ** ChainHistory: update and store *)

Section ChainHistory_more_facts.
Import ChainHistory.

Lemma ChainHistory_restore_fresh_histories db data i :
  histories (restore (new db) data) !! i
  = restored_entry db (data_list data !! i).
Proof.
  unfold restore. cbn [histories].
  rewrite ChainHistory_restore_from_histories.
  rewrite Nat.sub_0_r. cbn [database new histories].
  rewrite lookup_empty. unfold restored_entry. case_decide as Hi.
  - by destruct (data_list data !! i) as [[?|]|].
  - rewrite lookup_ge_None_2 by lia. done.
Qed.

Lemma ChainHistory_restore_fresh_used db data :
  used_prefix (restore (new db) data).
Proof.
  destruct (ChainHistory_restore_from_nextIndex (new db) 0 (data_list data))
    as (_ & Hall & Hlast); [cbn; lia|].
  split.
  - intros i. rewrite ChainHistory_restore_fresh_histories.
    unfold restored_entry.
    destruct (data_list data !! i) as [[indexes|]|] eqn:Hi;
      [|by intros [? ?]..].
    intros _. apply Hall in Hi. unfold restore. cbn. lia.
  - destruct Hlast as [Hsame|(j & indexes & Hj & Hn)]; [by left|].
    right. rewrite ChainHistory_restore_fresh_histories.
    unfold restore at 1. cbn [nextIndex]. rewrite Hn.
    replace (0 + j + 1 - 1) with j by lia. rewrite Hj. cbn. eauto.
Qed.

Lemma ChainHistory_update_used h info0 index :
  used_prefix h → used_prefix (update h info0 index).
Proof.
  intros [Hall Hlast]. unfold update, used_prefix, bump. cbn.
  assert (Hlookup : ∀ j,
            is_Some ((match histories h !! index with
                      | Some history =>
                          <[index := history ++ [Some info0]]> (histories h)
                      | None => <[index := [Some info0]]> (histories h)
                      end) !! j)
            ↔ j = index ∨ is_Some (histories h !! j)).
  { intros j. destruct (decide (index = j)) as [->|Hne].
    - destruct (histories h !! j); rewrite lookup_insert_eq;
        (split; [by left | eauto]).
    - destruct (histories h !! index); rewrite lookup_insert_ne by done;
        (split; [by right | by intros [?|?]]). }
  split.
  - intros j. rewrite Hlookup. intros [->|Hj%Hall]; case_decide; lia.
  - right. rewrite Hlookup. case_decide.
    + left. lia.
    + right. destruct Hlast as [?|?]; [lia|done].
Qed.

(** However a history came about, by [restore] on a new history and any
    number of calls of [update]: [nextIndex] is above every address index
    that has a history, and when it is not 0 the index just below it has
    one. *)
Theorem ChainHistory_nextIndex_used_prefix (db : TxDatabase.t)
    (data : HistoryData) (updates : list (TxInfo * nat)) :
  (∀ i, is_Some (histories (update_all (restore (new db) data) updates) !! i)
        → i < nextIndex (update_all (restore (new db) data) updates))
  ∧ (nextIndex (update_all (restore (new db) data) updates) = 0
     ∨ is_Some (histories (update_all (restore (new db) data) updates)
                  !! (nextIndex (update_all (restore (new db) data) updates)
                      - 1))).
Proof.
  change (used_prefix (update_all (restore (new db) data) updates)).
  unfold update_all.
  induction updates as [|u updates IH] using rev_ind.
  - apply ChainHistory_restore_fresh_used.
  - rewrite foldl_snoc. by apply ChainHistory_update_used.
Qed.

Lemma ChainHistory_update_all_database h (updates : list (TxInfo * nat)) :
  database (update_all h updates) = database h.
Proof.
  unfold update_all.
  induction updates as [|u updates IH] using rev_ind; [done|].
  by rewrite foldl_snoc.
Qed.

Lemma ChainHistory_update_all_listed h (updates : list (TxInfo * nat)) i x :
  ∀ listed,
    histories (update_all h updates) !! i = Some listed →
    Some x ∈ listed →
    (∃ old, histories h !! i = Some old ∧ Some x ∈ old) ∨ (x, i) ∈ updates.
Proof.
  unfold update_all.
  induction updates as [|[y j] updates IH] using rev_ind; intros listed.
  - intros Hi Hx. left. eauto.
  - rewrite foldl_snoc. cbn [fst snd]. unfold update at 1. cbn [histories].
    set (h1 := foldl _ h updates) in *.
    assert (Hmore : ∀ before,
              (∃ old, histories h !! i = Some old ∧ Some x ∈ old)
              ∨ (x, i) ∈ before →
              (∃ old, histories h !! i = Some old ∧ Some x ∈ old)
              ∨ (x, i) ∈ before ++ [(y, j)]).
    { intros before [?|?]; [by left|]. right. apply elem_of_app. by left. }
    destruct (decide (j = i)) as [->|Hne].
    + destruct (histories h1 !! i) as [prev|] eqn:Hprev;
        rewrite lookup_insert_eq; intros [= <-] Hx.
      * apply elem_of_app in Hx as [Hx|Hx]; [by eapply Hmore, IH|].
        apply list_elem_of_singleton in Hx as [= ->].
        right. apply elem_of_app. right. by left.
      * apply list_elem_of_singleton in Hx as [= ->].
        right. apply elem_of_app. right. by left.
    + destruct (histories h1 !! j); rewrite lookup_insert_ne by done;
        intros Hi Hx; by eapply Hmore, IH.
Qed.

(** The history of an address index is what it was followed by the
    transactions [update] was given for that index, in the order of the
    calls; an index no call names keeps what it had, and the database is
    not touched. *)
Theorem ChainHistory_update_order (h : t) (updates : list (TxInfo * nat))
    (i : nat) :
  histories (update_all h updates) !! i
  = match (filter (λ u, u.2 = i) updates).*1 with
    | [] => histories h !! i
    | infos => Some (default [] (histories h !! i) ++ (Some <$> infos))
    end
  ∧ database (update_all h updates) = database h.
Proof.
  unfold update_all.
  induction updates as [|[info0 j] updates [IHh IHd]] using rev_ind.
  - done.
  - rewrite foldl_snoc, filter_app, fmap_app. cbn [fst snd].
    split; [|by rewrite <- IHd].
    rewrite filter_cons, filter_nil. cbn [snd].
    set (h1 := foldl _ h updates) in *. unfold update at 1. cbn [histories].
    destruct (decide (j = i)) as [->|Hne].
    + cbn [fmap list_fmap]. rewrite IHh.
      destruct ((filter (λ u, u.2 = i) updates).*1) as [|x l] eqn:Hl.
      * cbn [app]. destruct (histories h !! i) as [old|];
          rewrite lookup_insert_eq; done.
      * rewrite lookup_insert_eq.
        cbn [fst app]. rewrite <- (assoc_L (++)). do 2 f_equal.
        change (Some <$> x :: l) with (Some x :: (Some <$> l)).
        cbn [app]. f_equal. by rewrite fmap_app.
    + cbn [fmap list_fmap]. rewrite app_nil_r.
      destruct (histories h1 !! j); rewrite lookup_insert_ne by done;
        apply IHh.
Qed.

Lemma array_set_lookup {A : Type} (l : list (option A)) (j : nat) (v : A)
    (i : nat) :
  mjoin (array_set l j v !! i)
  = if decide (i = j) then Some v else mjoin (l !! i).
Proof.
  unfold array_set. case_decide as Hj.
  - destruct (decide (i = j)) as [->|Hne].
    + by rewrite list_lookup_insert_eq.
    + by rewrite list_lookup_insert_ne.
  - destruct (decide (i = j)) as [->|Hne].
    + rewrite lookup_app_r by lia. rewrite lookup_app_r
        by (rewrite length_replicate; lia).
      rewrite length_replicate.
      by replace (j - length l - (j - length l)) with 0 by lia.
    + destruct (decide (i < length l)) as [Hi|Hi].
      * by rewrite lookup_app_l.
      * rewrite (lookup_ge_None_2 l i) by lia.
        rewrite lookup_app_r by lia.
        destruct (decide (i < j)) as [Hij|Hij].
        -- rewrite lookup_app_l by (rewrite length_replicate; lia).
           rewrite lookup_replicate_2 by lia. done.
        -- rewrite lookup_ge_None_2; [done|].
           rewrite length_app, length_replicate. cbn. lia.
Qed.

Lemma ChainHistory_store_indexes_ok db (history : list (option TxInfo)) :
  None ∉ history →
  store_indexes db history
  = Fulfilled ((λ o, o ≫= TxDatabase.indexOf db) <$> history).
Proof.
  induction history as [|[x|] history IH]; intros Hclean; cbn.
  - done.
  - rewrite IH; [done|]. intros Hin. apply Hclean. by right.
  - destruct Hclean. by left.
Qed.

Lemma ChainHistory_store_indexes_throws db (history : list (option TxInfo)) :
  None ∈ history → store_indexes db history = Rejected undefined_id.
Proof.
  induction history as [|[x|] history IH]; intros Hin; cbn.
  - by apply elem_of_nil in Hin.
  - rewrite IH; [done|]. apply elem_of_cons in Hin as [?|?]; done.
  - done.
Qed.

Lemma ChainHistory_store_fold_rejected h e ks :
  foldl (store_at h) (Rejected e) ks = Rejected e.
Proof. induction ks as [|k ks IH]; cbn; done. Qed.

Lemma ChainHistory_store_fold_ok h ks :
  (∀ i history, histories h !! i = Some history → None ∉ history) →
  ∀ s0, ∃ l,
    foldl (store_at h) (Fulfilled s0) ks
    = Fulfilled (mk_stored (stored_untilBlock s0) l)
    ∧ ∀ i, mjoin (l !! i)
           = match (if decide (i ∈ ks) then histories h !! i else None) with
             | Some history =>
                 Some ((λ o, o ≫= TxDatabase.indexOf (database h))
                         <$> history)
             | None => mjoin (stored_list s0 !! i)
             end.
Proof.
  intros Hclean. induction ks as [|k ks IH] using rev_ind; intros s0.
  - exists (stored_list s0). cbn. split; [by destruct s0|].
    intros i. rewrite decide_False; [done|apply not_elem_of_nil].
  - destruct (IH s0) as (l & Hfold & Hl). rewrite foldl_snoc, Hfold.
    unfold store_at. destruct (histories h !! k) as [history|] eqn:Hk.
    + rewrite ChainHistory_store_indexes_ok by by eapply Hclean.
      eexists. split; [reflexivity|]. intros i. cbn [stored_list].
      rewrite array_set_lookup. destruct (decide (i = k)) as [->|Hne].
      * rewrite decide_True by (apply elem_of_app; right; by left).
        by rewrite Hk.
      * rewrite Hl. destruct (decide (i ∈ ks)) as [Hin|Hnin].
        -- by rewrite decide_True by (apply elem_of_app; by left).
        -- rewrite decide_False; [done|].
           rewrite elem_of_app, list_elem_of_singleton. by intros [?|?].
    + exists l. split; [done|]. intros i. rewrite Hl.
      destruct (decide (i = k)) as [->|Hne].
      * rewrite Hk. by repeat case_decide.
      * destruct (decide (i ∈ ks)) as [Hin|Hnin].
        -- by rewrite decide_True by (apply elem_of_app; by left).
        -- rewrite decide_False; [done|].
           rewrite elem_of_app, list_elem_of_singleton. by intros [?|?].
Qed.

Lemma ChainHistory_keys h i :
  i ∈ keys_ascending (histories h) ↔ is_Some (histories h !! i).
Proof.
  unfold keys_ascending.
  by rewrite merge_sort_Permutation, elem_of_elements, elem_of_dom.
Qed.

(** When no history holds [undefined], [store()] returns a blob with the
    [untilBlock] of the history whose list has, at the position of every
    address index with a history, what [indexOf] gives for its
    transactions in order, and a hole or nothing anywhere else. *)
Theorem ChainHistory_store_positions (h : t) :
  (∀ i history, histories h !! i = Some history → None ∉ history) →
  ∃ s, store h = Fulfilled s
       ∧ stored_untilBlock s = untilBlock h
       ∧ ∀ i, mjoin (stored_list s !! i)
              = fmap (λ o, o ≫= TxDatabase.indexOf (database h))
                  <$> histories h !! i.
Proof.
  intros Hclean. unfold store.
  destruct (ChainHistory_store_fold_ok h (keys_ascending (histories h))
              Hclean (mk_stored (untilBlock h) [])) as (l & Hfold & Hl).
  eexists. split; [exact Hfold|]. split; [done|]. intros i. cbn.
  rewrite Hl. cbn. case_decide as Hi.
  - by destruct (histories h !! i).
  - rewrite ChainHistory_keys in Hi.
    apply eq_None_not_Some in Hi. rewrite Hi. by destruct i.
Qed.

(** When some history holds [undefined], as after [restore] of an index
    the database does not have, [store()] throws a [TypeError]. *)
Theorem ChainHistory_store_throws (h : t) (i : nat)
    (history : list (option TxInfo)) :
  histories h !! i = Some history → None ∈ history →
  store h = Rejected undefined_id.
Proof.
  intros Hi Hin. unfold store.
  assert (Hkey : i ∈ keys_ascending (histories h))
    by (apply ChainHistory_keys; eauto).
  assert (Hgen : ∀ ks acc,
            i ∈ ks →
            (acc = Rejected undefined_id ∨ ∃ s, acc = Fulfilled s) →
            foldl (store_at h) acc ks = Rejected undefined_id).
  { induction ks as [|k ks IH]; intros acc Hks Hacc.
    - by apply elem_of_nil in Hks.
    - cbn [foldl]. destruct Hacc as [->|[s ->]].
      + cbn. apply ChainHistory_store_fold_rejected.
      + destruct (decide (k = i)) as [->|Hne].
        * cbn. rewrite Hi, ChainHistory_store_indexes_throws by done.
          apply ChainHistory_store_fold_rejected.
        * apply elem_of_cons in Hks as [?|Hks]; [congruence|].
          apply IH; [done|]. cbn.
          destruct (histories h !! k) as [hk|]; [|eauto].
          destruct (decide (None ∈ hk)) as [Hbad|Hok].
          -- rewrite ChainHistory_store_indexes_throws by done. by left.
          -- rewrite ChainHistory_store_indexes_ok by done. eauto. }
  apply Hgen; [done|]. right. eauto.
Qed.

Lemma ChainHistory_store_indexes_fulfilled db
    (history : list (option TxInfo)) indexes :
  store_indexes db history = Fulfilled indexes →
  indexes = (λ o, o ≫= TxDatabase.indexOf db) <$> history.
Proof.
  destruct (decide (None ∈ history)) as [Hbad|Hok].
  - by rewrite ChainHistory_store_indexes_throws.
  - rewrite ChainHistory_store_indexes_ok by done. by intros [= <-].
Qed.

Lemma ChainHistory_store_fulfilled h s :
  store h = Fulfilled s →
  stored_untilBlock s = untilBlock h
  ∧ ∀ i, mjoin (stored_list s !! i)
         = fmap (λ o, o ≫= TxDatabase.indexOf (database h))
             <$> histories h !! i.
Proof.
  unfold store.
  assert (Hgen : ∀ ks s0 s1,
            foldl (store_at h) (Fulfilled s0) ks = Fulfilled s1 →
            stored_untilBlock s1 = stored_untilBlock s0
            ∧ ∀ i, mjoin (stored_list s1 !! i)
                   = match (if decide (i ∈ ks) then histories h !! i
                            else None) with
                     | Some history =>
                         Some ((λ o, o ≫= TxDatabase.indexOf (database h))
                                 <$> history)
                     | None => mjoin (stored_list s0 !! i)
                     end).
  { induction ks as [|k ks IH] using rev_ind; intros s0 s1.
    - intros [= <-]. split; [done|]. intros i.
      rewrite decide_False; [done|apply not_elem_of_nil].
    - rewrite foldl_snoc.
      destruct (foldl (store_at h) (Fulfilled s0) ks) as [s2|e] eqn:Hfold;
        [|done].
      destruct (IH s0 s2 Hfold) as [Hub Hl]. cbn.
      assert (Hother : ∀ i, i ≠ k →
                (if decide (i ∈ ks ++ [k]) then histories h !! i else None)
                = (if decide (i ∈ ks) then histories h !! i else None)).
      { intros i Hne. destruct (decide (i ∈ ks)) as [Hin|Hnin].
        - by rewrite decide_True by (apply elem_of_app; by left).
        - rewrite decide_False; [done|].
          rewrite elem_of_app, list_elem_of_singleton. by intros [?|?]. }
      destruct (histories h !! k) as [history|] eqn:Hk.
      + destruct (store_indexes (database h) history) as [indexes|e]
          eqn:Hix; [|done].
        apply ChainHistory_store_indexes_fulfilled in Hix as ->.
        intros [= <-]. split; [done|]. intros i. cbn [stored_list].
        rewrite array_set_lookup. destruct (decide (i = k)) as [->|Hne].
        * rewrite decide_True by (apply elem_of_app; right; by left).
          by rewrite Hk.
        * by rewrite Hother, Hl.
      + intros [= <-]. split; [done|]. intros i. rewrite Hl.
        destruct (decide (i = k)) as [->|Hne]; [|by rewrite Hother].
        rewrite Hk. by repeat case_decide. }
  intros Hstore. destruct (Hgen _ _ _ Hstore) as [Hub Hl].
  split; [done|]. intros i. rewrite Hl. cbn. case_decide as Hi.
  - by destruct (histories h !! i).
  - rewrite ChainHistory_keys in Hi.
    apply eq_None_not_Some in Hi. rewrite Hi. by destruct i.
Qed.

Lemma ChainHistory_current_of_indexes db (history : list (option TxInfo)) :
  ∀ ns : list nat,
    (λ o, o ≫= TxDatabase.indexOf db) <$> history = Some <$> ns →
    TxDatabase.infoOf db <$> ns = current db <$> history.
Proof.
  induction history as [|o history IH]; intros [|n ns]; cbn; try done.
  intros [= Ho Hrest]. f_equal; [|by apply IH].
  destruct o as [x|]; [|done]. cbn in Ho. unfold current. cbn.
  unfold TxDatabase.infoOfId. unfold TxDatabase.indexOf in Ho.
  by rewrite Ho.
Qed.

(** A history stored and then restored into a new history over the same
    database: when [store()] returns a blob all of whose indices are
    defined, [restore] of it gives back the same [nextIndex] and
    [untilBlock], and at every address index the same transactions in the
    same order, each as the record the database now holds for its id. *)
Theorem ChainHistory_store_restore (h : t) (data : HistoryData) :
  store h = Fulfilled (as_stored data) →
  used_prefix h →
  nextIndex (restore (new (database h)) data) = nextIndex h
  ∧ untilBlock (restore (new (database h)) data) = untilBlock h
  ∧ database (restore (new (database h)) data) = database h
  ∧ ∀ i, histories (restore (new (database h)) data) !! i
         = fmap (current (database h)) <$> histories h !! i.
Proof.
  intros Hstore [Hall Hlast].
  destruct (ChainHistory_store_fulfilled h _ Hstore) as [Hub Hpos].
  cbn in Hub, Hpos.
  assert (Hentry : ∀ i,
            histories (restore (new (database h)) data) !! i
            = fmap (current (database h)) <$> histories h !! i).
  { intros i. rewrite ChainHistory_restore_fresh_histories.
    specialize (Hpos i). rewrite list_lookup_fmap in Hpos.
    unfold restored_entry.
    destruct (data_list data !! i) as [[ns|]|]; cbn in Hpos;
      destruct (histories h !! i) as [history|]; cbn in Hpos |- *;
      try done.
    injection Hpos as Hpos. f_equal.
    by apply ChainHistory_current_of_indexes. }
  assert (Hsame : ∀ i,
            is_Some (histories (restore (new (database h)) data) !! i)
            ↔ is_Some (histories h !! i)).
  { intros i. rewrite Hentry. by rewrite fmap_is_Some. }
  destruct (ChainHistory_restore_fresh_used (database h) data)
    as [Hall' Hlast'].
  split; [|split; [done|split; [|done]]].
  - destruct Hlast as [Hz|Hl], Hlast' as [Hz'|Hl'].
    + congruence.
    + apply Hsame, Hall in Hl'. lia.
    + apply Hsame, Hall' in Hl. lia.
    + apply Hsame, Hall in Hl'. apply Hsame, Hall' in Hl. lia.
  - unfold restore. cbn.
    by destruct (ChainHistory_restore_from_frame (new (database h)) 0
                   (data_list data)) as [-> _].
Qed.

End ChainHistory_more_facts.

Lemma sample_history_clean i (history : list (option TxInfo)) :
  ChainHistory.histories sample_history !! i = Some history →
  None ∉ history.
Proof.
  unfold sample_history, ChainHistory.update. cbn.
  intros [[<- <-]|[_ H]]%lookup_insert_Some; [|by rewrite lookup_empty in H].
  intros Hin%list_elem_of_singleton. done.
Qed.

Lemma ChainHistory_store_positions_witness :
  (∀ i history,
     ChainHistory.histories sample_history !! i = Some history →
     None ∉ history)
  ∧ ∃ s, ChainHistory.store sample_history = Fulfilled s
         ∧ ChainHistory.stored_untilBlock s
           = ChainHistory.untilBlock sample_history
         ∧ ∀ i, mjoin (ChainHistory.stored_list s !! i)
                = fmap (λ o, o ≫= TxDatabase.indexOf
                                    (ChainHistory.database sample_history))
                    <$> ChainHistory.histories sample_history !! i.
Proof.
  split; [exact sample_history_clean|].
  exact (ChainHistory_store_positions sample_history sample_history_clean).
Defined.

Lemma ChainHistory_store_throws_witness :
  ChainHistory.histories dangling_history !! 0 = Some [None]
  ∧ None ∈ [None : option TxInfo]
  ∧ ChainHistory.store dangling_history
    = Rejected ChainHistory.undefined_id.
Proof.
  assert (H : ChainHistory.histories dangling_history !! 0 = Some [None])
    by reflexivity.
  assert (Hin : None ∈ [None : option TxInfo]) by apply list_elem_of_here.
  split; [exact H|]. split; [exact Hin|].
  exact (ChainHistory_store_throws dangling_history 0 [None] H Hin).
Defined.

Lemma sample_history_used : ChainHistory.used_prefix sample_history.
Proof.
  unfold ChainHistory.used_prefix.
  change (ChainHistory.nextIndex sample_history) with 3.
  split.
  - intros i. unfold sample_history, ChainHistory.update. cbn.
    intros [history [[<- _]|[_ H]]%lookup_insert_Some];
      [lia | by rewrite lookup_empty in H].
  - right. by exists [Some sample_tx].
Qed.

Lemma ChainHistory_store_restore_witness :
  ChainHistory.store sample_history
    = Fulfilled (ChainHistory.as_stored
                   (mkHistoryData JsNull [None; None; Some [0]]))
  ∧ ChainHistory.used_prefix sample_history
  ∧ ChainHistory.nextIndex
      (ChainHistory.restore
         (ChainHistory.new (ChainHistory.database sample_history))
         (mkHistoryData JsNull [None; None; Some [0]]))
    = ChainHistory.nextIndex sample_history.
Proof.
  assert (H : ChainHistory.store sample_history
    = Fulfilled (ChainHistory.as_stored
                   (mkHistoryData JsNull [None; None; Some [0]])))
    by (vm_compute; reflexivity).
  split; [exact H|]. split; [exact sample_history_used|].
  apply (ChainHistory_store_restore sample_history _ H sample_history_used).
Defined.

(** ** ChainDiscovery: what [update] does *)

Section ChainDiscovery_more_facts.
Import ChainDiscovery.

Lemma ChainHistory_update_all_with_database db h updates :
  ChainHistory.update_all (ChainHistory.with_database db h) updates
  = ChainHistory.with_database db (ChainHistory.update_all h updates).
Proof.
  unfold ChainHistory.update_all.
  induction updates as [|u updates IH] using rev_ind; [done|].
  by rewrite !foldl_snoc, IH.
Qed.

Lemma ChainDiscovery_addresses_fold (info0 : TxInfo) (addrs : list Address) :
  ∀ d b,
    foldl (update_address info0) (d, b) addrs
    = (with_history d
         (ChainHistory.update_all (history d)
            (omap (λ a, pair info0 <$> Chain.indexOf (chain d) a) addrs)),
       b || bool_decide
              (Exists (λ a, is_Some (Chain.indexOf (chain d) a)) addrs)).
Proof.
  induction addrs as [|a addrs IH]; intros d b.
  - cbn [foldl omap list_omap].
    rewrite bool_decide_eq_false_2 by (by intros ?%Exists_nil).
    rewrite orb_false_r. by destruct d.
  - cbn [foldl]. unfold update_address at 2. cbn [fst snd].
    destruct (Chain.indexOf (chain d) a) as [index|] eqn:Ha.
    + cbv beta iota. rewrite IH.
      cbn [chain history with_history omap list_omap fmap].
      rewrite Ha. cbn.
      rewrite (bool_decide_eq_true_2 (Exists _ (a :: addrs)))
        by (apply Exists_cons_hd; by exists index).
      by rewrite orb_true_r.
    + cbv beta iota. rewrite IH. cbn [omap list_omap]. rewrite Ha. cbn. do 2 f_equal.
      apply bool_decide_ext. rewrite Exists_cons, Ha.
      split; [by right | by intros [[? ?]|?]].
Qed.

Lemma ChainDiscovery_untouched_no_updates c r :
  touches c r = false → history_updates_of c r = [].
Proof.
  unfold touches, history_updates_of. intros Hno%bool_decide_eq_false.
  induction (addresses r) as [|a addrs IH]; [done|]. cbn.
  rewrite Exists_cons in Hno.
  destruct (Chain.indexOf c a) as [i|] eqn:Ha.
  - destruct Hno. left. eauto.
  - cbn. apply IH. intros H. apply Hno. by right.
Qed.

Lemma ChainDiscovery_results_fold (results : list TxResult) :
  ∀ d any events,
    foldl update_result (d, any, events) results
    = (updated d results,
       any || bool_decide (Exists (λ r, touches (chain d) r = true) results),
       events ++ (Transaction <$> database_updates (chain d) results)).
Proof.
  induction results as [|r results IH]; intros d any events.
  - cbn [foldl]. rewrite bool_decide_eq_false_2 by (by intros ?%Exists_nil).
    rewrite orb_false_r. unfold updated, database_updates, history_updates.
    cbn. rewrite app_nil_r.
    by destruct d as [c [db hs n ub] g s u].
  - cbn [foldl]. unfold update_result at 2.
    rewrite ChainDiscovery_addresses_fold. cbn [orb].
    fold (touches (chain d) r). fold (history_updates_of (chain d) r).
    unfold database_updates, history_updates. cbn [mbind list_bind].
    rewrite filter_cons.
    destruct (touches (chain d) r) eqn:Ht.
    + rewrite decide_True by done. rewrite IH.
      cbn [chain update_database with_history history fmap list_fmap].
      rewrite (bool_decide_eq_true_2 (Exists _ (r :: results)))
        by by apply Exists_cons_hd.
      rewrite orb_true_r, <- (assoc_L (++)). cbn [app].
      cbn [orb].
      match goal with
      | |- (?a, _, _) = (?b, _, _) => assert (Hst : a = b)
      end; [|by rewrite Hst].
      unfold updated, database_updates, history_updates.
      cbn [mbind list_bind]. rewrite filter_cons, decide_True by done.
      cbn [chain history with_history gapLength sinceHeight untilHeight
           ChainHistory.database foldl fmap list_fmap update_database].
      fold (ChainHistory.with_database
              (TxDatabase.update
                 (ChainHistory.database
                    (ChainHistory.update_all (history d)
                       (history_updates_of (chain d) r))) (info r))
              (ChainHistory.update_all (history d)
                 (history_updates_of (chain d) r))).
      rewrite ChainHistory_update_all_with_database.
      rewrite ChainHistory_update_all_database.
      unfold ChainHistory.update_all. rewrite foldl_app. done.
    + rewrite decide_False by done.
      rewrite ChainDiscovery_untouched_no_updates by done. cbn [app].
      replace (with_history d (ChainHistory.update_all (history d) []))
        with d by by destruct d.
      rewrite IH.
      assert (Hst : updated d results = updated d (r :: results)).
      { unfold updated, database_updates, history_updates.
        cbn [mbind list_bind]. rewrite filter_cons, decide_False by by rewrite Ht.
        by rewrite ChainDiscovery_untouched_no_updates. }
      assert (Hany : bool_decide
                (Exists (λ r0, touches (chain d) r0 = true) results)
              = bool_decide
                  (Exists (λ r0, touches (chain d) r0 = true) (r :: results))).
      { apply bool_decide_ext. rewrite Exists_cons, Ht.
        split; [by right | by intros [?|?]]. }
      by rewrite Hst, Hany.
Qed.

Lemma ChainDiscovery_update_eq d results :
  update d results
  = if bool_decide (Exists (λ r, touches (chain d) r = true) results)
    then if bool_decide (gap (updated d results) < gapLength d)%Z
         then (updated d results,
               Transaction <$> database_updates (chain d) results, CallNext)
         else (updated d results,
               (Transaction <$> database_updates (chain d) results)
                 ++ [History (history (updated d results))], Return)
    else (updated d results,
          Transaction <$> database_updates (chain d) results, Return).
Proof.
  unfold update. rewrite ChainDiscovery_results_fold. cbn [orb app].
  destruct (bool_decide (Exists _ results)); [|done].
  by destruct (bool_decide (gap (updated d results) < _)%Z).
Qed.

(** [update] changes the history and the database of the discovery and
    nothing else: the history gets one [update] per pair of a transaction
    and an address of it that the chain knows, in order, and the database
    one [update] per transaction with such an address, in order. *)
Theorem ChainDiscovery_update_effect d results :
  chain (update d results).1.1 = chain d
  ∧ gapLength (update d results).1.1 = gapLength d
  ∧ sinceHeight (update d results).1.1 = sinceHeight d
  ∧ untilHeight (update d results).1.1 = untilHeight d
  ∧ history (update d results).1.1
    = ChainHistory.with_database
        (foldl TxDatabase.update (ChainHistory.database (history d))
           (database_updates (chain d) results))
        (ChainHistory.update_all (history d)
           (history_updates (chain d) results)).
Proof.
  rewrite ChainDiscovery_update_eq.
  destruct (bool_decide (Exists _ results));
    [destruct (bool_decide (gap (updated d results) < _)%Z)|]; done.
Qed.

(** What [update] emits: one ['transaction'] for every result with an
    address the chain knows, in the order of the results, then nothing or
    one ['history'] carrying the history as [update] leaves it; never an
    ['error'], and no ['history'] when no result has such an address. *)
Theorem ChainDiscovery_update_events d results :
  ∃ tail,
    (update d results).1.2
    = (Transaction <$> database_updates (chain d) results) ++ tail
    ∧ (tail = [] ∨ tail = [History (history (update d results).1.1)])
    ∧ (database_updates (chain d) results = [] → tail = []).
Proof.
  rewrite ChainDiscovery_update_eq.
  destruct (bool_decide (Exists _ results)) eqn:Hany;
    [destruct (bool_decide (gap (updated d results) < _)%Z)|]; cbn.
  - exists []. rewrite app_nil_r. split; [done|]. split; [by left|done].
  - eexists. split; [done|]. split; [by right|].
    intros Hnone. apply bool_decide_eq_true in Hany.
    apply Exists_exists in Hany as (r & Hr & Ht).
    assert (Hin : info r ∈ database_updates (chain d) results).
    { apply list_elem_of_fmap. exists r. split; [done|].
      by apply list_elem_of_filter. }
    rewrite Hnone in Hin. by apply elem_of_nil in Hin.
  - exists []. rewrite app_nil_r. split; [done|]. split; [by left|done].
Qed.

(** Results none of which names an address the chain knows, as the empty
    list, or a live transaction of another wallet: [update] changes
    nothing, emits nothing and does not call [this.next()]. *)
Theorem ChainDiscovery_update_untouched d results :
  (∀ r, r ∈ results → touches (chain d) r = false) →
  update d results = (d, [], Return).
Proof.
  intros Hno. rewrite ChainDiscovery_update_eq.
  rewrite bool_decide_eq_false_2.
  - assert (Hdb : database_updates (chain d) results = []).
    { unfold database_updates.
      induction results as [|r results IH]; [done|].
      rewrite filter_cons, decide_False
        by (rewrite Hno by (by left); done).
      apply IH. intros r0 Hr0. apply Hno. by right. }
    assert (Hh : history_updates (chain d) results = []).
    { clear Hdb. unfold history_updates.
      induction results as [|r results IH]; [done|]. cbn.
      rewrite ChainDiscovery_untouched_no_updates by (apply Hno; by left).
      apply IH. intros r0 Hr0. apply Hno. by right. }
    unfold updated. rewrite Hdb, Hh. cbn.
    by destruct d as [c [db hs n ub] g s u].
  - intros (r & Hr & Ht)%Exists_exists. rewrite Hno in Ht; done.
Qed.

Lemma TxDatabase_updates_keep_known db (l : list TxInfo) x :
  is_Some (TxDatabase.indexOf db x) →
  is_Some (TxDatabase.indexOf (foldl TxDatabase.update db l) x).
Proof.
  revert db. induction l as [|y l IH]; intros db [i Hi]; cbn; [eauto|].
  apply IH. exists i. by apply TxDatabase_update_indexes_mono.
Qed.

Lemma TxDatabase_updates_make_known db (l : list TxInfo) x :
  x ∈ l → is_Some (TxDatabase.indexOf (foldl TxDatabase.update db l) x).
Proof.
  revert db. induction l as [|y l IH]; intros db Hin; cbn.
  - by apply elem_of_nil in Hin.
  - apply elem_of_cons in Hin as [->|Hin]; [|by apply IH].
    apply TxDatabase_updates_keep_known.
    pose proof (TxDatabase_update_roundtrip db y) as Hrt.
    destruct (TxDatabase.indexOf (TxDatabase.update db y) y); [eauto|done].
Qed.

(** [update] keeps the history and the database in step: when every
    transaction listed in the history is known to the database before,
    the same holds after. *)
Theorem ChainDiscovery_update_linked d results :
  linked (history d) → linked (history (update d results).1.1).
Proof.
  intros Hlinked.
  assert (Heff : history (update d results).1.1
            = ChainHistory.with_database
                (foldl TxDatabase.update (ChainHistory.database (history d))
                   (database_updates (chain d) results))
                (ChainHistory.update_all (history d)
                   (history_updates (chain d) results))).
  { rewrite ChainDiscovery_update_eq.
    destruct (bool_decide (Exists _ results));
      [destruct (bool_decide (gap (updated d results) < _)%Z)|]; done. }
  rewrite Heff. clear Heff.
  intros i listed x Hi Hx.
  cbn [ChainHistory.with_database ChainHistory.histories
       ChainHistory.database] in Hi |- *.
  destruct (ChainHistory_update_all_listed _ _ _ _ _ Hi Hx)
    as [(old & Hold & Hxo)|Hin].
  - apply TxDatabase_updates_keep_known. by eapply Hlinked.
  - apply TxDatabase_updates_make_known.
    unfold history_updates in Hin.
    apply list_elem_of_bind in Hin as (r & Hin & Hr).
    unfold history_updates_of in Hin.
    apply list_elem_of_omap in Hin as (a & Ha & Hin).
    destruct (Chain.indexOf (chain d) a) as [k|] eqn:Hk; [|done].
    injection Hin as <- <-.
    apply list_elem_of_fmap. exists r. split; [done|].
    apply list_elem_of_filter. split; [|done].
    apply bool_decide_eq_true, Exists_exists. exists a.
    split; [done|]. rewrite Hk. eauto.
Qed.

End ChainDiscovery_more_facts.

(** ** ChainDiscovery: runs *)

Section ChainDiscovery_run_facts.
Import ChainDiscovery.

(** As the class stands, with [this.next] undefined, [start()] never
    scans: whatever the blockchain and the address source do, it emits
    one ['error'] and nothing else, asks no address of the source,
    subscribes to nothing, and leaves the chain and the histories as they
    were. *)
Theorem ChainDiscovery_start_as_written fuel blockchain source d :
  0 < fuel →
  ∃ d' e,
    start fuel this_next blockchain source d
    = Some (d', mk_world [] [] [Error e])
    ∧ chain d' = chain d
    ∧ ChainHistory.histories (history d')
      = ChainHistory.histories (history d)
    ∧ ChainHistory.nextIndex (history d')
      = ChainHistory.nextIndex (history d).
Proof.
  intros Hfuel. unfold start.
  destruct (updateBlockInfo blockchain d) as [d1|e] eqn:Hinfo.
  - destruct fuel as [|fuel]; [lia|]. cbn [next this_next].
    eexists _, _. split; [reflexivity|].
    unfold updateBlockInfo in Hinfo.
    destruct (getBlockRange _ _); [|done]. by injection Hinfo as <-.
  - by eexists _, _.
Qed.

(** When [updateBlockInfo()] succeeds, [untilHeight] is the hash of the
    best block and [history.untilBlock] is its height, the two being
    taken from [Promise.all] in the wrong order; [sinceHeight] is 0 when
    the history had no [untilBlock], and else the height looked up for
    it; the chain, the histories and the database are as they were. *)
Theorem ChainDiscovery_updateBlockInfo_result blockchain d d1 :
  updateBlockInfo blockchain d = Fulfilled d1 →
  ∃ hash height since,
    lookupBestBlockHash blockchain = Fulfilled hash
    ∧ lookupBlockIndex blockchain (JsStr hash) = Fulfilled height
    ∧ untilHeight d1 = JsStr hash
    ∧ ChainHistory.untilBlock (history d1) = JsNum height
    ∧ sinceHeight d1 = JsNum since
    ∧ (if truthy (ChainHistory.untilBlock (history d))
       then lookupBlockIndex blockchain
              (ChainHistory.untilBlock (history d)) = Fulfilled since
       else since = 0%Z)
    ∧ chain d1 = chain d
    ∧ ChainHistory.histories (history d1)
      = ChainHistory.histories (history d)
    ∧ ChainHistory.database (history d1)
      = ChainHistory.database (history d).
Proof.
  unfold updateBlockInfo, getBlockRange.
  destruct (lookupBestBlockHash blockchain) as [hash|e] eqn:Hbest.
  - destruct (lookupBlockIndex blockchain (JsStr hash)) as [height|e]
      eqn:Hheight.
    + destruct (truthy (ChainHistory.untilBlock (history d))) eqn:Ht.
      * destruct (lookupBlockIndex blockchain
                    (ChainHistory.untilBlock (history d))) as [since|e]
          eqn:Hsince; [|done].
        intros [= <-]. exists hash, height, since. by repeat split.
      * intros [= <-]. exists hash, height, 0%Z. by repeat split.
    + by destruct (if truthy _ then _ else _).
  - by destruct (if truthy _ then _ else _).
Qed.

(** *** Runs, with the listener *)

(** What [update], with the [this.next()] it may end in, emits: one
    ['transaction'] per result that touches the chain, then nothing or
    one ['history']. *)
Lemma ChainDiscovery_update_then_next_emits bound s results :
  ∃ txs tail,
    emitted (seen (update_then_next bound s results).1)
    = emitted (seen s) ++ (Transaction <$> txs) ++ tail
    ∧ (tail = []
       ∨ (tail
          = [History (history
                        (discovery (update_then_next bound s results).1))]
          ∧ txs ≠ []
          ∧ (gapLength (discovery (update_then_next bound s results).1)
             ≤ gap (discovery (update_then_next bound s results).1))%Z)).
Proof.
  unfold update_then_next. rewrite ChainDiscovery_update_eq.
  exists (database_updates (chain (discovery s)) results).
  destruct (bool_decide (Exists _ results)) eqn:Hany;
    [destruct (bool_decide (gap (updated (discovery s) results) < _)%Z)
       eqn:Hgap|].
  - exists []. split; [|by left]. rewrite app_nil_r.
    by destruct bound.
  - eexists. split; [cbn; reflexivity|]. right. split; [done|]. split.
    + intros Hnone. apply bool_decide_eq_true in Hany.
      apply Exists_exists in Hany as (r & Hr & Ht).
      assert (Hin : info r ∈ database_updates (chain (discovery s)) results).
      { apply list_elem_of_fmap. exists r. split; [done|].
        by apply list_elem_of_filter. }
      rewrite Hnone in Hin. by apply elem_of_nil in Hin.
    + apply bool_decide_eq_false in Hgap. cbn in *. lia.
  - exists []. split; [|by left]. by rewrite app_nil_r.
Qed.

(** What one callback emits. *)
Lemma ChainDiscovery_act_emits bound s a :
  ∃ txs tail,
    emitted (seen (act bound s a))
    = emitted (seen s) ++ (Transaction <$> txs) ++ tail
    ∧ (tail = []
       ∨ (∃ e, tail = [Error e] ∧ txs = [])
       ∨ (tail = [History (history (discovery (act bound s a)))]
          ∧ txs ≠ []
          ∧ (gapLength (discovery (act bound s a))
             ≤ gap (discovery (act bound s a)))%Z)).
Proof.
  assert (Hnone : ∀ s' : live,
            emitted (seen s') = emitted (seen s) →
            ∃ txs tail,
              emitted (seen s')
              = emitted (seen s) ++ (Transaction <$> txs) ++ tail
              ∧ (tail = []
                 ∨ (∃ e, tail = [Error e] ∧ txs = [])
                 ∨ (tail = [History (history (discovery s'))]
                    ∧ txs ≠ []
                    ∧ (gapLength (discovery s') ≤ gap (discovery s'))%Z))).
  { intros s' ->. exists [], []. rewrite !app_nil_r. split; [done|by left]. }
  destruct a as [r|p settled|p settled|p]; cbn [act].
  - destruct (listening s); [|by apply Hnone].
    destruct (ChainDiscovery_update_then_next_emits bound s [r])
      as (txs & tail & Hemit & Htail).
    exists txs, tail.
    destruct (update_then_next bound s [r]) as [s1 [e|]]; cbn in *.
    + split; [done|]. destruct Htail as [->|?]; [by left|by right; right].
    + split; [done|]. destruct Htail as [->|?]; [by left|by right; right].
  - destruct (waits s !! p) as [[n f l|addrs|addrs u v|e]|]; try by apply Hnone.
    destruct settled; by apply Hnone.
  - destruct (waits s !! p) as [[n f l|addrs|addrs u v|e]|]; try by apply Hnone.
    destruct settled as [results|e]; [|by apply Hnone].
    destruct (ChainDiscovery_update_then_next_emits bound (settle s p) results)
      as (txs & tail & Hemit & Htail).
    exists txs, tail.
    destruct (update_then_next bound (settle s p) results) as [s1 [e|]];
      cbn in *.
    + split; [done|]. destruct Htail as [->|?]; [by left|by right; right].
    + split; [done|]. destruct Htail as [->|?]; [by left|by right; right].
  - destruct (waits s !! p) as [[n f l|addrs|addrs u v|e]|]; try by apply Hnone.
    exists [], [Error e]. cbn. split; [done|]. right. left. eauto.
Qed.

(** [start()] emits nothing before it returns: what fails in it goes to
    the handler of [.catch], which runs later. *)
Lemma ChainDiscovery_start_live_silent bound blockchain d :
  emitted (seen (start_live bound blockchain d)) = [].
Proof.
  unfold start_live. destruct (updateBlockInfo blockchain d); [|done].
  by destruct bound.
Qed.

Lemma ChainDiscovery_run_snoc bound blockchain d actions a :
  run bound blockchain d (actions ++ [a])
  = act bound (run bound blockchain d actions) a.
Proof. unfold run. by rewrite foldl_app. Qed.

(** What a run has emitted stays emitted. *)
Lemma ChainDiscovery_run_emitted_prefix bound blockchain d before actions :
  before `prefix_of` actions →
  emitted (seen (run bound blockchain d before))
    `prefix_of` emitted (seen (run bound blockchain d actions)).
Proof.
  intros [rest ->]. induction rest as [|a rest IH] using rev_ind.
  - by rewrite app_nil_r.
  - rewrite (assoc_L (++)), ChainDiscovery_run_snoc.
    destruct (ChainDiscovery_act_emits bound
                (run bound blockchain d (before ++ rest)) a)
      as (txs & tail & -> & _).
    etrans; [exact IH|]. by apply prefix_app_r.
Qed.

(** Over any run, [start()] followed by the callbacks in any order, live
    transactions among them, and with [this.next()] read either way: a
    ['history'] is never emitted first nor after an ['error'] or another
    ['history'], but right after a ['transaction']; and at the moment it
    was emitted, it being then the last event, it carried the history as
    the discovery had it and the gap was at least [gapLength]. *)
Theorem ChainDiscovery_run_events bound blockchain d actions i h :
  emitted (seen (run bound blockchain d actions)) !! i = Some (History h) →
  (∃ j info0,
     i = S j
     ∧ emitted (seen (run bound blockchain d actions)) !! j
       = Some (Transaction info0))
  ∧ ∃ before,
      before `prefix_of` actions
      ∧ emitted (seen (run bound blockchain d before))
        = take (S i) (emitted (seen (run bound blockchain d actions)))
      ∧ h = history (discovery (run bound blockchain d before))
      ∧ (gapLength (discovery (run bound blockchain d before))
         ≤ gap (discovery (run bound blockchain d before)))%Z.
Proof.
  revert i h. induction actions as [|a actions IH] using rev_ind; intros i h.
  - unfold run. cbn. by rewrite ChainDiscovery_start_live_silent.
  - rewrite ChainDiscovery_run_snoc.
    destruct (ChainDiscovery_act_emits bound
                (run bound blockchain d actions) a)
      as (txs & tail & Hemit & Htail).
    rewrite Hemit.
    set (old := emitted (seen (run bound blockchain d actions))) in *.
    destruct (decide (i < length old)) as [Hold|Hnew].
    + rewrite lookup_app_l by done. intros Hi.
      destruct (IH i h Hi) as [(j & info0 & -> & Hj) (before & Hpre & Hb & Hh)].
      split.
      * exists j, info0. split; [done|]. rewrite lookup_app_l by lia. done.
      * exists before. split; [by apply prefix_app_r|].
        split; [|done]. rewrite Hb.
        rewrite take_app_le by lia. done.
    + rewrite lookup_app_r by lia.
      destruct (decide (i - length old < length txs)) as [Htx|Hlast].
      { rewrite lookup_app_l by (by rewrite length_fmap).
        rewrite list_lookup_fmap.
        by destruct (txs !! (i - length old)). }
      rewrite lookup_app_r by (rewrite length_fmap; lia).
      rewrite length_fmap.
      destruct Htail as [->|[(e & -> & _)|(-> & Htxs & Hgap)]].
      * by rewrite lookup_nil.
      * by destruct (i - length old - length txs) as [|[|?]].
      * destruct (i - length old - length txs) as [|k] eqn:Hk; [|by destruct k].
        intros [= <-].
        assert (Hi : i = length old + length txs) by lia.
        destruct (last txs) as [info0|] eqn:Hlast0.
        2: { apply last_None in Hlast0. done. }
        apply last_Some in Hlast0 as [txs0 ->].
        rewrite length_app in Hi. cbn in Hi.
        split.
        -- exists (length old + length txs0), info0. split; [lia|].
           rewrite lookup_app_r by lia. rewrite lookup_app_l.
           2: { rewrite length_fmap, length_app. cbn. lia. }
           rewrite fmap_app. cbn. rewrite lookup_app_r by (rewrite length_fmap; lia).
           rewrite length_fmap.
           by replace (length old + length txs0 - length old - length txs0)
             with 0 by lia.
        -- exists (actions ++ [a]). split; [done|].
           rewrite ChainDiscovery_run_snoc. split; [|done].
           rewrite Hemit. fold old. rewrite take_ge; [done|].
           rewrite !length_app, length_fmap, length_app. cbn. lia.
Qed.

Lemma ChainDiscovery_ascending_snoc ks m :
  ascending ks → Forall (λ k, k ≤ m) ks → ascending (ks ++ [m]).
Proof.
  intros Hasc Hle i j a b Hij Ha Hb.
  destruct (decide (j < length ks)) as [Hj|Hj].
  - rewrite lookup_app_l in Ha, Hb by lia. by apply (Hasc i j).
  - rewrite lookup_app_r in Hb by lia.
    destruct (j - length ks) as [|k]; [|by destruct k].
    injection Hb as <-.
    destruct (decide (i < length ks)) as [Hi|Hi].
    + rewrite lookup_app_l in Ha by lia.
      rewrite Forall_lookup in Hle. by apply (Hle i).
    + rewrite lookup_app_r in Ha by lia.
      destruct (i - length ks) as [|k]; [|by destruct k].
      by injection Ha as <-.
Qed.

Lemma ChainDiscovery_nextChunk_chunked n c s ks m :
  chunked n c s ks m → chunked n c (nextChunk s) (ks ++ [m]) m.
Proof.
  intros [Hd Hasc Hle Hn Hc]. split; cbn.
  - rewrite Hd, fmap_app. f_equal. cbn. f_equal.
    unfold Chain.nextChunk_range, chunk_range. rewrite Hn, Hc. by_ranges.
  - by apply ChainDiscovery_ascending_snoc.
  - apply Forall_app. split; [done|]. by apply Forall_singleton.
  - done.
  - done.
Qed.

Lemma ChainDiscovery_update_then_next_chunked bound n c s results ks m :
  chunked n c s ks m →
  ∃ ks',
    chunked n c (update_then_next bound s results).1 ks' m
    ∧ (bound = Unbound → ks' = ks).
Proof.
  intros [Hd Hasc Hle Hn Hc]. unfold update_then_next.
  pose proof (ChainDiscovery_update_frame (discovery s) results)
    as [Hchain _].
  destruct (update (discovery s) results) as [[d1 events] ctl].
  cbn in Hchain.
  assert (H1 : chunked n c
                 (set_seen (set_discovery s d1) (emit (seen s) events))
                 ks m).
  { split; cbn; rewrite ?Hchain; done. }
  destruct ctl; [by exists ks|].
  destruct bound; cbn.
  - by exists ks.
  - exists (ks ++ [m]). split; [|done].
    by apply ChainDiscovery_nextChunk_chunked.
Qed.

Lemma ChainDiscovery_act_chunked bound n c s a ks m :
  gives c a → chunked n c s ks m →
  ∃ ks' m',
    chunked n c (act bound s a) ks' m'
    ∧ (bound = Unbound → ks' = ks).
Proof.
  intros Ha Hs.
  assert (Hsame : ∀ s' : live,
            seen s' = seen s → discovery s' = discovery s →
            ∃ ks' m', chunked n c s' ks' m' ∧ (bound = Unbound → ks' = ks)).
  { intros s' Hseen Hdisc. exists ks, m. split; [|done].
    destruct Hs as [Hd Hasc Hle Hn Hc]. split; by rewrite ?Hseen, ?Hdisc. }
  destruct a as [r|p settled|p settled|p]; cbn [act].
  - destruct (listening s); [|by apply Hsame].
    destruct (ChainDiscovery_update_then_next_chunked bound n c s [r] ks m Hs)
      as (ks' & Hks' & Hun).
    exists ks', m. split; [|done].
    destruct (update_then_next bound s [r]) as [s1 [e|]]; [|done].
    destruct Hks' as [Hd Hasc Hle Hn Hc]. by split.
  - destruct (waits s !! p) as [[first f l|addrs|addrs u v|e]|];
      try by apply Hsame.
    destruct settled as [addrs|e]; [|by apply Hsame].
    cbn in Ha. destruct Hs as [Hd Hasc Hle Hn Hc].
    exists ks, (S m). split; [|done]. split; cbn.
    + done.
    + done.
    + eapply Forall_impl; [exact Hle|]. cbn. lia.
    + destruct (Chain_install_from_frame first (chain (discovery s)) 0 addrs)
        as [-> _]. rewrite Hn, Ha. lia.
    + by rewrite Chain_install_chunkSize.
  - destruct (waits s !! p) as [[first f l|addrs|addrs u v|e]|];
      try by apply Hsame.
    destruct settled as [results|e]; [|by apply Hsame].
    assert (Hs0 : chunked n c (settle s p) ks m).
    { destruct Hs as [Hd Hasc Hle Hn Hc]. by split. }
    destruct (ChainDiscovery_update_then_next_chunked bound n c _ results
                ks m Hs0) as (ks' & Hks' & Hun).
    exists ks', m. split; [|done].
    destruct (update_then_next bound (settle s p) results) as [s1 [e|]];
      [|done].
    destruct Hks' as [Hd Hasc Hle Hn Hc]. by split.
  - destruct (waits s !! p) as [[first f l|addrs|addrs u v|e]|];
      try by apply Hsame.
    + exists ks, m. split; [|done].
      destruct Hs as [Hd Hasc Hle Hn Hc]. by split.
    + exists ks, m. split; [|done].
      destruct Hs as [Hd Hasc Hle Hn Hc]. by split.
Qed.

Lemma ChainDiscovery_start_live_chunked bound blockchain d :
  ∃ ks,
    chunked (Chain.nextIndex (chain d)) (Chain.chunkSize (chain d))
      (start_live bound blockchain d) ks 0
    ∧ (bound = Unbound → ks = []).
Proof.
  assert (Hnil : ∀ s : live,
            derived (seen s) = [] → chain (discovery s) = chain d →
            chunked (Chain.nextIndex (chain d)) (Chain.chunkSize (chain d))
              s [] 0).
  { intros s Hd Hc. split; rewrite ?Hc.
    - done.
    - intros i j a b _ Ha. by rewrite lookup_nil in Ha.
    - done.
    - lia.
    - done. }
  unfold start_live.
  destruct (updateBlockInfo blockchain d) as [d1|e] eqn:Hinfo.
  - apply ChainDiscovery_updateBlockInfo_frame in Hinfo as (Hc & _ & _).
    destruct bound; cbn.
    + exists []. split; [by apply Hnil|done].
    + exists ([] ++ [0]). split; [|done].
      apply ChainDiscovery_nextChunk_chunked. by apply Hnil.
  - exists []. split; [by apply Hnil|done].
Qed.

(** Over any run, live transactions among the callbacks, in which the
    source gives as many addresses as a chunk has: every range asked of
    the source is a whole chunk, a whole number of chunks after the
    index the chain started at; the ranges never go back, though one may
    be asked again; none lies past the chunk the chain would ask next,
    the chain's [nextIndex] being a whole number of chunks on; and as the
    class stands, with [this.next] undefined, no range is ever asked. *)
Theorem ChainDiscovery_run_ranges bound blockchain d actions :
  Forall (gives (Chain.chunkSize (chain d))) actions →
  ∃ (ks : list nat) (m : nat),
    derived (seen (run bound blockchain d actions))
    = chunk_range (Chain.nextIndex (chain d)) (Chain.chunkSize (chain d))
        <$> ks
    ∧ ascending ks
    ∧ Forall (λ k, k ≤ m) ks
    ∧ Chain.nextIndex (chain (discovery (run bound blockchain d actions)))
      = Chain.nextIndex (chain d) + Chain.chunkSize (chain d) * m
    ∧ Chain.chunkSize (chain (discovery (run bound blockchain d actions)))
      = Chain.chunkSize (chain d)
    ∧ (bound = this_next → ks = []).
Proof.
  intros Hgives.
  assert (Hrun : ∃ ks m,
            chunked (Chain.nextIndex (chain d)) (Chain.chunkSize (chain d))
              (run bound blockchain d actions) ks m
            ∧ (bound = Unbound → ks = [])).
  { induction actions as [|a actions IH] using rev_ind.
    - destruct (ChainDiscovery_start_live_chunked bound blockchain d)
        as (ks & Hks & Hun). by exists ks, 0.
    - apply Forall_app in Hgives as [Hactions Ha].
      rewrite Forall_singleton in Ha.
      destruct (IH Hactions) as (ks & m & Hks & Hun).
      rewrite ChainDiscovery_run_snoc.
      destruct (ChainDiscovery_act_chunked bound _ _ _ a ks m Ha Hks)
        as (ks' & m' & Hks' & Hun').
      exists ks', m'. split; [done|]. intros Hb. rewrite Hun' by done. auto. }
  destruct Hrun as (ks & m & [Hd Hasc Hle Hn Hc] & Hun).
  by exists ks, m.
Qed.

(** The callbacks of a discovery on which nothing else waits. *)
Lemma ChainDiscovery_act_derived bound d l n w u k first last addrs :
  act bound (wait (mk_live d l ∅ n w u) (Derive k first last))
    (SourceSettles n (Fulfilled addrs))
  = wait
      (mk_live (with_chain d (Chain.nextChunk_callback k (chain d) addrs).1)
         l ∅ (S n) w u)
      (Installed addrs).
Proof.
  unfold act, wait, settle, set_discovery. cbn [waits promises].
  rewrite lookup_insert_eq. cbn.
  by rewrite delete_insert_eq, delete_empty.
Qed.

Lemma ChainDiscovery_act_not_derived bound d l n w u k first last e :
  act bound (wait (mk_live d l ∅ n w u) (Derive k first last))
    (SourceSettles n (Rejected e))
  = wait (mk_live d l ∅ (S n) w u) (Failed e).
Proof.
  unfold act, wait, settle. cbn [waits promises].
  rewrite lookup_insert_eq. cbn.
  by rewrite delete_insert_eq, delete_empty.
Qed.

Lemma ChainDiscovery_act_installed bound d l n w u addrs :
  act bound (wait (mk_live d l ∅ n w u) (Installed addrs)) (Callback n)
  = wait
      (mk_live d l ∅ (S n)
         (mk_world (derived w) (subscribed w ++ [addrs]) (emitted w)) u)
      (Lookup addrs (untilHeight d) (sinceHeight d)).
Proof.
  unfold act, wait, settle, set_seen. cbn [waits promises].
  rewrite lookup_insert_eq. cbn.
  by rewrite delete_insert_eq, delete_empty.
Qed.

Lemma ChainDiscovery_act_failed bound d l n w u e :
  act bound (wait (mk_live d l ∅ n w u) (Failed e)) (Callback n)
  = mk_live d l ∅ (S n) (emit w [Error e]) u.
Proof.
  unfold act, wait, settle, set_seen. cbn [waits promises].
  rewrite lookup_insert_eq. cbn.
  by rewrite delete_insert_eq, delete_empty.
Qed.

Lemma ChainDiscovery_act_looked_up bound d l n w u addrs until since results :
  act bound (wait (mk_live d l ∅ n w u) (Lookup addrs until since))
    (LookupSettles n (Fulfilled results))
  = match update_then_next bound (mk_live d l ∅ (S n) w u) results with
    | (s1, None) => s1
    | (s1, Some e) => wait s1 (Failed e)
    end.
Proof.
  unfold act, wait, settle. cbn [waits promises].
  rewrite lookup_insert_eq. cbn [discovery listening waits promises seen
                                 uncaught].
  by rewrite delete_insert_eq, delete_empty.
Qed.

Lemma ChainDiscovery_act_not_looked_up bound d l n w u addrs until since e :
  act bound (wait (mk_live d l ∅ n w u) (Lookup addrs until since))
    (LookupSettles n (Rejected e))
  = wait (mk_live d l ∅ (S n) w u) (Failed e).
Proof.
  unfold act, wait, settle. cbn [waits promises].
  rewrite lookup_insert_eq. cbn.
  by rewrite delete_insert_eq, delete_empty.
Qed.

(** [start()], as [start] has it, is one of the runs: the one in which
    every promise settles, and every callback runs, as soon as it can,
    and the blockchain reports no transaction meanwhile. *)
Lemma ChainDiscovery_next_is_run fuel bound blockchain source :
  ∀ d l n w u d' w',
    next fuel bound blockchain source d w = Some (d', w') →
    ∃ actions s',
      foldl (act bound)
        match call_next bound (mk_live d l ∅ n w u) with
        | (s1, None) => s1
        | (s1, Some e) => wait s1 (Failed e)
        end actions = s'
      ∧ Forall (λ a, ∀ r, a ≠ Hear r) actions
      ∧ discovery s' = d' ∧ seen s' = w' ∧ waits s' = ∅.
Proof.
  induction fuel as [|fuel IH]; intros d l n w u d' w' Hrun; [done|].
  cbn [next] in Hrun. destruct bound; cbn [call_next].
  - injection Hrun as <- <-. eexists [Callback n], _.
    split; [cbn [foldl]; apply ChainDiscovery_act_failed|].
    split; [by repeat constructor|done].
  - unfold nextChunk, set_seen. cbn [discovery listening waits promises seen
                                      uncaught].
    destruct (Chain.nextChunk_range (chain d)) as [first last] eqn:Hrange.
    cbn [fst snd].
    destruct (source first last) as [addrs|e].
    2: { injection Hrun as <- <-.
         eexists [SourceSettles n (Rejected e); Callback (S n)], _.
         split.
         { cbn [foldl]. rewrite ChainDiscovery_act_not_derived.
           apply ChainDiscovery_act_failed. }
         split; [by repeat constructor|done]. }
    change (with_chain d (Chain.nextChunk (chain d) addrs))
      with (with_chain d
              (Chain.nextChunk_callback (Chain.nextIndex (chain d)) (chain d)
                 addrs).1) in Hrun.
    set (d1 := with_chain d _) in *.
    set (w1 := mk_world (derived w ++ [(first, last)]) (subscribed w)
                 (emitted w)) in *.
    destruct (lookupTxs _ _ _ _) as [results|e] eqn:Hlookup.
    2: { injection Hrun as <- <-.
         eexists [SourceSettles n (Fulfilled addrs); Callback (S n);
                  LookupSettles (S (S n)) (Rejected e);
                  Callback (S (S (S n)))], _.
         split.
         { cbn [foldl]. rewrite ChainDiscovery_act_derived. fold d1.
           rewrite ChainDiscovery_act_installed,
             ChainDiscovery_act_not_looked_up.
           apply ChainDiscovery_act_failed. }
         split; [by repeat constructor|done]. }
    assert (Hstep :
      foldl (act BoundToNextChunk)
        (wait (mk_live d l ∅ n w1 u)
           (Derive (Chain.nextIndex (chain d)) first last))
        [SourceSettles n (Fulfilled addrs); Callback (S n);
         LookupSettles (S (S n)) (Fulfilled results)]
      = match
          update_then_next BoundToNextChunk
            (mk_live d1 l ∅ (S (S (S n)))
               (mk_world (derived w1) (subscribed w1 ++ [addrs])
                  (emitted w1)) u) results
        with
        | (s1, None) => s1
        | (s1, Some e) => wait s1 (Failed e)
        end).
    { cbn [foldl]. rewrite ChainDiscovery_act_derived. fold d1.
      by rewrite ChainDiscovery_act_installed,
        ChainDiscovery_act_looked_up. }
    unfold update_then_next in Hstep.
    cbn [discovery listening waits promises seen uncaught] in Hstep.
    destruct (update d1 results) as [[d2 events] ctl].
    unfold set_seen, set_discovery in Hstep.
    cbn [discovery listening waits promises seen uncaught] in Hstep.
    destruct ctl.
    + injection Hrun as <- <-.
      eexists [SourceSettles n (Fulfilled addrs); Callback (S n);
               LookupSettles (S (S n)) (Fulfilled results)], _.
      split; [exact Hstep|]. split; [by repeat constructor|done].
    + destruct (IH _ l (S (S (S n))) _ u d' w' Hrun)
        as (actions & s' & Hs' & Hno & Hd & Hw & He).
      exists ([SourceSettles n (Fulfilled addrs); Callback (S n);
               LookupSettles (S (S n)) (Fulfilled results)] ++ actions), s'.
      split; [|split; [apply Forall_app; split; [by repeat constructor|]|]];
        [|done|done].
      rewrite foldl_app, Hstep. exact Hs'.
Qed.

Lemma ChainDiscovery_start_is_run fuel bound blockchain source d d' w :
  start fuel bound blockchain source d = Some (d', w) →
  ∃ actions,
    Forall (λ a, ∀ r, a ≠ Hear r) actions
    ∧ discovery (run bound blockchain d actions) = d'
    ∧ seen (run bound blockchain d actions) = w
    ∧ waits (run bound blockchain d actions) = ∅.
Proof.
  unfold start, run, start_live.
  destruct (updateBlockInfo blockchain d) as [d1|e].
  - intros Hrun.
    destruct (ChainDiscovery_next_is_run fuel bound blockchain source
                d1 true 0 (mk_world [] [] []) [] d' w Hrun)
      as (actions & s' & Hs' & Hno & Hd & Hw & He).
    exists actions. by rewrite Hs'.
  - intros [= <- <-]. exists [Callback 0]. split; [by repeat constructor|].
    cbn [foldl]. by rewrite ChainDiscovery_act_failed.
Qed.

End ChainDiscovery_run_facts.

Lemma ChainDiscovery_start_as_written_witness :
  0 < 5
  ∧ ∃ d' e,
      ChainDiscovery.start 5 ChainDiscovery.this_next one_tx_blockchain
        sample_source fresh_discovery
      = Some (d', ChainDiscovery.mk_world [] [] [ChainDiscovery.Error e]).
Proof.
  split; [lia|].
  destruct (ChainDiscovery_start_as_written 5 one_tx_blockchain
              sample_source fresh_discovery) as (d' & e & H & _); [lia|].
  by exists d', e.
Defined.

Lemma ChainDiscovery_update_untouched_witness :
  (∀ r, r ∈ [tx_at "elsewhere"] →
        ChainDiscovery.touches (ChainDiscovery.chain small_discovery) r
        = false)
  ∧ ChainDiscovery.update small_discovery [tx_at "elsewhere"]
    = (small_discovery, [], ChainDiscovery.Return).
Proof.
  assert (H : ∀ r, r ∈ [tx_at "elsewhere"] →
        ChainDiscovery.touches (ChainDiscovery.chain small_discovery) r
        = false).
  { intros r ->%list_elem_of_singleton. vm_compute. reflexivity. }
  split; [exact H|].
  exact (ChainDiscovery_update_untouched small_discovery _ H).
Defined.

Lemma small_discovery_linked :
  ChainDiscovery.linked (ChainDiscovery.history small_discovery).
Proof. intros i listed x H. cbn in H. by rewrite lookup_empty in H. Qed.

Lemma ChainDiscovery_update_linked_witness :
  ChainDiscovery.linked (ChainDiscovery.history small_discovery)
  ∧ ChainDiscovery.linked
      (ChainDiscovery.history
         (ChainDiscovery.update small_discovery [tx_at "addr-0"]).1.1).
Proof.
  split; [exact small_discovery_linked|].
  exact (ChainDiscovery_update_linked small_discovery [tx_at "addr-0"]
           small_discovery_linked).
Defined.

Lemma ChainDiscovery_run_events_witness :
  ∃ h,
    ChainDiscovery.emitted
      (ChainDiscovery.seen
         (ChainDiscovery.run ChainDiscovery.BoundToNextChunk
            one_tx_blockchain fresh_discovery busy_run)) !! 3
    = Some (ChainDiscovery.History h)
    ∧ ∃ j info0,
        3 = S j
        ∧ ChainDiscovery.emitted
            (ChainDiscovery.seen
               (ChainDiscovery.run ChainDiscovery.BoundToNextChunk
                  one_tx_blockchain fresh_discovery busy_run)) !! j
          = Some (ChainDiscovery.Transaction info0).
Proof.
  eexists. split; [vm_compute; reflexivity|].
  eapply proj1,
    (ChainDiscovery_run_events ChainDiscovery.BoundToNextChunk
       one_tx_blockchain fresh_discovery busy_run 3).
  vm_compute; reflexivity.
Defined.

Lemma ChainDiscovery_run_ranges_witness :
  Forall (ChainDiscovery.gives
            (Chain.chunkSize (ChainDiscovery.chain fresh_discovery)))
    busy_run
  ∧ ChainDiscovery.derived
      (ChainDiscovery.seen
         (ChainDiscovery.run ChainDiscovery.BoundToNextChunk
            one_tx_blockchain fresh_discovery busy_run))
    = [(0, 2); (3, 5); (3, 5)]%Z
  ∧ ∃ ks,
      ChainDiscovery.derived
        (ChainDiscovery.seen
           (ChainDiscovery.run ChainDiscovery.BoundToNextChunk
              one_tx_blockchain fresh_discovery busy_run))
      = ChainDiscovery.chunk_range
          (Chain.nextIndex (ChainDiscovery.chain fresh_discovery))
          (Chain.chunkSize (ChainDiscovery.chain fresh_discovery)) <$> ks
      ∧ ChainDiscovery.ascending ks.
Proof.
  assert (H : Forall (ChainDiscovery.gives
                        (Chain.chunkSize
                           (ChainDiscovery.chain fresh_discovery)))
                busy_run) by (repeat constructor).
  split; [exact H|]. split; [vm_compute; reflexivity|].
  destruct (ChainDiscovery_run_ranges ChainDiscovery.BoundToNextChunk
              one_tx_blockchain fresh_discovery busy_run H)
    as (ks & m & Hd & Hasc & _).
  by exists ks.
Defined.

Lemma ChainDiscovery_updateBlockInfo_result_witness :
  ∃ d1,
    ChainDiscovery.updateBlockInfo one_tx_blockchain fresh_discovery
    = Fulfilled d1
    ∧ ChainDiscovery.untilHeight d1 = JsStr "best-block"
    ∧ ChainHistory.untilBlock (ChainDiscovery.history d1) = JsNum 100.
Proof.
  eexists. split; [reflexivity|].
  destruct (ChainDiscovery_updateBlockInfo_result one_tx_blockchain
              fresh_discovery _ eq_refl)
    as (hash & height & since & [= <-] & [= <-] & Hu & Hb & _).
  by split.
Defined.
